(** * Expression.h: symbolic expressions over a numeric type

    A shallow embedding of [src/headers/Expression.h]: the four node classes
    ([ConstantExpression], [VarExpression], [MonoExpression],
    [BinaryExpression]), their methods [eval], [diff] and [to_string], and
    the free function [optimize], which rewrites the nodes it is given
    in place and is therefore modelled over an explicit store of nodes. *)

From Stdlib Require Import ZArith String Ascii DecimalString.
From Stdlib Require Import PrimFloat FloatOps SpecFloat Uint63 FloatAxioms.
From Stdlib Require Import Classical.
From stdpp Require Import gmap strings list.

Local Open Scope Z_scope.
Local Open Scope string_scope.

(** ** Enumerations and exceptions *)

Inductive Operation := PLUS | MINUS | MULT | DIV | POW.
Inductive Function := SIN | COS | LN | EXP.

Global Instance Operation_eq_dec : EqDecision Operation.
Proof. solve_decision. Defined.
Global Instance Function_eq_dec : EqDecision Function.
Proof. solve_decision. Defined.

(** The only exception thrown is [std::runtime_error], told apart by its
    message. *)
Inductive exn := runtime_error (what : string).

Inductive outcome (A : Type) :=
| Ret (a : A)
| Throw (e : exn).
Arguments Ret {A} a.
Arguments Throw {A} e.

Definition division_by_zero : exn := runtime_error "Division by zero".
Definition unknown_operation : exn := runtime_error "Unknown operation".

(** ** The numeric type [T]

    The templates are instantiated at [double] and [std::complex<double>].
    [ordered] holds the operations that exist for [double] only ([>] and
    [std::abs] with a result in [T]); it is [None] exactly when
    [std::is_same_v<T, std::complex<double>>]. [show] is
    [ConstantExpression<T>::to_string], whose body is chosen by
    [if constexpr] on [T]. [T()], the value [std::map::operator[]] inserts for
    a missing key, is [T(0)] for both instantiations. *)

Record Ordered (T : Type) := {
  gtb : T -> T -> bool;
  abs : T -> T
}.
Arguments gtb {T} _ _ _.
Arguments abs {T} _ _.

Class Numeric (T : Type) := {
  of_int : Z -> T;
  add : T -> T -> T;
  sub : T -> T -> T;
  mul : T -> T -> T;
  div : T -> T -> T;
  eqb : T -> T -> bool;
  pow : T -> T -> T;
  sin : T -> T;
  cos : T -> T;
  log : T -> T;
  exp : T -> T;
  ordered : option (Ordered T);
  show : T -> option string
}.

(** ** Expression trees *)

Inductive expr (T : Type) :=
| Constant (value : T)
| Var (value : string)
| Mono (e : expr T) (func : Function)
| Binary (left_ right_ : expr T) (op : Operation).
Arguments Constant {T} value.
Arguments Var {T} value.
Arguments Mono {T} e func.
Arguments Binary {T} left_ right_ op.

Section Expression.
Context {T : Type} {N : Numeric T}.

(** C++ leaves the order in which the two operands of [+], [-], [*] and the
    two arguments of [std::pow] are evaluated unspecified; [left_first op]
    is the compiler's choice. *)
Variable left_first : Operation -> bool.

(** *** eval

    [parameters] is passed by reference and [operator[]] inserts a missing
    key, so evaluation returns the table next to its result. A thrown
    exception leaves the insertions made so far in place. *)

Definition Eval (A : Type) := gmap string T -> outcome A * gmap string T.

Definition ret {A} (a : A) : Eval A := fun m => (Ret a, m).
Definition throw {A} (e : exn) : Eval A := fun m => (Throw e, m).
Definition bind {A B} (c : Eval A) (k : A -> Eval B) : Eval B :=
  fun m => match c m with
           | (Ret a, m') => k a m'
           | (Throw e, m') => (Throw e, m')
           end.

Definition operands (lf : bool) (l r : Eval T) : Eval (T * T) :=
  if lf then bind l (fun a => bind r (fun b => ret (a, b)))
  else bind r (fun b => bind l (fun a => ret (a, b))).

Definition subscript (value : string) : Eval T :=
  fun m => match m !! value with
           | Some v => (Ret v, m)
           | None => (Ret (of_int 0), <[value := of_int 0]> m)
           end.

Fixpoint eval (e : expr T) : Eval T :=
  match e with
  | Constant value => ret value
  | Var value => subscript value
  | Mono e func =>
      bind (eval e) (fun a =>
      match func with
      | SIN => ret (sin a)
      | COS => ret (cos a)
      | LN => ret (log a)
      | EXP => ret (exp a)
      end)
  | Binary left_ right_ op =>
      match op with
      | PLUS => bind (operands (left_first PLUS) (eval left_) (eval right_))
                  (fun ab => ret (add ab.1 ab.2))
      | MINUS => bind (operands (left_first MINUS) (eval left_) (eval right_))
                   (fun ab => ret (sub ab.1 ab.2))
      | MULT => bind (operands (left_first MULT) (eval left_) (eval right_))
                  (fun ab => ret (mul ab.1 ab.2))
      | DIV =>
          bind (eval right_) (fun d =>
          if eqb d (of_int 0) then throw division_by_zero
          else bind (operands (left_first DIV) (eval left_) (eval right_))
                 (fun ab => ret (div ab.1 ab.2)))
      | POW => bind (operands (left_first POW) (eval left_) (eval right_))
                 (fun ab => ret (pow ab.1 ab.2))
      end
  end.

(** *** diff *)

Definition obind {A B} (c : outcome A) (k : A -> outcome B) : outcome B :=
  match c with
  | Ret a => k a
  | Throw e => Throw e
  end.

Definition is_constant (e : expr T) : option T :=
  match e with
  | Constant value => Some value
  | _ => None
  end.

Fixpoint diff (str : string) (e : expr T) : outcome (expr T) :=
  match e with
  | Constant _ => Ret (Constant (of_int 0))
  | Var value =>
      if String.eqb str value then Ret (Constant (of_int 1))
      else Ret (Constant (of_int 0))
  | Mono e func =>
      obind (diff str e) (fun expr_diff =>
      match func with
      | SIN => Ret (Binary (Mono e COS) expr_diff MULT)
      | COS => Ret (Binary
                      (Binary (Constant (of_int (-1))) (Mono e SIN) MULT)
                      expr_diff MULT)
      | LN => Ret (Binary expr_diff e DIV)
      | EXP => Ret (Binary (Mono e EXP) expr_diff MULT)
      end)
  | Binary left_ right_ op =>
      obind (diff str left_) (fun left_diff =>
      obind (diff str right_) (fun right_diff =>
      match op with
      | PLUS => Ret (Binary left_diff right_diff PLUS)
      | MINUS => Ret (Binary left_diff right_diff MINUS)
      | MULT =>
          let left_mult := Binary left_diff right_ MULT in
          let right_mult := Binary left_ right_diff MULT in
          Ret (Binary left_mult right_mult PLUS)
      | DIV =>
          let numerator :=
            Binary (Binary left_diff right_ MULT)
                   (Binary left_ right_diff MULT) MINUS in
          let denominator := Binary right_ (Constant (of_int 2)) POW in
          Ret (Binary numerator denominator DIV)
      | POW =>
          match ordered with
          | Some R =>
              match is_constant right_ with
              | Some c =>
                  if gtb R c (of_int 1) then
                    let power := Constant (sub c (of_int 1)) in
                    let multiplier := Binary left_ power POW in
                    Ret (Binary right_ (Binary multiplier left_diff MULT) MULT)
                  else if eqb c (of_int 1) then
                    Ret (Constant (of_int 1))
                  else
                    let multiplier := Binary right_ left_diff MULT in
                    let power := Constant (add (abs R c) (of_int 1)) in
                    Ret (Binary multiplier (Binary left_ power POW) DIV)
              | None =>
                  match is_constant left_ with
                  | Some _ =>
                      let multiplier1 := Binary left_ right_ POW in
                      let multiplier2 := Mono left_ LN in
                      Ret (Binary right_diff
                             (Binary multiplier1 multiplier2 MULT) MULT)
                  | None =>
                      let term1 := Binary right_diff (Mono left_ LN) MULT in
                      let term2 :=
                        Binary right_ (Binary left_diff left_ DIV) MULT in
                      Ret (Binary term1 term2 PLUS)
                  end
              end
          | None => Throw unknown_operation
          end
      end))
  end.

(** *** to_string *)

Definition is_binary (e : expr T) : bool :=
  match e with
  | Binary _ _ _ => true
  | _ => false
  end.

Definition func_name (func : Function) : string :=
  match func with
  | SIN => "sin"
  | COS => "cos"
  | LN => "ln"
  | EXP => "exp"
  end.

Fixpoint to_string (e : expr T) : option string :=
  match e with
  | Constant value => show value
  | Var value => Some value
  | Mono e func =>
      match to_string e with
      | Some s =>
          if is_binary e then Some (func_name func ++ s)
          else Some (func_name func ++ "(" ++ s ++ ")")
      | None => None
      end
  | Binary left_ right_ op =>
      match to_string left_, to_string right_ with
      | Some l, Some r =>
          match op with
          | PLUS => Some ("(" ++ l ++ " + " ++ r ++ ")")
          | MINUS => Some ("(" ++ l ++ " - " ++ r ++ ")")
          | MULT => Some ("(" ++ l ++ " * " ++ r ++ ")")
          | DIV => Some ("(" ++ l ++ " / " ++ r ++ ")")
          | POW => Some ("(" ++ l ++ "^" ++ r ++ ")")
          end
      | _, _ => None
      end
  end.

End Expression.

(** ** The instantiation at [double]

    Arithmetic and comparisons are IEEE 754 binary64, as the kernel's
    primitive floats compute them. *)

Module Double.

(** [T(n)] for an [int] literal [n]. *)
Definition of_Z (n : Z) : float :=
  match n with
  | Z0 => 0%float
  | Zpos _ => PrimFloat.of_uint63 (Uint63.of_Z n)
  | Zneg p => PrimFloat.opp (PrimFloat.of_uint63 (Uint63.of_Z (Zpos p)))
  end.

(** [<cmath>]: the results of [std::sin], [std::cos], [std::log],
    [std::exp] and [std::pow] are the implementation's. *)
Record libm := {
  c_sin : float -> float;
  c_cos : float -> float;
  c_log : float -> float;
  c_exp : float -> float;
  c_pow : float -> float -> float
}.

(** [std::to_string(long)]. *)
Definition string_of_long (n : Z) : string :=
  NilZero.string_of_int (Z.to_int n).

(** Zeros in front of [s], up to [width] characters. *)
Definition pad_left (width : nat) (s : string) : string :=
  string_of_list_ascii (repeat "0"%char (width - String.length s)) ++ s.

(** [std::to_string(double)], that is [printf("%f")], of the value
    (-1)^s * m * 2^e with e < 0: six decimals, the exact value rounded to
    nearest, ties to even. *)
Definition string_of_double (s : bool) (m : positive) (e : Z) : string :=
  let den := Z.pow 2 (- e) in
  let num := Zpos m * 1000000 in
  let q := num / den in
  let r := num mod den in
  let q := if ((den <? 2 * r) || ((den =? 2 * r) && Z.odd q))%Z
           then q + 1 else q in
  (if s then "-" else "") ++ string_of_long (q / 1000000) ++ "."
    ++ pad_left 6 (string_of_long (q mod 1000000)).

(** [to_string_optimized]. [None] where the text is not fixed by the
    source: a NaN (its sign is printed), and a value whose floor does not
    fit [long] (64 bits), where [static_cast<long>] is undefined. *)
Definition to_string_optimized (a : float) : option string :=
  match Prim2SF a with
  | S754_zero _ => Some (string_of_long 0)
  | S754_finite s m e =>
      let n := Z.shiftl (Zpos m) e in
      if (Z.shiftl n (- e) =? Zpos m)%Z then
        let a_ := if s then - n else n in
        if ((- 2 ^ 63 <=? a_) && (a_ <? 2 ^ 63))%Z then Some (string_of_long a_)
        else None
      else Some (string_of_double s m e)
  | S754_infinity _ => None
  | S754_nan => None
  end.

(** [ConstantExpression<double>::to_string]. *)
Definition to_string (value : float) : option string :=
  match to_string_optimized value with
  | Some s => if PrimFloat.ltb value 0 then Some ("(" ++ s ++ ")") else Some s
  | None => None
  end.

Definition order : Ordered float :=
  {| gtb := fun a b => PrimFloat.ltb b a; abs := PrimFloat.abs |}.

Definition numeric (m : libm) : Numeric float :=
  {| of_int := of_Z;
     add := PrimFloat.add;
     sub := PrimFloat.sub;
     mul := PrimFloat.mul;
     div := PrimFloat.div;
     eqb := PrimFloat.eqb;
     pow := c_pow m;
     sin := c_sin m;
     cos := c_cos m;
     log := c_log m;
     exp := c_exp m;
     ordered := Some order;
     show := to_string |}.

End Double.

(** ** The store of nodes

    [optimize] assigns to the fields of the nodes it visits
    ([mono->expr], [binary->left], [binary->right], [binary->op]), and a
    node may be held by several [shared_ptr]s. A [shared_ptr] is modelled as
    an address into a store of nodes; [std::make_shared] puts a node at the
    next free address. Nodes are never freed in the model: a node no pointer
    holds any more stays where it is. *)

Inductive node (T : Type) :=
| ConstantExpression (value : T)
| VarExpression (value : string)
| MonoExpression (e : nat) (func : Function)
| BinaryExpression (left_ right_ : nat) (op : Operation).
Arguments ConstantExpression {T} value.
Arguments VarExpression {T} value.
Arguments MonoExpression {T} e func.
Arguments BinaryExpression {T} left_ right_ op.

Section Optimize.
Context {T : Type} {N : Numeric T}.
Variable left_first : Operation -> bool.

Local Abbreviation store := (list (node T)).

(** The expression a pointer denotes, read to depth [fuel]. *)
Fixpoint load (fuel : nat) (h : store) (p : nat) : option (expr T) :=
  match fuel with
  | O => None
  | S fuel =>
      match h !! p with
      | Some (ConstantExpression value) => Some (Constant value)
      | Some (VarExpression value) => Some (Var value)
      | Some (MonoExpression e func) =>
          match load fuel h e with
          | Some e' => Some (Mono e' func)
          | None => None
          end
      | Some (BinaryExpression l r op) =>
          match load fuel h l, load fuel h r with
          | Some l', Some r' => Some (Binary l' r' op)
          | _, _ => None
          end
      | None => None
      end
  end.

(** Computations over the store: [None] when the model is stuck (out of
    fuel, or a pointer that is not of the expected class), otherwise a
    result or a thrown exception, and the store as it was left. *)
Definition Opt (A : Type) := store -> option (outcome A * store).

Definition oret {A} (a : A) : Opt A := fun h => Some (Ret a, h).
Definition othrow {A} (e : exn) : Opt A := fun h => Some (Throw e, h).
Definition ofail {A} : Opt A := fun _ => None.
Definition obnd {A B} (c : Opt A) (k : A -> Opt B) : Opt B :=
  fun h => match c h with
           | Some (Ret a, h') => k a h'
           | Some (Throw e, h') => Some (Throw e, h')
           | None => None
           end.

Local Notation "x <- c ;; k" := (obnd c (fun x => k))
  (at level 100, c at next level, right associativity).
Local Notation "c ;;; k" := (obnd c (fun _ => k))
  (at level 100, right associativity).

Definition make_shared (n : node T) : Opt nat :=
  fun h => Some (Ret (length h), (h ++ [n])%list).

Definition deref (p : nat) : Opt (node T) :=
  fun h => match h !! p with
           | Some n => Some (Ret n, h)
           | None => None
           end.

(** [std::dynamic_pointer_cast<ConstantExpression<T>>(p)], with the value
    [p->eval(map)] of the constant when the cast succeeds. *)
Definition constant_cast (p : nat) : Opt (option T) :=
  fun h => match h !! p with
           | Some (ConstantExpression value) => Some (Ret (Some value), h)
           | Some _ => Some (Ret None, h)
           | None => None
           end.

(** Field accesses through a [MonoExpression*] or [BinaryExpression*]. *)
Definition set_expr (mono e' : nat) : Opt unit :=
  fun h => match h !! mono with
           | Some (MonoExpression _ func) =>
               Some (Ret tt, <[mono := MonoExpression e' func]> h)
           | _ => None
           end.

Definition get_left (binary : nat) : Opt nat :=
  fun h => match h !! binary with
           | Some (BinaryExpression l _ _) => Some (Ret l, h)
           | _ => None
           end.

Definition get_right (binary : nat) : Opt nat :=
  fun h => match h !! binary with
           | Some (BinaryExpression _ r _) => Some (Ret r, h)
           | _ => None
           end.

Definition get_op (binary : nat) : Opt Operation :=
  fun h => match h !! binary with
           | Some (BinaryExpression _ _ op) => Some (Ret op, h)
           | _ => None
           end.

Definition set_left (binary l' : nat) : Opt unit :=
  fun h => match h !! binary with
           | Some (BinaryExpression _ r op) =>
               Some (Ret tt, <[binary := BinaryExpression l' r op]> h)
           | _ => None
           end.

Definition set_right (binary r' : nat) : Opt unit :=
  fun h => match h !! binary with
           | Some (BinaryExpression l _ op) =>
               Some (Ret tt, <[binary := BinaryExpression l r' op]> h)
           | _ => None
           end.

Definition set_op (binary : nat) (op' : Operation) : Opt unit :=
  fun h => match h !! binary with
           | Some (BinaryExpression l r _) =>
               Some (Ret tt, <[binary := BinaryExpression l r op']> h)
           | _ => None
           end.

(** [expr->eval(map)] with a fresh, empty [map]; [optimize] calls it on a
    constant or on a binary node over two constants. *)
Definition eval_empty (expr : nat) : Opt T :=
  fun h => match load 2 h expr with
           | Some e =>
               match fst (eval left_first e ∅) with
               | Ret v => Some (Ret v, h)
               | Throw x => Some (Throw x, h)
               end
           | None => None
           end.

Definition is_zero (a : T) : bool := eqb a (of_int 0).
Definition is_one (a : T) : bool := eqb a (of_int 1).

(** The body of [if (binary->op == PLUS || binary->op == MINUS)]: the
    new value of the local [expr]. [left_] and [right_] are the results of
    the two casts made before it. *)
Definition plus_minus (binary : nat) (left_ right_ : option T) (expr : nat)
  : Opt nat :=
  match left_, right_ with
  | Some a, Some b =>
      if is_zero a || is_zero b then
        v <- eval_empty expr ;; make_shared (ConstantExpression v)
      else oret expr
  | Some a, None =>
      if is_zero a then
        op <- get_op binary ;;
        if decide (op = MINUS) then
          set_op binary MULT ;;;
          m <- make_shared (ConstantExpression (of_int (-1))) ;;
          set_left binary m ;;;
          oret expr
        else get_right binary
      else oret expr
  | None, Some b =>
      if is_zero b then get_left binary else oret expr
  | None, None => oret expr
  end.

(** The body of [if (binary->op == MULT || binary->op == DIV)]. *)
Definition mult_div (binary : nat) (left_ right_ : option T) (expr : nat)
  : Opt nat :=
  match left_, right_ with
  | Some a, Some b =>
      expr <- (if is_zero a || is_zero b then
                 op <- get_op binary ;;
                 if decide (op = MULT) then
                   make_shared (ConstantExpression (of_int 0))
                 else if decide (op = DIV) then
                   if is_zero b then othrow division_by_zero
                   else if is_zero a then
                     make_shared (ConstantExpression (of_int 0))
                   else oret expr
                 else oret expr
               else oret expr) ;;
      if is_one a || is_one b then
        v <- eval_empty expr ;; make_shared (ConstantExpression v)
      else oret expr
  | Some a, None =>
      expr <- (if is_one a then
                 op <- get_op binary ;;
                 if decide (op = MULT) then get_right binary else oret expr
               else oret expr) ;;
      if is_zero a then make_shared (ConstantExpression (of_int 0))
      else oret expr
  | None, Some b =>
      expr <- (if is_one b then get_left binary else oret expr) ;;
      if is_zero b then make_shared (ConstantExpression (of_int 0))
      else oret expr
  | None, None => oret expr
  end.

(** What [optimize] does with a binary node once both children have been
    optimized and stored back. *)
Definition rewrite_binary (binary : nat) : Opt nat :=
  l <- get_left binary ;;
  r <- get_right binary ;;
  left_ <- constant_cast l ;;
  right_ <- constant_cast r ;;
  op <- get_op binary ;;
  expr <- (if decide (op = PLUS \/ op = MINUS)
           then plus_minus binary left_ right_ binary
           else oret binary) ;;
  op <- get_op binary ;;
  if decide (op = MULT \/ op = DIV)
  then mult_div binary left_ right_ expr
  else oret expr.

Fixpoint optimize (fuel : nat) (expr : nat) : Opt nat :=
  match fuel with
  | O => ofail
  | S fuel =>
      n <- deref expr ;;
      match n with
      | ConstantExpression _ => oret expr
      | VarExpression _ => oret expr
      | MonoExpression e _ =>
          e' <- optimize fuel e ;;
          set_expr expr e' ;;;
          oret expr
      | BinaryExpression l _ _ =>
          l' <- optimize fuel l ;;
          set_left expr l' ;;;
          r <- get_right expr ;;
          r' <- optimize fuel r ;;
          set_right expr r' ;;;
          rewrite_binary expr
      end
  end.

End Optimize.

(** ** The instantiation at [std::complex<double>]

    A pair of doubles. Sum, difference and [==] are componentwise; product,
    quotient and the functions of [<complex>] are the implementation's. *)

Module Complex.

Definition complex : Type := float * float.

Record cmath := {
  c_mul : complex -> complex -> complex;
  c_div : complex -> complex -> complex;
  c_pow : complex -> complex -> complex;
  c_sin : complex -> complex;
  c_cos : complex -> complex;
  c_log : complex -> complex;
  c_exp : complex -> complex
}.

Definition nonzero (a : float) : bool := negb (PrimFloat.eqb a 0).

(** [ConstantExpression<std::complex<double>>::to_string]. *)
Definition to_string (value : complex) : option string :=
  let real := fst value in
  let imag := snd value in
  if nonzero real && nonzero imag then
    if PrimFloat.leb 0 imag then
      match Double.to_string_optimized real, Double.to_string_optimized imag with
      | Some r, Some i => Some ("(" ++ r ++ " + " ++ i ++ "i)")
      | _, _ => None
      end
    else
      match Double.to_string_optimized real,
            Double.to_string_optimized (PrimFloat.opp imag) with
      | Some r, Some i => Some ("(" ++ r ++ " - " ++ i ++ "i)")
      | _, _ => None
      end
  else if PrimFloat.eqb real 0 && PrimFloat.eqb imag 0 then
    Double.to_string_optimized 0
  else if PrimFloat.eqb real 0 then
    match Double.to_string_optimized imag with
    | Some i => Some (i ++ "i")
    | None => None
    end
  else Double.to_string_optimized real.

Definition numeric (m : cmath) : Numeric complex :=
  {| of_int := fun n => (Double.of_Z n, 0%float);
     add := fun a b => (PrimFloat.add (fst a) (fst b), PrimFloat.add (snd a) (snd b));
     sub := fun a b => (PrimFloat.sub (fst a) (fst b), PrimFloat.sub (snd a) (snd b));
     mul := c_mul m;
     div := c_div m;
     eqb := fun a b => PrimFloat.eqb (fst a) (fst b) && PrimFloat.eqb (snd a) (snd b);
     pow := c_pow m;
     sin := c_sin m;
     cos := c_cos m;
     log := c_log m;
     exp := c_exp m;
     ordered := None;
     show := to_string |}.

End Complex.


(** ** Closed instances

    The theorems below hold for every math library. Where a closed term is
    needed, the code is run with a library that answers NaN to every call,
    on expressions whose result does not depend on any call, and with the
    operands of a binary operator evaluated from left to right. *)

Definition nan_libm : Double.libm :=
  {| Double.c_sin := fun _ => nan;
     Double.c_cos := fun _ => nan;
     Double.c_log := fun _ => nan;
     Double.c_exp := fun _ => nan;
     Double.c_pow := fun _ _ => nan |}.

Definition double : Numeric float := Double.numeric nan_libm.

Definition nan_cmath : Complex.cmath :=
  {| Complex.c_mul := fun _ _ => (nan, nan);
     Complex.c_div := fun _ _ => (nan, nan);
     Complex.c_pow := fun _ _ => (nan, nan);
     Complex.c_sin := fun _ => (nan, nan);
     Complex.c_cos := fun _ => (nan, nan);
     Complex.c_log := fun _ => (nan, nan);
     Complex.c_exp := fun _ => (nan, nan) |}.

Definition complex_double : Numeric Complex.complex := Complex.numeric nan_cmath.

Definition left_to_right : Operation -> bool := fun _ => true.


(** * The vocabulary of the specification

    The predicates and functions in which the properties of the program are
    stated below. *)

(** ** Expressions and tables *)

Section Tables.
Context {T : Type} {N : Numeric T}.

(** [Var n] is a node of [e]. *)
Fixpoint occurs (n : string) (e : expr T) : Prop :=
  match e with
  | Constant _ => False
  | Var value => value = n
  | Mono e _ => occurs n e
  | Binary left_ right_ _ => occurs n left_ \/ occurs n right_
  end.

(** [m'] is [m] with, possibly, zeros inserted at keys that [m] does not
    have and that satisfy [P]. *)
Definition extends (P : string -> Prop) (m m' : gmap string T) : Prop :=
  forall k, m' !! k = m !! k \/
            (m !! k = None /\ m' !! k = Some (of_int 0) /\ P k).

(** The table as [operator[]] reads it: a missing key reads as [T(0)]. *)
Definition read (m : gmap string T) (x : string) : T :=
  match m !! x with
  | Some v => v
  | None => of_int 0
  end.

(** The result of an expression when its variables read as [rho] says:
    what [eval] returns, without the table. *)
Fixpoint value (rho : string -> T) (e : expr T) : outcome T :=
  match e with
  | Constant v => Ret v
  | Var x => Ret (rho x)
  | Mono e func =>
      obind (value rho e) (fun a =>
      Ret (match func with
           | SIN => sin a
           | COS => cos a
           | LN => log a
           | EXP => exp a
           end))
  | Binary left_ right_ op =>
      match op with
      | DIV =>
          obind (value rho right_) (fun d =>
          if eqb d (of_int 0) then Throw division_by_zero
          else obind (value rho left_) (fun a => Ret (div a d)))
      | _ =>
          obind (value rho left_) (fun a =>
          obind (value rho right_) (fun b =>
          Ret (match op with
               | PLUS => add a b
               | MINUS => sub a b
               | MULT => mul a b
               | _ => pow a b
               end)))
      end
  end.

End Tables.

(** The text between the two operands of a binary node. *)
Definition infix (op : Operation) : string :=
  match op with
  | PLUS => " + "
  | MINUS => " - "
  | MULT => " * "
  | DIV => " / "
  | POW => "^"
  end.

(** ** Stores of nodes *)

Section Stores.
Context {T : Type} {N : Numeric T}.
Local Open Scope nat_scope.
Local Open Scope list_scope.

Local Abbreviation store := (list (node T)).
Local Abbreviation Opt := (@Opt T).

(** A computation is [stable] for a relation between stores when every run
    of it relates the store it starts from to the store it leaves. *)
Definition stable (R : store -> store -> Prop) {A} (c : Opt A) : Prop :=
  forall h res h', c h = Some (res, h') -> R h h'.

(** A node before and after: a constant or a variable is unchanged; a unary
    node keeps its function and a binary node stays binary, its operation
    unchanged or turned from [MINUS] into [MULT]. *)
Inductive node_kept : node T -> node T -> Prop :=
| kept_constant value :
    node_kept (ConstantExpression value) (ConstantExpression value)
| kept_var value :
    node_kept (VarExpression value) (VarExpression value)
| kept_mono e e' func :
    node_kept (MonoExpression e func) (MonoExpression e' func)
| kept_binary l r op l' r' op' :
    op' = op \/ (op = MINUS /\ op' = MULT) ->
    node_kept (BinaryExpression l r op) (BinaryExpression l' r' op').

(** From [h] to [h'], every node that exists is kept in that sense, and
    the nodes that are new are constants. *)
Definition keeps (h h' : store) : Prop :=
  (forall a n, h !! a = Some n -> exists n', h' !! a = Some n' /\ node_kept n n') /\
  (forall a n', h !! a = None -> h' !! a = Some n' ->
                exists value, n' = ConstantExpression value).

(** *** The rewrite of a binary node, case by case

    [rewrite_binary] reads the operation of the node and, for each operand,
    whether it is a constant and which. [verdict_of] names what it then
    does, and [run_verdict] does it; [rewrite_binary_verdict] below proves
    that [rewrite_binary] does just that. *)

Inductive verdict :=
| Keep                          (* return the node itself *)
| TakeLeft                      (* return binary->left *)
| TakeRight                     (* return binary->right *)
| Fold (garbage : bool) (value : T)
                                (* return a new constant; [garbage]: a
                                   constant 0 was allocated first and dropped *)
| Negate                        (* turn the node into (-1) * right, then
                                   return a new constant 0 *)
| Raise.                        (* throw "Division by zero" *)

(** What [plus_minus] and [mult_div] decide, from the operation and from the
    constants the two operands are, if they are constants. *)
Definition verdict_of (op : Operation) (left_ right_ : option T) : verdict :=
  match op with
  | PLUS | MINUS =>
      match left_, right_ with
      | Some a, Some b =>
          if is_zero a || is_zero b
          then Fold false (if decide (op = PLUS) then add a b else sub a b)
          else Keep
      | Some a, None =>
          if is_zero a then (if decide (op = MINUS) then Negate else TakeRight)
          else Keep
      | None, Some b => if is_zero b then TakeLeft else Keep
      | None, None => Keep
      end
  | MULT | DIV =>
      match left_, right_ with
      | Some a, Some b =>
          if is_zero a || is_zero b then
            if bool_decide (op = DIV) && is_zero b then Raise
            else Fold (is_one a || is_one b) (of_int 0)
          else if is_one a || is_one b
               then Fold false (if decide (op = MULT) then mul a b else div a b)
               else Keep
      | Some a, None =>
          if is_zero a then Fold false (of_int 0)
          else if is_one a && bool_decide (op = MULT) then TakeRight else Keep
      | None, Some b =>
          if is_zero b then Fold false (of_int 0)
          else if is_one b then TakeLeft else Keep
      | None, None => Keep
      end
  | POW => Keep
  end.

(** The pointer returned and the store left, for the node [p] with the
    operands [l] and [r]. *)
Definition run_verdict (v : verdict) (p l r : nat) (h : store)
  : outcome nat * store :=
  match v with
  | Keep => (Ret p, h)
  | TakeLeft => (Ret l, h)
  | TakeRight => (Ret r, h)
  | Fold false value => (Ret (length h), (h ++ [ConstantExpression value])%list)
  | Fold true value =>
      (Ret (S (length h)),
       (h ++ [ConstantExpression (of_int 0); ConstantExpression value])%list)
  | Negate =>
      (Ret (S (length h)),
       (<[p := BinaryExpression (length h) r MULT]>
          (h ++ [ConstantExpression (of_int (-1))])
        ++ [ConstantExpression (of_int 0)])%list)
  | Raise => (Throw division_by_zero, h)
  end.

(** The constant a pointer holds, if it points to one. *)
Definition constant_at (h : store) (p : nat) : option T :=
  match h !! p with
  | Some (ConstantExpression value) => Some value
  | _ => None
  end.

(** *** Stores without cycles

    [c] is a field of the node [n]. *)
Definition child (n : node T) (c : nat) : Prop :=
  match n with
  | ConstantExpression _ => False
  | VarExpression _ => False
  | MonoExpression e _ => c = e
  | BinaryExpression l r _ => c = l \/ c = r
  end.

(** A store is well formed for a rank [rk] when every pointer held by a
    node is an address of the store, of a smaller rank than the node's, and
    the addresses not yet in use have rank 0. A store built with the
    constructors of the four classes, which take pointers to nodes that
    exist already, has such a rank: the height of each node. *)
Definition wf (rk : nat -> nat) (h : store) : Prop :=
  (forall p n c, h !! p = Some n -> child n c -> c < length h /\ rk c < rk p) /\
  (forall a, length h <= a -> rk a = 0).

(** A store is acyclic when it is well formed for some rank. *)
Definition acyclic (h : store) : Prop := exists rk, wf rk h.

(** *** The runs of [optimize]

    [opt_run p h res h']: called on [p] in the store [h], [optimize] ends
    with [res] and leaves the store [h']. The rules follow the call tree;
    they apply when the recursive calls leave the fields of the node being
    visited alone, which is the case in a store without cycles
    ([optimize_runs] below). *)
Inductive opt_run : nat -> store -> outcome nat -> store -> Prop :=
| run_constant p (h : store) value :
    h !! p = Some (ConstantExpression value) ->
    opt_run p h (Ret p) h
| run_var p (h : store) value :
    h !! p = Some (VarExpression value) ->
    opt_run p h (Ret p) h
| run_mono_throw p (h : store) e func x h1 :
    h !! p = Some (MonoExpression e func) ->
    opt_run e h (Throw x) h1 ->
    opt_run p h (Throw x) h1
| run_mono p (h : store) e func e' (h1 : store) :
    h !! p = Some (MonoExpression e func) ->
    opt_run e h (Ret e') h1 ->
    h1 !! p = Some (MonoExpression e func) ->
    opt_run p h (Ret p) (<[p := MonoExpression e' func]> h1)
| run_left_throw p (h : store) l r op x h1 :
    h !! p = Some (BinaryExpression l r op) ->
    opt_run l h (Throw x) h1 ->
    opt_run p h (Throw x) h1
| run_right_throw p (h : store) l r op l' (h1 : store) x h2 :
    h !! p = Some (BinaryExpression l r op) ->
    opt_run l h (Ret l') h1 ->
    h1 !! p = Some (BinaryExpression l r op) ->
    opt_run r (<[p := BinaryExpression l' r op]> h1) (Throw x) h2 ->
    opt_run p h (Throw x) h2
| run_binary p (h : store) l r op l' (h1 : store) r' (h2 : store) res h' :
    h !! p = Some (BinaryExpression l r op) ->
    opt_run l h (Ret l') h1 ->
    h1 !! p = Some (BinaryExpression l r op) ->
    opt_run r (<[p := BinaryExpression l' r op]> h1) (Ret r') h2 ->
    h2 !! p = Some (BinaryExpression l' r op) ->
    l' < length h2 -> r' < length h2 ->
    run_verdict
      (verdict_of op
         (constant_at (<[p := BinaryExpression l' r' op]> h2) l')
         (constant_at (<[p := BinaryExpression l' r' op]> h2) r'))
      p l' r' (<[p := BinaryExpression l' r' op]> h2) = (res, h') ->
    opt_run p h res h'.

(** What a run keeps of a well-formed store: the store stays well formed
    and does not shrink, the nodes of a rank above that of [p] are not
    touched, and the pointer returned is an address of at most the rank of
    [p]. *)
Definition run_post (rk : nat -> nat) (p : nat) (h : store)
    (res : outcome nat) (h' : store) : Prop :=
  wf rk h' /\ length h <= length h' /\
  (forall a, rk p < rk a -> h' !! a = h !! a) /\
  (forall q, res = Ret q -> q < length h' /\ rk q <= rk p).

(** A pointer is settled when [optimize] has nothing left to do below it:
    no binary node reachable from it would be rewritten. *)
Inductive settled (h : store) : nat -> Prop :=
| settled_constant p value :
    h !! p = Some (ConstantExpression value) -> settled h p
| settled_var p value :
    h !! p = Some (VarExpression value) -> settled h p
| settled_mono p e func :
    h !! p = Some (MonoExpression e func) -> settled h e -> settled h p
| settled_binary p l r op :
    h !! p = Some (BinaryExpression l r op) ->
    settled h l -> settled h r ->
    verdict_of op (constant_at h l) (constant_at h r) = Keep ->
    settled h p.

(** *** Reachable nodes

    [a] is reachable from [p] through the fields of the nodes of [h]. *)
Inductive reach (h : store) : nat -> nat -> Prop :=
| reach_refl p : reach h p p
| reach_step p n c a :
    h !! p = Some n -> child n c -> reach h c a -> reach h p a.

(** The fields of the nodes of [h'] point to nodes that were reachable in
    [h] from the node that holds them, or to nodes that [h] does not have. *)
Definition shortcuts (h h' : store) : Prop :=
  forall y n c, h' !! y = Some n -> child n c -> c < length h -> reach h y c.

(** What a run touches: it shortcuts fields, returns a node that was
    reachable from the one given (or a new one), and leaves alone every
    node that was not reachable from the one given. *)
Definition touch_post (p : nat) (h : store) (res : outcome nat) (h' : store)
  : Prop :=
  shortcuts h h' /\
  (forall q, res = Ret q -> q < length h -> reach h p q) /\
  (forall a, a < length h -> ~ reach h p a -> h' !! a = h !! a).

(** *** The expression a pointer stands for

    [denotes h p e]: read from the store [h], the pointer [p] is the
    expression [e]. *)
Inductive denotes (h : store) : nat -> expr T -> Prop :=
| denotes_constant p value :
    h !! p = Some (ConstantExpression value) -> denotes h p (Constant value)
| denotes_var p value :
    h !! p = Some (VarExpression value) -> denotes h p (Var value)
| denotes_mono p e func e' :
    h !! p = Some (MonoExpression e func) -> denotes h e e' ->
    denotes h p (Mono e' func)
| denotes_binary p l r op l' r' :
    h !! p = Some (BinaryExpression l r op) ->
    denotes h l l' -> denotes h r r' ->
    denotes h p (Binary l' r' op).

End Stores.

(** ** Closed stores

    The stores on which the theorems are run. *)

(** [2 + 3], with the constants at addresses 0 and 1 and the sum at 2. *)
Definition two_plus_three : list (node float) :=
  [ConstantExpression 2%float; ConstantExpression 3%float;
   BinaryExpression 0 1 PLUS].

(** [0 + 3]: here the sum is folded. *)
Definition zero_plus_three : list (node float) :=
  [ConstantExpression 0%float; ConstantExpression 3%float;
   BinaryExpression 0 1 PLUS].

(** [sin(x + 0)] at address 3, and [cos] of the same node at address 4. *)
Definition sin_x_plus_zero : list (node float) :=
  [VarExpression "x"; ConstantExpression 0%float; BinaryExpression 0 1 PLUS;
   MonoExpression 2 SIN; MonoExpression 3 COS].

(** The same store with [sin] pointing to [x]. *)
Definition sin_x_plus_zero_after : list (node float) :=
  [VarExpression "x"; ConstantExpression 0%float; BinaryExpression 0 1 PLUS;
   MonoExpression 0 SIN; MonoExpression 3 COS].


(** [0 - x], with the constant at address 0 and the variable at 1. At
    [x = 1] the expression evaluates to -1, and what [optimize] returns
    evaluates to 0. *)
Definition zero_minus_x : list (node float) :=
  [ConstantExpression 0%float; VarExpression "x"; BinaryExpression 0 1 MINUS].

(** [x * 0] over [double]: with [x] infinite the product is a NaN, while
    [optimize] returns the constant 0. *)
Definition x_times_zero : list (node float) :=
  [VarExpression "x"; ConstantExpression 0%float; BinaryExpression 0 1 MULT].

(** The rank that gives the addresses of a store the numbers of a list,
    and 0 to every other address. *)
Definition rank_of (ranks : list nat) (a : nat) : nat := nth a ranks 0%nat.


(** ** Shapes of an expression *)

Section Shapes.
Context {T : Type} {N : Numeric T}.

(** The expression has a [DIV] node. *)
Fixpoint has_div (e : expr T) : bool :=
  match e with
  | Constant _ => false
  | Var _ => false
  | Mono e _ => has_div e
  | Binary left_ right_ op =>
      match op with
      | DIV => true
      | _ => has_div left_ || has_div right_
      end
  end.

(** The expression has a [POW] node. *)
Fixpoint has_pow (e : expr T) : bool :=
  match e with
  | Constant _ => false
  | Var _ => false
  | Mono e _ => has_pow e
  | Binary left_ right_ op =>
      match op with
      | POW => true
      | _ => has_pow left_ || has_pow right_
      end
  end.

(** The number of nodes of the expression. *)
Fixpoint size (e : expr T) : nat :=
  match e with
  | Constant _ => 1%nat
  | Var _ => 1%nat
  | Mono e _ => S (size e)
  | Binary left_ right_ _ => S (size left_ + size right_)
  end.

(** The expression is a constant that [==] equates with [T(0)], with
    [T(1)]. *)
Definition zero_constant (e : expr T) : bool :=
  match e with
  | Constant value => is_zero value
  | _ => false
  end.

Definition one_constant (e : expr T) : bool :=
  match e with
  | Constant value => is_one value
  | _ => false
  end.

(** No binary node of the expression has an operand that [optimize]
    removes: no zero constant under [+], [-], [*] and [/]; no one constant
    under [*] and to the right of [/]; and no [1 / c] with [c] a
    constant. *)
Fixpoint normal (e : expr T) : Prop :=
  match e with
  | Constant _ => True
  | Var _ => True
  | Mono e _ => normal e
  | Binary left_ right_ op =>
      normal left_ /\ normal right_ /\
      match op with
      | PLUS | MINUS =>
          zero_constant left_ = false /\ zero_constant right_ = false
      | MULT =>
          zero_constant left_ = false /\ zero_constant right_ = false /\
          one_constant left_ = false /\ one_constant right_ = false
      | DIV =>
          zero_constant left_ = false /\ zero_constant right_ = false /\
          one_constant right_ = false /\
          (one_constant left_ = true -> is_constant right_ = None)
      | POW => True
      end
  end.

End Shapes.

(** ** [optimize] on trees *)

Section Simplify.
Context {T : Type} {N : Numeric T}.








End Simplify.

(** ** Relations between stores *)

Section Relations.
Context {T : Type}.
Local Open Scope nat_scope.
Local Open Scope list_scope.

(** Every pointer denotes in [h'] an expression that [R] relates to the
    one it denotes in [h]. *)
Definition refines_by (R : expr T -> expr T -> Prop) (h h' : list (node T))
  : Prop :=
  forall a e, denotes h a e -> exists e', denotes h' a e' /\ R e e'.

(** In [h], what the pointer [c] denotes is related by [R] to what [c']
    denotes. *)
Definition pointer_by (R : expr T -> expr T -> Prop) (h : list (node T))
    (c c' : nat) : Prop :=
  forall e, denotes h c e -> exists e', denotes h c' e' /\ R e e'.

End Relations.

(** ** More closed stores *)

(** [2 * 1], folded to the constant 2. *)
Definition two_times_one : list (node float) :=
  [ConstantExpression 2%float; ConstantExpression 1%float;
   BinaryExpression 0 1 MULT].

(** [1 / 0] over two constants. *)
Definition one_over_zero : list (node float) :=
  [ConstantExpression 1%float; ConstantExpression 0%float;
   BinaryExpression 0 1 DIV].

(** [(x + 0) * 2], with the sum at address 2 and the product at 4. *)
Definition x_plus_zero_times_two : list (node float) :=
  [VarExpression "x"; ConstantExpression 0%float; BinaryExpression 0 1 PLUS;
   ConstantExpression 2%float; BinaryExpression 2 3 MULT].

(** The same store with the product over [x] and 2. *)
Definition x_times_two : list (node float) :=
  [VarExpression "x"; ConstantExpression 0%float; BinaryExpression 0 1 PLUS;
   ConstantExpression 2%float; BinaryExpression 0 3 MULT].


(** * Properties of [eval] *)

Section EvalFacts.
Context {T : Type} {N : Numeric T}.
Variable left_first : Operation -> bool.

Lemma extends_refl P m : extends P m m.
Proof. intros k. by left. Qed.

Lemma extends_trans P m1 m2 m3 :
  extends P m1 m2 -> extends P m2 m3 -> extends P m1 m3.
Proof.
  intros H12 H23 k.
  destruct (H12 k) as [E|(E1 & E2 & E3)], (H23 k) as [F|(F1 & F2 & F3)].
  - left. congruence.
  - right. repeat split; congruence.
  - right. repeat split; congruence.
  - congruence.
Qed.

Lemma extends_mono (P Q : string -> Prop) m m' :
  (forall k, P k -> Q k) -> extends P m m' -> extends Q m m'.
Proof. intros HPQ H k. destruct (H k) as [E|(E1 & E2 & E3)]; auto. Qed.

Lemma extends_lookup P m m' k v :
  extends P m m' -> m !! k = Some v -> m' !! k = Some v.
Proof. intros H Hk. destruct (H k) as [E|[E _]]; congruence. Qed.

Lemma extends_is_Some P m m' k :
  extends P m m' -> is_Some (m !! k) -> is_Some (m' !! k).
Proof. intros H [v Hv]. exists v. eauto using extends_lookup. Qed.

Lemma subscript_extends value m :
  extends (fun k => value = k) m (subscript value m).2.
Proof.
  unfold subscript. destruct (m !! value) eqn:E; simpl.
  - apply extends_refl.
  - intros k. destruct (decide (value = k)) as [->|Hne].
    + right. by rewrite lookup_insert_eq.
    + left. by rewrite lookup_insert_ne.
Qed.

Lemma bind_extends {A B} P (c : Eval A) (k : A -> Eval B) m :
  extends P m (c m).2 ->
  (forall a m1, extends P m1 (k a m1).2) ->
  extends P m (bind c k m).2.
Proof.
  intros Hc Hk. unfold bind. destruct (c m) as [[a|x] m1]; simpl in *.
  - eapply extends_trans; [exact Hc | apply Hk].
  - exact Hc.
Qed.

Lemma ret_extends {A} P (a : A) m : extends P m (ret a m).2.
Proof. apply extends_refl. Qed.

Lemma operands_extends P lf (l r : Eval T) m :
  (forall m1, extends P m1 (l m1).2) ->
  (forall m1, extends P m1 (r m1).2) ->
  extends P m (operands lf l r m).2.
Proof.
  intros Hl Hr. unfold operands. destruct lf;
    repeat (apply bind_extends; [auto | intros; auto using ret_extends]).
Qed.

Lemma eval_extends e :
  forall m, extends (fun k => occurs k e) m (eval left_first e m).2.
Proof.
  induction e as [value|value|e IH func|l IHl r IHr op]; intros m; simpl.
  - apply extends_refl.
  - apply subscript_extends.
  - apply bind_extends; [apply IH|]. intros a m1. destruct func; apply ret_extends.
  - assert (Hl : forall m1, extends (fun k => occurs k l \/ occurs k r) m1
                             (eval left_first l m1).2)
      by (intros m1; eapply extends_mono; [|apply IHl]; simpl; auto).
    assert (Hr : forall m1, extends (fun k => occurs k l \/ occurs k r) m1
                             (eval left_first r m1).2)
      by (intros m1; eapply extends_mono; [|apply IHr]; simpl; auto).
    destruct op.
    4: { apply bind_extends; [apply Hr|]. intros d m1.
         destruct (eqb d (of_int 0)); [apply extends_refl|].
         apply bind_extends;
           [ apply operands_extends; auto | intros; apply ret_extends ]. }
    all: apply bind_extends;
      [ apply operands_extends; auto | intros; apply ret_extends ].
Qed.

Lemma eval_extends' e m res m' :
  eval left_first e m = (res, m') -> extends (fun k => occurs k e) m m'.
Proof. intros H. pose proof (eval_extends e m) as E. by rewrite H in E. Qed.

(** A successful evaluation has looked every variable of the expression
    up, so each of them is a key of the table afterwards. *)
Lemma bind_Ret {A B} (c : Eval A) (k : A -> Eval B) (m : gmap string T) b m' :
  bind c k m = (Ret b, m') ->
  exists a m1, c m = (Ret a, m1) /\ k a m1 = (Ret b, m').
Proof.
  unfold bind. destruct (c m) as [[a|x] m1]; [eauto | discriminate].
Qed.

Lemma operands_Ret lf (l r : Eval T) (m : gmap string T) ab m' :
  operands lf l r m = (Ret ab, m') ->
  (exists m1, l m = (Ret ab.1, m1) /\ r m1 = (Ret ab.2, m')) \/
  (exists m1, r m = (Ret ab.2, m1) /\ l m1 = (Ret ab.1, m')).
Proof.
  unfold operands. destruct lf; intros H.
  - left. apply bind_Ret in H as (a & m1 & Hl & H).
    apply bind_Ret in H as (b & m2 & Hr & H). inversion H; subst. eauto.
  - right. apply bind_Ret in H as (b & m1 & Hr & H).
    apply bind_Ret in H as (a & m2 & Hl & H). inversion H; subst. eauto.
Qed.

Lemma operands_keys lf (l r : expr T) m ab m' n :
  operands lf (eval left_first l) (eval left_first r) m = (Ret ab, m') ->
  (forall m v m', eval left_first l m = (Ret v, m') -> occurs n l -> is_Some (m' !! n)) ->
  (forall m v m', eval left_first r m = (Ret v, m') -> occurs n r -> is_Some (m' !! n)) ->
  occurs n l \/ occurs n r -> is_Some (m' !! n).
Proof.
  intros H IHl IHr Hn.
  apply operands_Ret in H as [(m1 & Hl & Hr)|(m1 & Hr & Hl)]; destruct Hn as [Hn|Hn].
  - eapply extends_is_Some; [eapply eval_extends'; exact Hr | eauto].
  - eauto.
  - eauto.
  - eapply extends_is_Some; [eapply eval_extends'; exact Hl | eauto].
Qed.

Lemma eval_keys e : forall m v m' n,
  eval left_first e m = (Ret v, m') -> occurs n e -> is_Some (m' !! n).
Proof.
  induction e as [value|value|e IH func|l IHl r IHr op]; intros m v m' n H Hn; simpl in *.
  - done.
  - subst value. unfold subscript in H. destruct (m !! n) eqn:E.
    + inversion H; subst. by rewrite E.
    + inversion H; subst. rewrite lookup_insert_eq. eauto.
  - apply bind_Ret in H as (a & m1 & He & H).
    assert (m' = m1) as -> by (destruct func; inversion H; done). eauto.
  - destruct op.
    4: { apply bind_Ret in H as (d & m1 & Hd & H).
         destruct (eqb d (of_int 0)); [discriminate|].
         apply bind_Ret in H as (ab & m2 & Hab & H). inversion H; subst.
         eauto using operands_keys. }
    all: apply bind_Ret in H as (ab & m1 & Hab & H); inversion H; subst;
      eauto using operands_keys.
Qed.

(** C3. When the right operand of a division evaluates to a value equal to
    [T(0)], evaluating the division throws "Division by zero"; the test
    comes before the left operand is evaluated, so the table is left as the
    evaluation of the right operand left it, whatever the left operand is. *)
Theorem eval_div_throws_on_zero (l r : expr T) m d m1 :
  eval left_first r m = (Ret d, m1) ->
  eqb d (of_int 0) = true ->
  eval left_first (Binary l r DIV) m = (Throw division_by_zero, m1).
Proof.
  intros Hr Hd. simpl. unfold bind. rewrite Hr, Hd. reflexivity.
Qed.

(** C4. Evaluating a variable that is not a key of the table returns
    [T(0)] (and inserts the key); it does not throw. *)
Theorem eval_unbound_variable (n : string) (m : gmap string T) :
  m !! n = None ->
  eval left_first (Var n) m = (Ret (of_int 0), <[n := of_int 0]> m).
Proof.
  intros Hn. simpl. unfold subscript. by rewrite Hn.
Qed.

(** C10, as the code has it. Evaluation never changes an entry the table
    already has; every entry it adds maps a variable of the expression to
    [T(0)]; and when evaluation returns a value (no exception), every
    variable of the expression that was missing from the table is in it
    afterwards, mapped to [T(0)]. *)
Theorem eval_table_effect (e : expr T) m res m' :
  eval left_first e m = (res, m') ->
  (forall k v, m !! k = Some v -> m' !! k = Some v) /\
  (forall k v, m !! k = None -> m' !! k = Some v -> v = of_int 0 /\ occurs k e) /\
  (forall v n, res = Ret v -> occurs n e -> m !! n = None ->
               m' !! n = Some (of_int 0)).
Proof.
  intros H. pose proof (eval_extends' _ _ _ _ H) as Hext. repeat split.
  - intros k v Hk. eauto using extends_lookup.
  - destruct (Hext k) as [E|(_ & E & _)]; congruence.
  - destruct (Hext k) as [E|(_ & _ & E)]; [congruence | done].
  - intros v n -> Hn Hm. destruct (eval_keys _ _ _ _ n H Hn) as [w Hw].
    destruct (Hext n) as [E|(_ & E & _)]; congruence.
Qed.

End EvalFacts.

(** * Properties of [diff] and [to_string] *)

Section DiffFacts.
Context {T : Type} {N : Numeric T}.

(** The only exception [diff] throws is "Unknown operation". *)
Lemma diff_throws str (e : expr T) : forall x,
  diff str e = Throw x -> x = unknown_operation.
Proof.
  induction e as [value|value|e IH func|l IHl r IHr op]; intros x H; simpl in H.
  - discriminate.
  - destruct (String.eqb str value); discriminate.
  - destruct (diff str e) as [d|y]; simpl in H.
    + destruct func; discriminate.
    + inversion H; subst. auto.
  - destruct (diff str l) as [dl|y]; simpl in H; [|inversion H; subst; auto].
    destruct (diff str r) as [dr|y]; simpl in H; [|inversion H; subst; auto].
    destruct op; try discriminate.
    destruct ordered as [R|]; [|by inversion H].
    destruct (is_constant r) as [c|].
    + destruct (gtb R c (of_int 1)); [discriminate|].
      destruct (eqb c (of_int 1)); discriminate.
    + destruct (is_constant l); discriminate.
Qed.

(** Over [double], [diff] returns a tree for every expression. *)
Lemma diff_returns R str (e : expr T) :
  ordered = Some R -> exists d, diff str e = Ret d.
Proof.
  intros HR.
  induction e as [value|value|e [d IH] func|l [dl IHl] r [dr IHr] op]; simpl.
  - eauto.
  - destruct (String.eqb str value); eauto.
  - rewrite IH. simpl. destruct func; eauto.
  - rewrite IHl, IHr. simpl. destruct op; eauto.
    rewrite HR. destruct (is_constant r) as [c|].
    + destruct (gtb R c (of_int 1)); [eauto|].
      destruct (eqb c (of_int 1)); eauto.
    + destruct (is_constant l); eauto.
Qed.

(** C5. Over [std::complex<double>] (the instantiation without [>] and
    [abs]), differentiating a power throws: the [POW] case compiles to
    nothing and control reaches the [default] label's
    [std::runtime_error("Unknown operation")]. No tree is returned. *)
Theorem diff_pow_complex_throws str (l r : expr T) :
  ordered = None ->
  diff str (Binary l r POW) = Throw unknown_operation.
Proof.
  intros HC. simpl.
  destruct (diff str l) as [dl|x] eqn:El; simpl.
  - destruct (diff str r) as [dr|y] eqn:Er; simpl.
    + by rewrite HC.
    + by rewrite (diff_throws _ _ _ Er).
  - by rewrite (diff_throws _ _ _ El).
Qed.

(** C6. Over [double], the derivative of [l ^ Constant c] exists and is
    - [c * (l^(c-1) * diff l)] when [c > 1],
    - [Constant 1] when [c == 1],
    - [(c * diff l) / l^(|c| + 1)] otherwise. *)
Theorem diff_pow_constant R str (l : expr T) (c : T) :
  ordered = Some R ->
  exists left_diff,
    diff str l = Ret left_diff /\
    diff str (Binary l (Constant c) POW) =
      Ret (if gtb R c (of_int 1) then
             Binary (Constant c)
               (Binary (Binary l (Constant (sub c (of_int 1))) POW)
                       left_diff MULT) MULT
           else if eqb c (of_int 1) then Constant (of_int 1)
           else
             Binary (Binary (Constant c) left_diff MULT)
               (Binary l (Constant (add (abs R c) (of_int 1))) POW) DIV).
Proof.
  intros HR. destruct (diff_returns R str l HR) as [d Hd].
  exists d. split; [exact Hd|].
  simpl. rewrite Hd. simpl. rewrite HR.
  destruct (gtb R c (of_int 1)); [reflexivity|].
  destruct (eqb c (of_int 1)); reflexivity.
Qed.

Lemma to_string_binary (l r : expr T) (op : Operation) :
  to_string (Binary l r op) =
    match to_string l, to_string r with
    | Some a, Some b => Some ("(" ++ a ++ infix op ++ b ++ ")")
    | _, _ => None
    end.
Proof.
  simpl. destruct (to_string l), (to_string r), op; reflexivity.
Qed.

End DiffFacts.

(** C7, as the code has it. A binary node renders as
    ["(" + left + infix + right + ")"], where the infix is the operator's
    symbol with one space on each side for [+ - * /] and the bare ["^"],
    without spaces, for [POW]; in particular [x + 2] renders as ["(x + 2)"]. *)
Theorem to_string_binary_infix :
  (forall (T : Type) (N : Numeric T) (l r : expr T) (op : Operation),
     to_string (Binary l r op) =
       match to_string l, to_string r with
       | Some a, Some b => Some ("(" ++ a ++ infix op ++ b ++ ")")
       | _, _ => None
       end) /\
  (infix PLUS = " + " /\ infix MINUS = " - " /\ infix MULT = " * " /\
   infix DIV = " / " /\ infix POW = "^") /\
  (forall m : Double.libm,
     to_string (N := Double.numeric m) (Binary (Var "x") (Constant 2%float) PLUS)
     = Some "(x + 2)").
Proof.
  split; [|split].
  - intros. apply to_string_binary.
  - repeat split.
  - intros m. reflexivity.
Qed.

(** C7 fails for [POW]: [x ^ 2] renders as ["(x^2)"], not ["(x ^ 2)"]. *)
Lemma to_string_pow_has_no_spaces :
  to_string (N := double) (Var "x") = Some "x" /\
  to_string (N := double) (Constant 2%float) = Some "2" /\
  to_string (N := double) (Binary (Var "x") (Constant 2%float) POW) = Some "(x^2)" /\
  "(x^2)" <> "(" ++ "x" ++ " " ++ "^" ++ " " ++ "2" ++ ")".
Proof. repeat split; try reflexivity. discriminate. Qed.

Lemma eval_div_throws_on_zero_witness :
  eval (N := double) left_to_right (Constant 0%float) {[ "x" := 1%float ]}
    = (Ret 0%float, {[ "x" := 1%float ]}) /\
  eqb (Numeric := double) 0%float (of_int (Numeric := double) 0) = true /\
  eval (N := double) left_to_right
       (Binary (Var "x") (Constant 0%float) DIV) {[ "x" := 1%float ]}
    = (Throw division_by_zero, {[ "x" := 1%float ]}).
Proof.
  split; [reflexivity | split; [reflexivity |]].
  apply (eval_div_throws_on_zero (N := double) left_to_right
           (Var "x") (Constant 0%float) {[ "x" := 1%float ]} 0%float);
    reflexivity.
Defined.

Lemma eval_unbound_variable_witness :
  ({[ "x" := 1%float ]} : gmap string float) !! "y" = None /\
  eval (N := double) left_to_right (Var "y") {[ "x" := 1%float ]}
    = (Ret 0%float, <[ "y" := 0%float ]> {[ "x" := 1%float ]}).
Proof.
  split; [reflexivity |].
  apply (eval_unbound_variable (N := double) left_to_right "y" {[ "x" := 1%float ]}).
  reflexivity.
Defined.

(** C10 fails when evaluation throws before it reaches the variable:
    [n / 0] contains [Var "n"], yet the division throws after evaluating
    its right operand only and the table is still empty. *)
Lemma eval_throw_skips_variable :
  occurs "n" (Binary (Var "n") (Constant 0%float) DIV) /\
  (∅ : gmap string float) !! "n" = None /\
  eval (N := double) left_to_right (Binary (Var "n") (Constant 0%float) DIV) ∅
    = (Throw division_by_zero, ∅).
Proof. split; [by left | split; reflexivity]. Qed.

Lemma eval_table_effect_witness :
  eval (N := double) left_to_right
       (Binary (Var "x") (Var "y") PLUS) {[ "x" := 1%float ]}
    = (Ret 1%float, <[ "y" := 0%float ]> {[ "x" := 1%float ]}) /\
  (<[ "y" := 0%float ]> {[ "x" := 1%float ]} : gmap string float) !! "x"
    = Some 1%float /\
  (<[ "y" := 0%float ]> {[ "x" := 1%float ]} : gmap string float) !! "y"
    = Some 0%float.
Proof.
  assert (E : eval (N := double) left_to_right
                (Binary (Var "x") (Var "y") PLUS) {[ "x" := 1%float ]}
              = (Ret 1%float, <[ "y" := 0%float ]> {[ "x" := 1%float ]}))
    by reflexivity.
  destruct (eval_table_effect (N := double) left_to_right _ _ _ _ E)
    as (Hkeep & _ & Hnew).
  split; [exact E | split].
  - apply Hkeep. reflexivity.
  - apply (Hnew 1%float "y"); [reflexivity | by right | reflexivity].
Defined.

Lemma diff_pow_complex_throws_witness :
  ordered (Numeric := complex_double) = None /\
  diff (N := complex_double) "x"
       (Binary (Var "x") (Constant (2%float, 0%float)) POW)
    = Throw unknown_operation.
Proof.
  split; [reflexivity |].
  apply (diff_pow_complex_throws (N := complex_double)). reflexivity.
Defined.

Lemma diff_pow_constant_witness :
  ordered (Numeric := double) = Some Double.order /\
  exists left_diff,
    diff (N := double) "x" (Var "x") = Ret left_diff /\
    diff (N := double) "x" (Binary (Var "x") (Constant 3%float) POW)
    = Ret (Binary (Constant 3%float)
             (Binary (Binary (Var "x") (Constant 2%float) POW) left_diff MULT)
             MULT).
Proof.
  split; [reflexivity |].
  exact (diff_pow_constant (N := double) Double.order "x" (Var "x") 3%float
           eq_refl).
Defined.

(** * Properties of [optimize] *)

Section OptimizeFacts.
Context {T : Type} {N : Numeric T}.
Variable left_first : Operation -> bool.
Local Open Scope nat_scope.
Local Open Scope list_scope.

Local Abbreviation store := (list (node T)).
Local Abbreviation Opt := (@Opt T).

Lemma obnd_inv {A B} (c : Opt A) (k : A -> Opt B) (h : store) res h' :
  obnd c k h = Some (res, h') ->
  (exists a h1, c h = Some (Ret a, h1) /\ k a h1 = Some (res, h')) \/
  (exists x, c h = Some (Throw x, h') /\ res = Throw x).
Proof.
  unfold obnd. destruct (c h) as [[[a|x] h1]|]; [eauto | | discriminate].
  intros H. inversion H; subst. eauto.
Qed.

Section Stable.
Variable R : store -> store -> Prop.
Hypothesis R_refl : forall h, R h h.
Hypothesis R_trans : forall h1 h2 h3, R h1 h2 -> R h2 h3 -> R h1 h3.

Lemma stable_obnd {A B} (c : Opt A) (k : A -> Opt B) :
  stable R c -> (forall a, stable R (k a)) -> stable R (obnd c k).
Proof.
  intros Hc Hk h res h' H.
  apply obnd_inv in H as [(a & h1 & H1 & H2)|(x & H1 & _)].
  - eapply R_trans; [eapply Hc | eapply Hk]; eassumption.
  - eapply Hc; eassumption.
Qed.

Lemma stable_oret {A} (a : A) : stable R (oret a).
Proof. intros h res h' H. inversion H; subst. auto. Qed.

Lemma stable_othrow {A} x : stable R (othrow (A := A) x).
Proof. intros h res h' H. inversion H; subst. auto. Qed.

Lemma stable_ofail {A} : stable R (ofail (A := A)).
Proof. intros h res h' H. discriminate. Qed.

Lemma stable_deref p : stable R (deref p).
Proof.
  intros h res h' H. unfold deref in H.
  destruct (h !! p); inversion H; subst; auto.
Qed.

Lemma stable_constant_cast p : stable R (constant_cast p).
Proof.
  intros h res h' H. unfold constant_cast in H.
  destruct (h !! p) as [[]|]; inversion H; subst; auto.
Qed.

Lemma stable_get_left p : stable R (get_left p).
Proof.
  intros h res h' H. unfold get_left in H.
  destruct (h !! p) as [[]|]; inversion H; subst; auto.
Qed.

Lemma stable_get_right p : stable R (get_right p).
Proof.
  intros h res h' H. unfold get_right in H.
  destruct (h !! p) as [[]|]; inversion H; subst; auto.
Qed.

Lemma stable_get_op p : stable R (get_op p).
Proof.
  intros h res h' H. unfold get_op in H.
  destruct (h !! p) as [[]|]; inversion H; subst; auto.
Qed.

Lemma stable_eval_empty p : stable R (eval_empty left_first p).
Proof.
  intros h res h' H. unfold eval_empty in H.
  destruct (load 2 h p); [|discriminate].
  destruct (eval left_first e ∅).1; inversion H; subst; auto.
Qed.

(** The assignments and allocations [optimize] makes: a relation that
    admits each of them is kept by [optimize] as a whole. *)
Hypothesis R_make_constant :
  forall (h : store) value, R h (h ++ [ConstantExpression value]).
Hypothesis R_set_expr :
  forall (h : store) p e func e',
    h !! p = Some (MonoExpression e func) ->
    R h (<[p := MonoExpression e' func]> h).
Hypothesis R_set_children :
  forall (h : store) p l r op l' r',
    h !! p = Some (BinaryExpression l r op) ->
    R h (<[p := BinaryExpression l' r' op]> h).
Hypothesis R_set_op :
  forall (h : store) p l r,
    h !! p = Some (BinaryExpression l r MINUS) ->
    R h (<[p := BinaryExpression l r MULT]> h).

Lemma stable_make_constant value :
  stable R (make_shared (ConstantExpression value)).
Proof. intros h res h' H. inversion H; subst. apply R_make_constant. Qed.

Lemma stable_set_expr p e' : stable R (set_expr p e').
Proof.
  intros h res h' H. unfold set_expr in H.
  destruct (h !! p) as [[]|] eqn:E; inversion H; subst. eauto.
Qed.

Lemma stable_set_left p l' : stable R (set_left p l').
Proof.
  intros h res h' H. unfold set_left in H.
  destruct (h !! p) as [[]|] eqn:E; inversion H; subst. eauto.
Qed.

Lemma stable_set_right p r' : stable R (set_right p r').
Proof.
  intros h res h' H. unfold set_right in H.
  destruct (h !! p) as [[]|] eqn:E; inversion H; subst. eauto.
Qed.

(** [binary->op = MULT] is executed on a [MINUS] node only. *)
Lemma stable_minus_to_mult {A} binary (k k' : Opt A) :
  stable R k -> stable R k' ->
  stable R (obnd (get_op binary) (fun op =>
              if decide (op = MINUS)
              then obnd (set_op binary MULT) (fun _ => k)
              else k')).
Proof.
  intros Hk Hk' h res h' H.
  apply obnd_inv in H as [(op & h1 & H1 & H2)|(x & H1 & _)].
  - unfold get_op in H1.
    destruct (h !! binary) as [[| | |l r op0]|] eqn:E; inversion H1; subst.
    destruct (decide (op = MINUS)) as [->|]; [|eauto].
    apply obnd_inv in H2 as [(u & h2 & H2 & H3)|(x & H2 & _)].
    + unfold set_op in H2. rewrite E in H2. inversion H2; subst.
      eapply R_trans; [eapply R_set_op; exact E | eauto].
    + unfold set_op in H2. rewrite E in H2. inversion H2.
  - unfold get_op in H1.
    destruct (h !! binary) as [[]|]; inversion H1.
Qed.

Ltac stable_step :=
  first
    [ apply stable_minus_to_mult
    | apply stable_obnd; [|intros ?]
    | apply stable_oret | apply stable_othrow | apply stable_ofail
    | apply stable_deref | apply stable_constant_cast
    | apply stable_get_left | apply stable_get_right | apply stable_get_op
    | apply stable_eval_empty
    | apply stable_make_constant | apply stable_set_expr
    | apply stable_set_left | apply stable_set_right
    | match goal with
      | |- stable _ (if ?b then _ else _) => destruct b
      | |- stable _ (match ?x with _ => _ end) => destruct x
      end ].

Lemma stable_plus_minus binary left_ right_ expr :
  stable R (plus_minus left_first binary left_ right_ expr).
Proof. unfold plus_minus. repeat stable_step. Qed.

Lemma stable_mult_div binary left_ right_ expr :
  stable R (mult_div left_first binary left_ right_ expr).
Proof. unfold mult_div. repeat stable_step. Qed.

Lemma stable_rewrite_binary binary :
  stable R (rewrite_binary left_first binary).
Proof.
  unfold rewrite_binary.
  repeat first [ apply stable_plus_minus | apply stable_mult_div | stable_step ].
Qed.

Lemma stable_optimize fuel : forall expr, stable R (optimize left_first fuel expr).
Proof.
  induction fuel as [|fuel IH]; intros expr; simpl.
  - apply stable_ofail.
  - repeat first [ apply IH | apply stable_rewrite_binary | stable_step ].
Qed.

End Stable.

(** ** What [optimize] does to the nodes that exist *)

Lemma node_kept_refl (n : node T) : node_kept n n.
Proof. destruct n; constructor; auto. Qed.

Lemma node_kept_trans (n1 n2 n3 : node T) :
  node_kept n1 n2 -> node_kept n2 n3 -> node_kept n1 n3.
Proof.
  intros H12 H23.
  destruct H12 as [| | |l r op l' r' op' H]; inversion H23 as [| | |? ? ? ? ? ? H']; subst;
    constructor.
  destruct H as [->|[-> ->]]; destruct H' as [->|[? ->]]; auto; discriminate.
Qed.

Lemma keeps_refl (h : store) : keeps h h.
Proof.
  split; [|congruence]. intros a n Hn. eauto using node_kept_refl.
Qed.

Lemma keeps_trans (h1 h2 h3 : store) : keeps h1 h2 -> keeps h2 h3 -> keeps h1 h3.
Proof.
  intros [H12 N12] [H23 N23]. split.
  - intros a n Hn. destruct (H12 a n Hn) as (n' & Hn' & K).
    destruct (H23 a n' Hn') as (n'' & Hn'' & K'). eauto using node_kept_trans.
  - intros a n'' Ha Hn''. destruct (h2 !! a) as [n'|] eqn:E; [|eauto].
    destruct (N12 a n' Ha E) as [v ->].
    destruct (H23 a _ E) as (n3 & Hn3 & K). inversion K; subst.
    exists v. congruence.
Qed.

Lemma keeps_insert (h : store) p n n' :
  h !! p = Some n -> node_kept n n' -> keeps h (<[p := n']> h).
Proof.
  intros Hp K. split.
  - intros a m Ha. destruct (decide (p = a)) as [->|Hne].
    + exists n'. split; [|congruence].
      apply list_lookup_insert_eq. eauto using lookup_lt_Some.
    + rewrite list_lookup_insert_ne by done. eauto using node_kept_refl.
  - intros a m Ha Hm. destruct (decide (p = a)) as [->|Hne]; [congruence|].
    rewrite list_lookup_insert_ne in Hm by done. congruence.
Qed.

Lemma keeps_make_constant (h : store) value :
  keeps h (h ++ [ConstantExpression value]).
Proof.
  split.
  - intros a n Ha. exists n. split; [|apply node_kept_refl].
    rewrite lookup_app_l; eauto using lookup_lt_Some.
  - intros a n' Ha Hn'. apply lookup_ge_None in Ha.
    rewrite lookup_app_r in Hn' by done.
    destruct (a - length h)%nat as [|k]; simpl in Hn'; [|by destruct k].
    inversion Hn'. eauto.
Qed.

Lemma optimize_keeps fuel expr : stable keeps (optimize left_first fuel expr).
Proof.
  apply stable_optimize.
  - apply keeps_refl.
  - apply keeps_trans.
  - apply keeps_make_constant.
  - intros h p e func e' Hp. eapply keeps_insert; [exact Hp | constructor].
  - intros h p l r op l' r' Hp. eapply keeps_insert; [exact Hp | constructor; auto].
  - intros h p l r Hp. eapply keeps_insert; [exact Hp | constructor; auto].
Qed.

(** ** Two constants under [PLUS] or [MINUS] *)

Lemma optimize_leaf fuel expr (h : store) n :
  h !! expr = Some n ->
  (exists value, n = ConstantExpression value) \/ (exists value, n = VarExpression value) ->
  optimize left_first (S fuel) expr h = Some (Ret expr, h).
Proof.
  intros Hn [[v ->]|[v ->]]; simpl; unfold obnd, deref; by rewrite Hn.
Qed.

Lemma eval_two_constants (a b : T) op m :
  op = PLUS \/ op = MINUS ->
  (eval left_first (Binary (Constant a) (Constant b) op) m).1
  = Ret (if decide (op = PLUS) then add a b else sub a b).
Proof.
  intros [->| ->]; simpl; unfold bind, operands;
    destruct (left_first _); reflexivity.
Qed.

(** C2, as the code has it. For a [PLUS] or [MINUS] node over two
    constants [a] and [b], [optimize] allocates the single constant [a + b]
    (respectively [a - b]), computed by [eval], only when [a == 0] or
    [b == 0]; otherwise it returns the node itself and the store is as it
    was. *)
Theorem optimize_plus_minus_constants fuel expr (h : store) l r op a b :
  h !! expr = Some (BinaryExpression l r op) ->
  op = PLUS \/ op = MINUS ->
  h !! l = Some (ConstantExpression a) ->
  h !! r = Some (ConstantExpression b) ->
  optimize left_first (S (S fuel)) expr h =
    if is_zero a || is_zero b
    then Some (Ret (length h),
               (h ++ [ConstantExpression
                        (if decide (op = PLUS) then add a b else sub a b)])%list)
    else Some (Ret expr, h).
Proof.
  intros Hp Hop Hl Hr.
  assert (Hid : <[expr := BinaryExpression l r op]> h = h)
    by (by apply list_insert_id).
  change (optimize left_first (S (S fuel)) expr h) with
    (obnd (deref expr) (fun n =>
       match n with
       | ConstantExpression _ => oret expr
       | VarExpression _ => oret expr
       | MonoExpression e _ =>
           obnd (optimize left_first (S fuel) e) (fun e' =>
           obnd (set_expr expr e') (fun _ => oret expr))
       | BinaryExpression l _ _ =>
           obnd (optimize left_first (S fuel) l) (fun l' =>
           obnd (set_left expr l') (fun _ =>
           obnd (get_right expr) (fun r =>
           obnd (optimize left_first (S fuel) r) (fun r' =>
           obnd (set_right expr r') (fun _ =>
           rewrite_binary left_first expr)))))
       end) h).
  unfold obnd at 1. unfold deref. rewrite Hp.
  unfold obnd at 1. rewrite (optimize_leaf fuel l h _ Hl) by eauto.
  unfold obnd at 1. unfold set_left. rewrite Hp, Hid.
  unfold obnd at 1. unfold get_right. rewrite Hp.
  unfold obnd at 1. rewrite (optimize_leaf fuel r h _ Hr) by eauto.
  unfold obnd at 1. unfold set_right. rewrite Hp, Hid.
  unfold rewrite_binary, obnd, get_left, get_right, get_op, constant_cast.
  repeat (rewrite ?Hp, ?Hl, ?Hr; cbv beta iota).
  destruct (decide (op = PLUS \/ op = MINUS)) as [_|Hn]; [|tauto].
  unfold plus_minus. destruct (is_zero a || is_zero b).
  - unfold eval_empty, make_shared, obnd. simpl load.
    repeat (rewrite ?Hp, ?Hl, ?Hr; cbv beta iota).
    rewrite eval_two_constants by done.
    rewrite lookup_app_l by eauto using lookup_lt_Some. rewrite Hp.
    destruct (decide (op = MULT \/ op = DIV)) as [[->| ->]|_]; [| |done];
      destruct Hop; discriminate.
  - unfold oret. rewrite Hp.
    destruct (decide (op = MULT \/ op = DIV)) as [[->| ->]|_]; [| |done];
      destruct Hop; discriminate.
Qed.

(** ** The rewrite of a binary node, case by case *)

Lemma eval_constant_empty (value : T) m :
  (eval left_first (Constant value) m).1 = Ret value.
Proof. reflexivity. Qed.

Lemma eval_mult_constants (a b : T) m :
  (eval left_first (Binary (Constant a) (Constant b) MULT) m).1 = Ret (mul a b).
Proof. simpl; unfold bind, operands; destruct (left_first _); reflexivity. Qed.

Lemma eval_div_constants (a b : T) m :
  is_zero b = false ->
  (eval left_first (Binary (Constant a) (Constant b) DIV) m).1 = Ret (div a b).
Proof.
  intros Hb. simpl. unfold bind, operands, ret. fold (is_zero b). rewrite Hb.
  destruct (left_first _); reflexivity.
Qed.

(** Running a computation one step at a time. *)
Lemma obnd_ret {A B} (c : Opt A) (k : A -> Opt B) (h : store) a h1 :
  c h = Some (Ret a, h1) -> obnd c k h = k a h1.
Proof. intros H. unfold obnd. by rewrite H. Qed.

Lemma obnd_throw {A B} (c : Opt A) (k : A -> Opt B) (h : store) x h1 :
  c h = Some (Throw x, h1) -> obnd c k h = Some (Throw x, h1).
Proof. intros H. unfold obnd. by rewrite H. Qed.

Lemma deref_eq (h : store) p n :
  h !! p = Some n -> deref p h = Some (Ret n, h).
Proof. intros H. unfold deref. by rewrite H. Qed.

Lemma get_left_eq (h : store) p l r op :
  h !! p = Some (BinaryExpression l r op) -> get_left p h = Some (Ret l, h).
Proof. intros H. unfold get_left. by rewrite H. Qed.

Lemma get_right_eq (h : store) p l r op :
  h !! p = Some (BinaryExpression l r op) -> get_right p h = Some (Ret r, h).
Proof. intros H. unfold get_right. by rewrite H. Qed.

Lemma get_op_eq (h : store) p l r op :
  h !! p = Some (BinaryExpression l r op) -> get_op p h = Some (Ret op, h).
Proof. intros H. unfold get_op. by rewrite H. Qed.

Lemma set_expr_eq (h : store) p e func e' :
  h !! p = Some (MonoExpression e func) ->
  set_expr p e' h = Some (Ret tt, <[p := MonoExpression e' func]> h).
Proof. intros H. unfold set_expr. by rewrite H. Qed.

Lemma set_left_eq (h : store) p l r op l' :
  h !! p = Some (BinaryExpression l r op) ->
  set_left p l' h = Some (Ret tt, <[p := BinaryExpression l' r op]> h).
Proof. intros H. unfold set_left. by rewrite H. Qed.

Lemma set_right_eq (h : store) p l r op r' :
  h !! p = Some (BinaryExpression l r op) ->
  set_right p r' h = Some (Ret tt, <[p := BinaryExpression l r' op]> h).
Proof. intros H. unfold set_right. by rewrite H. Qed.

Lemma set_op_eq (h : store) p l r op op' :
  h !! p = Some (BinaryExpression l r op) ->
  set_op p op' h = Some (Ret tt, <[p := BinaryExpression l r op']> h).
Proof. intros H. unfold set_op. by rewrite H. Qed.

Lemma constant_cast_eq (h : store) p :
  p < length h -> constant_cast p h = Some (Ret (constant_at h p), h).
Proof.
  intros [n Hn]%lookup_lt_is_Some. unfold constant_cast, constant_at.
  rewrite Hn. by destruct n.
Qed.

Lemma constant_at_Some (h : store) p value :
  constant_at h p = Some value <-> h !! p = Some (ConstantExpression value).
Proof.
  unfold constant_at. destruct (h !! p) as [[]|]; split; congruence.
Qed.

Lemma eval_empty_eq (h : store) p e v :
  load 2 h p = Some e -> (eval left_first e ∅).1 = Ret v ->
  eval_empty left_first p h = Some (Ret v, h).
Proof. intros Hl He. unfold eval_empty. by rewrite Hl, He. Qed.

Lemma load_constant fuel (h : store) p value :
  h !! p = Some (ConstantExpression value) ->
  load (S fuel) h p = Some (Constant value).
Proof. intros Hp. simpl. by rewrite Hp. Qed.

Lemma load_two_constants (h : store) p l r op a b :
  h !! p = Some (BinaryExpression l r op) ->
  h !! l = Some (ConstantExpression a) ->
  h !! r = Some (ConstantExpression b) ->
  load 2 h p = Some (Binary (Constant a) (Constant b) op).
Proof. intros Hp Hl Hr. simpl. by rewrite Hp, Hl, Hr. Qed.

Lemma lookup_snoc (h : store) n : (h ++ [n]) !! length h = Some n.
Proof. by rewrite lookup_app_r, Nat.sub_diag. Qed.

Lemma lookup_snoc_lt (h : store) n p m :
  h !! p = Some m -> (h ++ [n]) !! p = Some m.
Proof. intros H. rewrite lookup_app_l; eauto using lookup_lt_Some. Qed.

Ltac lookup_tac :=
  first
    [ eassumption
    | apply lookup_snoc
    | apply lookup_snoc_lt; lookup_tac
    | apply list_lookup_insert_eq;
      rewrite ?length_app, ?length_insert; simpl; lia ].

Lemma obnd_assoc {A B C} (c : Opt A) (k : A -> Opt B) (k' : B -> Opt C) (h : store) :
  obnd (obnd c k) k' h = obnd c (fun a => obnd (k a) k') h.
Proof. unfold obnd. by destruct (c h) as [[[a|x] h1]|]. Qed.

Ltac eval_tac :=
  first
    [ apply eval_two_constants; solve [auto]
    | apply eval_mult_constants
    | apply eval_div_constants; assumption
    | apply eval_constant_empty ].

Ltac run_step :=
  first
    [ rewrite obnd_assoc
    | erewrite obnd_ret by (eapply get_op_eq; lookup_tac)
    | erewrite obnd_ret by (eapply get_left_eq; lookup_tac)
    | erewrite obnd_ret by (eapply get_right_eq; lookup_tac)
    | erewrite obnd_ret by (eapply set_op_eq; lookup_tac)
    | erewrite obnd_ret by (eapply set_left_eq; lookup_tac)
    | erewrite obnd_ret by (eapply set_right_eq; lookup_tac)
    | erewrite obnd_ret by (apply constant_cast_eq; lia)
    | erewrite obnd_ret
        by (eapply eval_empty_eq;
            [ first [ eapply load_two_constants; lookup_tac
                    | eapply load_constant; lookup_tac ]
            | eval_tac ])
    | erewrite obnd_ret by reflexivity
    | erewrite obnd_throw by reflexivity
    | erewrite get_left_eq by lookup_tac
    | erewrite get_right_eq by lookup_tac ].

Ltac decide_step :=
  match goal with
  | |- context [decide ?P] =>
      first [ rewrite (decide_True (P := P)) by (clear; intuition congruence)
            | rewrite (decide_False (P := P)) by (clear; intuition congruence) ]
  end.

Lemma rewrite_binary_verdict p (h : store) l r op :
  h !! p = Some (BinaryExpression l r op) ->
  l < length h -> r < length h ->
  rewrite_binary left_first p h
  = Some (run_verdict (verdict_of op (constant_at h l) (constant_at h r)) p l r h).
Proof.
  intros Hp Hl Hr.
  pose proof (lookup_lt_Some _ _ _ Hp) as Hlt.
  unfold rewrite_binary. repeat run_step.
  destruct (constant_at h l) as [a|] eqn:Cl, (constant_at h r) as [b|] eqn:Cr;
    rewrite ?constant_at_Some in *.
  all: destruct op; unfold plus_minus, mult_div, verdict_of, bool_decide;
    repeat first [ run_step | decide_step ]; try reflexivity.
  all: try (destruct (is_zero a) eqn:Za); try (destruct (is_zero b) eqn:Zb);
       try (destruct (is_one a) eqn:Oa); try (destruct (is_one b) eqn:Ob);
       simpl orb; simpl andb; cbv beta iota;
       repeat first [ run_step | decide_step ]; try reflexivity.
  all: unfold oret, othrow, make_shared, run_verdict;
       rewrite <- ?app_assoc, ?length_app, ?length_insert; simpl;
       rewrite ?Nat.add_1_r; try reflexivity.
  all: rewrite length_app, length_insert; simpl; rewrite Nat.add_1_r;
       do 2 f_equal; f_equal;
       rewrite !insert_app_l by (rewrite ?length_insert; lia);
       by rewrite list_insert_insert_eq.
Qed.

(** ** More fuel changes nothing *)

Lemma obnd_Some {A B} (c : Opt A) (k : A -> Opt B) (h : store) y :
  obnd c k h = Some y ->
  (exists a h1, c h = Some (Ret a, h1) /\ k a h1 = Some y) \/
  (exists x h1, c h = Some (Throw x, h1) /\ y = (Throw x, h1)).
Proof.
  unfold obnd. destruct (c h) as [[[a|x] h1]|]; [eauto | | discriminate].
  intros H. inversion H; subst. eauto.
Qed.

Lemma obnd_fuel {A B} (c c' : Opt A) (k k' : A -> Opt B) (h : store) y :
  obnd c k h = Some y ->
  (forall z, c h = Some z -> c' h = Some z) ->
  (forall a h1 z, k a h1 = Some z -> k' a h1 = Some z) ->
  obnd c' k' h = Some y.
Proof.
  intros H Hc Hk.
  apply obnd_Some in H as [(a & h1 & H1 & H2)|(x & h1 & H1 & ->)].
  - erewrite obnd_ret by eauto. eauto.
  - erewrite obnd_throw by eauto. done.
Qed.

Lemma optimize_fuel_mono fuel : forall fuel' expr (h : store) y,
  optimize left_first fuel expr h = Some y -> fuel <= fuel' ->
  optimize left_first fuel' expr h = Some y.
Proof.
  induction fuel as [|fuel IH]; intros fuel' expr h y H Hle; [discriminate|].
  destruct fuel' as [|fuel']; [lia|]. simpl in *.
  eapply obnd_fuel; [exact H | auto |]. clear H.
  intros n h1 z H. destruct n as [v|v|e func|l r op]; auto.
  - eapply obnd_fuel; [exact H | intros; apply IH; [done | lia] | auto].
  - eapply obnd_fuel; [exact H | intros; apply IH; [done | lia] |]. clear H.
    intros l' h2 z' H.
    eapply obnd_fuel; [exact H | auto |]. clear H. intros [] h3 z'' H.
    eapply obnd_fuel; [exact H | auto |]. clear H. intros r0 h4 z3 H.
    eapply obnd_fuel; [exact H | intros; apply IH; [done | lia] | auto].
Qed.

Lemma optimize_deterministic fuel fuel' expr (h : store) y y' :
  optimize left_first fuel expr h = Some y ->
  optimize left_first fuel' expr h = Some y' -> y = y'.
Proof.
  intros H H'.
  apply (optimize_fuel_mono _ (fuel `max` fuel')) in H; [|lia].
  apply (optimize_fuel_mono _ (fuel `max` fuel')) in H'; [|lia].
  congruence.
Qed.

(** ** Stores without cycles *)

Lemma wf_insert rk (h : store) p n0 n :
  wf rk h -> h !! p = Some n0 ->
  (forall c, child n c -> c < length h /\ rk c < rk p) ->
  wf rk (<[p := n]> h).
Proof.
  intros [Hc Hz] Hp Hn. split.
  - intros a m c Ha Hch. rewrite length_insert.
    destruct (decide (p = a)) as [->|Hne].
    + rewrite list_lookup_insert_eq in Ha by eauto using lookup_lt_Some.
      inversion Ha; subst. auto.
    + rewrite list_lookup_insert_ne in Ha by done. eauto.
  - intros a Ha. rewrite length_insert in Ha. auto.
Qed.

Lemma wf_snoc rk (h : store) value :
  wf rk h -> wf rk (h ++ [ConstantExpression value]).
Proof.
  intros [Hc Hz]. split.
  - intros a m c Ha Hch. rewrite length_app. simpl.
    destruct (decide (a < length h)) as [Hlt|Hge].
    + rewrite lookup_app_l in Ha by done.
      destruct (Hc _ _ _ Ha Hch). split; [lia | done].
    + rewrite lookup_app_r in Ha by lia.
      destruct (a - length h) as [|k]; simpl in Ha; [|by destruct k].
      inversion Ha; subst. done.
  - intros a Ha. rewrite length_app in Ha. simpl in Ha. apply Hz. lia.
Qed.

(** A run is what [optimize] computes, given enough fuel. *)
Lemma opt_run_optimize p (h : store) res h' :
  opt_run p h res h' ->
  exists fuel, forall fuel', fuel <= fuel' ->
    optimize left_first fuel' p h = Some (res, h').
Proof.
  induction 1 as
    [ p h v Hp | p h v Hp
    | p h e func x h1 Hp _ [n1 IH1]
    | p h e func e' h1 Hp _ [n1 IH1] Hp1
    | p h l r op x h1 Hp _ [n1 IH1]
    | p h l r op l' h1 x h2 Hp _ [n1 IH1] Hp1 _ [n2 IH2]
    | p h l r op l' h1 r' h2 res h' Hp _ [n1 IH1] Hp1 _ [n2 IH2] Hp2 Hl' Hr' Hv ].
  - exists 1. intros [|f] Hf; [lia|]. simpl.
    erewrite obnd_ret by (eapply deref_eq; eassumption). done.
  - exists 1. intros [|f] Hf; [lia|]. simpl.
    erewrite obnd_ret by (eapply deref_eq; eassumption). done.
  - exists (S n1). intros [|f] Hf; [lia|]. simpl.
    erewrite obnd_ret by (eapply deref_eq; eassumption). cbv beta iota.
    erewrite obnd_throw by (apply IH1; lia). done.
  - exists (S n1). intros [|f] Hf; [lia|]. simpl.
    erewrite obnd_ret by (eapply deref_eq; eassumption). cbv beta iota.
    erewrite obnd_ret by (apply IH1; lia).
    erewrite obnd_ret by (eapply set_expr_eq; eassumption). done.
  - exists (S n1). intros [|f] Hf; [lia|]. simpl.
    erewrite obnd_ret by (eapply deref_eq; eassumption). cbv beta iota.
    erewrite obnd_throw by (apply IH1; lia). done.
  - exists (S (n1 `max` n2)). intros [|f] Hf; [lia|]. simpl.
    erewrite obnd_ret by (eapply deref_eq; eassumption). cbv beta iota.
    erewrite obnd_ret by (apply IH1; lia).
    erewrite obnd_ret by (eapply set_left_eq; eassumption).
    erewrite obnd_ret
      by (eapply get_right_eq; apply list_lookup_insert_eq;
          eauto using lookup_lt_Some).
    erewrite obnd_throw by (apply IH2; lia). done.
  - exists (S (n1 `max` n2)). intros [|f] Hf; [lia|]. simpl.
    erewrite obnd_ret by (eapply deref_eq; eassumption). cbv beta iota.
    erewrite obnd_ret by (apply IH1; lia).
    erewrite obnd_ret by (eapply set_left_eq; eassumption).
    erewrite obnd_ret
      by (eapply get_right_eq; apply list_lookup_insert_eq;
          eauto using lookup_lt_Some).
    erewrite obnd_ret by (apply IH2; lia).
    erewrite obnd_ret by (eapply set_right_eq; eassumption).
    erewrite rewrite_binary_verdict;
      [ by rewrite Hv
      | apply list_lookup_insert_eq; eauto using lookup_lt_Some
      | by rewrite length_insert | by rewrite length_insert ].
Qed.

Lemma wf_rank_zero rk (h : store) a : wf rk h -> 0 < rk a -> a < length h.
Proof.
  intros [_ Hz] Ha. destruct (decide (a < length h)); [done|].
  rewrite Hz in Ha by lia. lia.
Qed.

Ltac split_post := unfold run_post; split; [|split; [|split]].

Lemma run_verdict_post rk v p l r op (h : store) res h' :
  wf rk h -> h !! p = Some (BinaryExpression l r op) ->
  run_verdict v p l r h = (res, h') ->
  run_post rk p h res h'.
Proof.
  intros Hwf Hp Hv.
  pose proof (lookup_lt_Some _ _ _ Hp) as Hlt.
  destruct (proj1 Hwf _ _ l Hp) as [Hl Hrl]; [by left|].
  destruct (proj1 Hwf _ _ r Hp) as [Hr Hrr]; [by right|].
  assert (Hframe : forall (cs : store) a, rk p < rk a -> (h ++ cs) !! a = h !! a).
  { intros cs a Ha. apply lookup_app_l. eapply wf_rank_zero; [done | lia]. }
  destruct v as [| | |[] value| |]; simpl in Hv; inversion Hv; subst; clear Hv.
  - split_post; auto. intros q [= <-]. split; [done | lia].
  - split_post; auto. intros q [= <-]. split; [done | lia].
  - split_post; auto. intros q [= <-]. split; [done | lia].
  - split_post.
    + replace (h ++ [ConstantExpression (of_int 0); ConstantExpression value])
        with ((h ++ [ConstantExpression (of_int 0)]) ++ [ConstantExpression value])
        by (by rewrite <- app_assoc).
      auto using wf_snoc.
    + rewrite length_app. lia.
    + auto.
    + intros q [= <-]. rewrite length_app. simpl.
      rewrite (proj2 Hwf) by lia. lia.
  - split_post.
    + auto using wf_snoc.
    + rewrite length_app. lia.
    + auto.
    + intros q [= <-]. rewrite length_app. simpl.
      rewrite (proj2 Hwf) by lia. lia.
  - split_post.
    + apply wf_snoc. eapply wf_insert.
      * by apply wf_snoc.
      * by apply lookup_snoc_lt.
      * intros c [->| ->]; rewrite length_app; simpl;
          [rewrite (proj2 Hwf) by lia|]; lia.
    + rewrite length_app, length_insert, length_app. lia.
    + intros a Ha.
      assert (a < length h) by (eapply wf_rank_zero; [done | lia]).
      rewrite lookup_app_l by (rewrite length_insert, length_app; lia).
      rewrite list_lookup_insert_ne by (intros ->; lia).
      by apply lookup_app_l.
    + intros q [= <-]. rewrite length_app, length_insert, length_app. simpl.
      rewrite (proj2 Hwf) by lia. lia.
  - split_post; auto. intros q [=].
Qed.

Lemma opt_run_post rk p (h : store) res h' :
  opt_run p h res h' -> wf rk h -> run_post rk p h res h'.
Proof.
  induction 1 as
    [ p h v Hp | p h v Hp
    | p h e func x h1 Hp _ IH1
    | p h e func e' h1 Hp _ IH1 Hp1
    | p h l r op x h1 Hp _ IH1
    | p h l r op l' h1 x h2 Hp _ IH1 Hp1 _ IH2
    | p h l r op l' h1 r' h2 res h' Hp _ IH1 Hp1 _ IH2 Hp2 Hl' Hr' Hv ];
    intros Hwf.
  - split_post; auto. intros q [= <-]; eauto using lookup_lt_Some.
  - split_post; auto. intros q [= <-]; eauto using lookup_lt_Some.
  - destruct (proj1 Hwf _ _ e Hp) as [He Hre]; [done|].
    destruct (IH1 Hwf) as (Hwf1 & Hlen1 & Hfr1 & _).
    split_post; auto.
    + intros a Ha. apply Hfr1. lia.
    + intros q [=].
  - destruct (proj1 Hwf _ _ e Hp) as [He Hre]; [done|].
    destruct (IH1 Hwf) as (Hwf1 & Hlen1 & Hfr1 & Hq1).
    destruct (Hq1 _ eq_refl) as [He' Hre'].
    split_post.
    + eapply wf_insert; [done | exact Hp1 |]. intros c ->. split; [done | lia].
    + rewrite length_insert. lia.
    + intros a Ha. rewrite list_lookup_insert_ne by (intros ->; lia).
      apply Hfr1. lia.
    + intros q [= <-]. rewrite length_insert. eauto using lookup_lt_Some.
  - destruct (proj1 Hwf _ _ l Hp) as [Hl Hrl]; [by left|].
    destruct (IH1 Hwf) as (Hwf1 & Hlen1 & Hfr1 & _).
    split_post; auto.
    + intros a Ha. apply Hfr1. lia.
    + intros q [=].
  - destruct (proj1 Hwf _ _ l Hp) as [Hl Hrl]; [by left|].
    destruct (proj1 Hwf _ _ r Hp) as [Hr Hrr]; [by right|].
    destruct (IH1 Hwf) as (Hwf1 & Hlen1 & Hfr1 & Hq1).
    destruct (Hq1 _ eq_refl) as [Hl' Hrl'].
    assert (Hwf1' : wf rk (<[p := BinaryExpression l' r op]> h1)).
    { eapply wf_insert; [done | exact Hp1 |]. intros c [->| ->]; split; lia. }
    destruct (IH2 Hwf1') as (Hwf2 & Hlen2 & Hfr2 & _).
    rewrite length_insert in Hlen2.
    split_post; auto.
    + lia.
    + intros a Ha. rewrite Hfr2 by lia.
      rewrite list_lookup_insert_ne by (intros ->; lia). apply Hfr1. lia.
    + intros q [=].
  - destruct (proj1 Hwf _ _ l Hp) as [Hl Hrl]; [by left|].
    destruct (proj1 Hwf _ _ r Hp) as [Hr Hrr]; [by right|].
    destruct (IH1 Hwf) as (Hwf1 & Hlen1 & Hfr1 & Hq1).
    destruct (Hq1 _ eq_refl) as [Hl1 Hrl'].
    assert (Hwf1' : wf rk (<[p := BinaryExpression l' r op]> h1)).
    { eapply wf_insert; [done | exact Hp1 |]. intros c [->| ->]; split; lia. }
    destruct (IH2 Hwf1') as (Hwf2 & Hlen2 & Hfr2 & Hq2).
    destruct (Hq2 _ eq_refl) as [_ Hrr'].
    rewrite length_insert in Hlen2.
    assert (Hwf3 : wf rk (<[p := BinaryExpression l' r' op]> h2)).
    { eapply wf_insert; [done | exact Hp2 |]. intros c [->| ->]; split; lia. }
    eapply run_verdict_post in Hv as (Hwf' & Hlen' & Hfr' & Hq'); [| exact Hwf3 |].
    2: { apply list_lookup_insert_eq. eauto using lookup_lt_Some. }
    rewrite length_insert in Hlen'.
    split_post; auto.
    + lia.
    + intros a Ha. rewrite Hfr' by done.
      rewrite list_lookup_insert_ne by (intros ->; lia). rewrite Hfr2 by lia.
      rewrite list_lookup_insert_ne by (intros ->; lia). apply Hfr1. lia.
Qed.

(** In a well-formed store every call has a run. *)
Lemma opt_run_exists rk n : forall p (h : store),
  rk p < n -> wf rk h -> p < length h ->
  exists res h', opt_run p h res h'.
Proof.
  induction n as [|n IH]; intros p h Hn Hwf Hp; [lia|].
  destruct (lookup_lt_is_Some_2 _ _ Hp) as [[v|v|e func|l r op] Hnode].
  - eauto using run_constant.
  - eauto using run_var.
  - destruct (proj1 Hwf _ _ e Hnode) as [He Hre]; [done|].
    destruct (IH e h) as ([e'|x] & h1 & Hrun); [lia | done | done | |].
    + destruct (opt_run_post rk _ _ _ _ Hrun Hwf) as (_ & _ & Hfr & _).
      eexists _, _. eapply run_mono; [done | done |]. rewrite Hfr by lia. done.
    + eauto using run_mono_throw.
  - destruct (proj1 Hwf _ _ l Hnode) as [Hl Hrl]; [by left|].
    destruct (proj1 Hwf _ _ r Hnode) as [Hr Hrr]; [by right|].
    destruct (IH l h) as ([l'|x] & h1 & Hrun1); [lia | done | done | |].
    2: { eauto using run_left_throw. }
    destruct (opt_run_post rk _ _ _ _ Hrun1 Hwf) as (Hwf1 & Hlen1 & Hfr1 & Hq1).
    destruct (Hq1 _ eq_refl) as [Hl' Hrl'].
    assert (Hp1 : h1 !! p = Some (BinaryExpression l r op))
      by (rewrite Hfr1 by lia; done).
    assert (Hwf1' : wf rk (<[p := BinaryExpression l' r op]> h1)).
    { eapply wf_insert; [done | exact Hp1 |]. intros c [->| ->]; split; lia. }
    destruct (IH r (<[p := BinaryExpression l' r op]> h1))
      as ([r'|x] & h2 & Hrun2); [lia | done | rewrite length_insert; lia | |].
    2: { eauto using run_right_throw. }
    destruct (opt_run_post rk _ _ _ _ Hrun2 Hwf1') as (Hwf2 & Hlen2 & Hfr2 & Hq2).
    destruct (Hq2 _ eq_refl) as [Hr' Hrr'].
    rewrite length_insert in Hlen2.
    assert (Hp2 : h2 !! p = Some (BinaryExpression l' r op)).
    { rewrite Hfr2 by lia. apply list_lookup_insert_eq. lia. }
    destruct (run_verdict
                (verdict_of op
                   (constant_at (<[p := BinaryExpression l' r' op]> h2) l')
                   (constant_at (<[p := BinaryExpression l' r' op]> h2) r'))
                p l' r' (<[p := BinaryExpression l' r' op]> h2))
      as [res h'] eqn:Hv.
    exists res, h'. eapply run_binary; eauto. lia.
Qed.

(** A run is what [optimize] computes with any fuel above the rank of the
    node. *)
Lemma opt_run_fuel rk p (h : store) res h' :
  opt_run p h res h' -> wf rk h ->
  forall fuel, rk p < fuel -> optimize left_first fuel p h = Some (res, h').
Proof.
  induction 1 as
    [ p h v Hp | p h v Hp
    | p h e func x h1 Hp Hrun1 IH1
    | p h e func e' h1 Hp Hrun1 IH1 Hp1
    | p h l r op x h1 Hp Hrun1 IH1
    | p h l r op l' h1 x h2 Hp Hrun1 IH1 Hp1 Hrun2 IH2
    | p h l r op l' h1 r' h2 res h' Hp Hrun1 IH1 Hp1 Hrun2 IH2 Hp2 Hl' Hr' Hv ];
    intros Hwf [|fuel] Hfuel; try lia; simpl;
    erewrite obnd_ret by (eapply deref_eq; eassumption); cbv beta iota.
  - done.
  - done.
  - destruct (proj1 Hwf _ _ e Hp) as [He Hre]; [done|].
    erewrite obnd_throw by (apply IH1; [done | lia]). done.
  - destruct (proj1 Hwf _ _ e Hp) as [He Hre]; [done|].
    erewrite obnd_ret by (apply IH1; [done | lia]).
    erewrite obnd_ret by (eapply set_expr_eq; eassumption). done.
  - destruct (proj1 Hwf _ _ l Hp) as [Hl Hrl]; [by left|].
    erewrite obnd_throw by (apply IH1; [done | lia]). done.
  - destruct (proj1 Hwf _ _ l Hp) as [Hl Hrl]; [by left|].
    destruct (proj1 Hwf _ _ r Hp) as [Hr Hrr]; [by right|].
    destruct (opt_run_post rk _ _ _ _ Hrun1 Hwf) as (Hwf1 & Hlen1 & Hfr1 & Hq1).
    destruct (Hq1 _ eq_refl) as [Hl' Hrl'].
    assert (Hwf1' : wf rk (<[p := BinaryExpression l' r op]> h1)).
    { eapply wf_insert; [done | exact Hp1 |]. intros c [->| ->]; split; lia. }
    erewrite obnd_ret by (apply IH1; [done | lia]).
    erewrite obnd_ret by (eapply set_left_eq; eassumption).
    erewrite obnd_ret
      by (eapply get_right_eq; apply list_lookup_insert_eq;
          eauto using lookup_lt_Some).
    erewrite obnd_throw by (apply IH2; [done | lia]). done.
  - destruct (proj1 Hwf _ _ l Hp) as [Hl Hrl]; [by left|].
    destruct (proj1 Hwf _ _ r Hp) as [Hr Hrr]; [by right|].
    destruct (opt_run_post rk _ _ _ _ Hrun1 Hwf) as (Hwf1 & Hlen1 & Hfr1 & Hq1).
    destruct (Hq1 _ eq_refl) as [Hl1 Hrl'].
    assert (Hwf1' : wf rk (<[p := BinaryExpression l' r op]> h1)).
    { eapply wf_insert; [done | exact Hp1 |]. intros c [->| ->]; split; lia. }
    erewrite obnd_ret by (apply IH1; [done | lia]).
    erewrite obnd_ret by (eapply set_left_eq; eassumption).
    erewrite obnd_ret
      by (eapply get_right_eq; apply list_lookup_insert_eq;
          eauto using lookup_lt_Some).
    erewrite obnd_ret by (apply IH2; [done | lia]).
    erewrite obnd_ret by (eapply set_right_eq; eassumption).
    erewrite rewrite_binary_verdict;
      [ by rewrite Hv
      | apply list_lookup_insert_eq; eauto using lookup_lt_Some
      | by rewrite length_insert | by rewrite length_insert ].
Qed.

(** In a well-formed store [optimize] ends, for any fuel above the rank of
    the node it is called on, and what it computes is a run. *)
Lemma optimize_runs rk fuel p (h : store) :
  wf rk h -> p < length h -> rk p < fuel ->
  exists res h', optimize left_first fuel p h = Some (res, h') /\
                 opt_run p h res h'.
Proof.
  intros Hwf Hp Hfuel.
  destruct (opt_run_exists rk (S (rk p)) p h) as (res & h' & Hrun);
    [lia | done | done |].
  exists res, h'. split; [|done]. eapply opt_run_fuel; eauto.
Qed.

Lemma optimize_opt_run rk fuel p (h : store) res h' :
  wf rk h -> optimize left_first fuel p h = Some (res, h') ->
  opt_run p h res h'.
Proof.
  intros Hwf H.
  assert (Hp : p < length h).
  { destruct fuel as [|fuel]; [discriminate|]. simpl in H.
    apply obnd_Some in H as [(n & h1 & H1 & _)|(x & h1 & H1 & _)];
      unfold deref in H1; destruct (h !! p) eqn:E; try discriminate;
      eauto using lookup_lt_Some. }
  destruct (optimize_runs rk (S (rk p)) p h) as (res0 & h0 & H0 & Hrun);
    [done | done | lia |].
  pose proof (optimize_deterministic _ _ _ _ _ _ H H0) as [= -> ->]. done.
Qed.

(** ** Idempotence *)

Lemma settled_lt (h : store) p : settled h p -> p < length h.
Proof. destruct 1; eauto using lookup_lt_Some. Qed.

(** On a settled pointer [optimize] returns the pointer and leaves the
    store as it is. *)
Lemma settled_run (h : store) p : settled h p -> opt_run p h (Ret p) h.
Proof.
  induction 1 as [p v Hp|p v Hp|p e func Hp He IHe|p l r op Hp Hl IHl Hr IHr Hv].
  - eauto using run_constant.
  - eauto using run_var.
  - rewrite <- (list_insert_id h p (MonoExpression e func)) at 2 by done.
    eapply run_mono; eauto.
  - assert (Hid : <[p := BinaryExpression l r op]> h = h)
      by (by apply list_insert_id).
    eapply run_binary with (l' := l) (r' := r) (h1 := h) (h2 := h);
      eauto using settled_lt; rewrite ?Hid; auto. by rewrite Hv.
Qed.

Lemma opt_run_deterministic p (h : store) res1 h1 res2 h2 :
  opt_run p h res1 h1 -> opt_run p h res2 h2 -> res1 = res2 /\ h1 = h2.
Proof.
  intros [n1 H1]%opt_run_optimize [n2 H2]%opt_run_optimize.
  specialize (H1 (n1 `max` n2)). specialize (H2 (n1 `max` n2)).
  rewrite H1 in H2 by lia. specialize (H2 ltac:(lia)). by inversion H2.
Qed.

(** Being settled depends on the settled nodes only. *)
Lemma settled_transport (h h2 : store) a :
  settled h a -> (forall b, settled h b -> h2 !! b = h !! b) -> settled h2 a.
Proof.
  intros Ha Hsame.
  induction Ha as [p v Hp|p v Hp|p e func Hp He IHe|p l r op Hp Hl IHl Hr IHr Hv].
  - eapply settled_constant. rewrite Hsame; eauto using settled_constant.
  - eapply settled_var. rewrite Hsame; eauto using settled_var.
  - eapply settled_mono; [|exact IHe]. rewrite Hsame; eauto using settled_mono.
  - eapply settled_binary; [|exact IHl|exact IHr|].
    + rewrite Hsame; eauto using settled_binary.
    + unfold constant_at. rewrite !Hsame by done. exact Hv.
Qed.

Lemma run_verdict_frame v p l r (h : store) res h' a :
  run_verdict v p l r h = (res, h') -> a <> p -> a < length h ->
  h' !! a = h !! a.
Proof.
  intros Hv Hne Ha.
  destruct v as [| | |[] value| |]; simpl in Hv; inversion Hv; subst; clear Hv;
    auto using lookup_app_l.
  rewrite lookup_app_l by (rewrite length_insert, length_app; lia).
  rewrite list_lookup_insert_ne by done. by apply lookup_app_l.
Qed.

(** A run leaves the settled nodes alone. *)
Lemma opt_run_settled_frame p (h : store) res h' :
  opt_run p h res h' -> forall a, settled h a -> h' !! a = h !! a.
Proof.
  assert (Hsettled : forall p (h : store) res h',
             opt_run p h res h' -> settled h p -> h' = h).
  { intros p0 h0 res0 h0' Hrun Hs.
    by destruct (opt_run_deterministic _ _ _ _ _ _ Hrun (settled_run _ _ Hs)). }
  induction 1 as
    [ p h v Hp | p h v Hp
    | p h e func x h1 Hp Hrun1 IH1
    | p h e func e' h1 Hp Hrun1 IH1 Hp1
    | p h l r op x h1 Hp Hrun1 IH1
    | p h l r op l' h1 x h2 Hp Hrun1 IH1 Hp1 Hrun2 IH2
    | p h l r op l' h1 r' h2 res h' Hp Hrun1 IH1 Hp1 Hrun2 IH2 Hp2 Hl' Hr' Hv ];
    intros a Ha; auto.
  - destruct (classic (settled h p)) as [Hs|Hns].
    { rewrite (Hsettled p h (Ret p) _ (run_mono _ _ _ _ _ _ Hp Hrun1 Hp1) Hs). done. }
    rewrite list_lookup_insert_ne by (intros ->; done). auto.
  - destruct (classic (settled h p)) as [Hs|Hns].
    { rewrite (Hsettled p h (Throw x) _
                 (run_right_throw _ _ _ _ _ _ _ _ _ Hp Hrun1 Hp1 Hrun2) Hs). done. }
    assert (Hsame : forall b, settled h b ->
                      <[p := BinaryExpression l' r op]> h1 !! b = h !! b).
    { intros b Hb. rewrite list_lookup_insert_ne by (intros ->; done). auto. }
    rewrite IH2 by eauto using settled_transport. auto.
  - destruct (classic (settled h p)) as [Hs|Hns].
    { rewrite (Hsettled p h res _
                 (run_binary _ _ _ _ _ _ _ _ _ _ _ Hp Hrun1 Hp1 Hrun2 Hp2 Hl' Hr' Hv)
                 Hs). done. }
    assert (Hsame : forall b, settled h b ->
                      <[p := BinaryExpression l' r op]> h1 !! b = h !! b).
    { intros b Hb. rewrite list_lookup_insert_ne by (intros ->; done). auto. }
    assert (Hne : a <> p) by (intros ->; done).
    assert (H2 : h2 !! a = h !! a).
    { rewrite IH2 by eauto using settled_transport. auto. }
    rewrite (run_verdict_frame _ _ _ _ _ _ _ a Hv Hne).
    + by rewrite list_lookup_insert_ne.
    + rewrite length_insert. apply lookup_lt_is_Some. rewrite H2.
      apply lookup_lt_is_Some. by apply settled_lt.
Qed.

Lemma settled_insert rk (h : store) a p n :
  wf rk h -> settled h a -> rk a < rk p -> settled (<[p := n]> h) a.
Proof.
  intros Hwf Ha.
  induction Ha as [q v Hq|q v Hq|q e func Hq He IHe|q l r op Hq Hl IHl Hr IHr Hv];
    intros Hrk.
  - eapply settled_constant. rewrite list_lookup_insert_ne by (intros ->; lia). done.
  - eapply settled_var. rewrite list_lookup_insert_ne by (intros ->; lia). done.
  - destruct (proj1 Hwf _ _ e Hq) as [_ Hre]; [done|].
    eapply settled_mono; [|apply IHe; lia].
    rewrite list_lookup_insert_ne by (intros ->; lia). done.
  - destruct (proj1 Hwf _ _ l Hq) as [_ Hrl]; [by left|].
    destruct (proj1 Hwf _ _ r Hq) as [_ Hrr]; [by right|].
    eapply settled_binary; [|apply IHl; lia|apply IHr; lia|].
    + rewrite list_lookup_insert_ne by (intros ->; lia). done.
    + unfold constant_at.
      rewrite !list_lookup_insert_ne by (intros ->; lia). exact Hv.
Qed.

Lemma settled_app (h cs : store) a : settled h a -> settled (h ++ cs) a.
Proof.
  intros Ha. eapply settled_transport; [exact Ha|].
  intros b Hb. apply lookup_app_l. by apply settled_lt.
Qed.

Lemma settled_snoc (h : store) value :
  settled (h ++ [ConstantExpression value]) (length h).
Proof. eapply settled_constant. apply lookup_snoc. Qed.

(** The pointer a run returns is settled in the store the run leaves. *)
Lemma opt_run_settled rk p (h : store) res h' :
  opt_run p h res h' -> wf rk h -> forall q, res = Ret q -> settled h' q.
Proof.
  induction 1 as
    [ p h v Hp | p h v Hp
    | p h e func x h1 Hp Hrun1 IH1
    | p h e func e' h1 Hp Hrun1 IH1 Hp1
    | p h l r op x h1 Hp Hrun1 IH1
    | p h l r op l' h1 x h2 Hp Hrun1 IH1 Hp1 Hrun2 IH2
    | p h l r op l' h1 r' h2 res h' Hp Hrun1 IH1 Hp1 Hrun2 IH2 Hp2 Hl' Hr' Hv ];
    intros Hwf q Hq; try discriminate.
  - inversion Hq; subst. eauto using settled_constant.
  - inversion Hq; subst. eauto using settled_var.
  - inversion Hq; subst.
    destruct (proj1 Hwf _ _ e Hp) as [He Hre]; [done|].
    destruct (opt_run_post rk _ _ _ _ Hrun1 Hwf) as (Hwf1 & Hlen1 & Hfr1 & Hq1).
    destruct (Hq1 _ eq_refl) as [He' Hre'].
    eapply settled_mono.
    + apply list_lookup_insert_eq. eauto using lookup_lt_Some.
    + eapply settled_insert; eauto. lia.
  - destruct (proj1 Hwf _ _ l Hp) as [Hl Hrl]; [by left|].
    destruct (proj1 Hwf _ _ r Hp) as [Hr Hrr]; [by right|].
    destruct (opt_run_post rk _ _ _ _ Hrun1 Hwf) as (Hwf1 & Hlen1 & Hfr1 & Hq1).
    destruct (Hq1 _ eq_refl) as [Hl1 Hrl'].
    assert (Hwf1' : wf rk (<[p := BinaryExpression l' r op]> h1)).
    { eapply wf_insert; [done | exact Hp1 |]. intros c [->| ->]; split; lia. }
    destruct (opt_run_post rk _ _ _ _ Hrun2 Hwf1') as (Hwf2 & Hlen2 & Hfr2 & Hq2).
    destruct (Hq2 _ eq_refl) as [_ Hrr'].
    set (h3 := <[p := BinaryExpression l' r' op]> h2) in *.
    assert (Hp3 : h3 !! p = Some (BinaryExpression l' r' op))
      by (apply list_lookup_insert_eq; eauto using lookup_lt_Some).
    assert (Hsl : settled h3 l').
    { eapply settled_insert; [exact Hwf2 | | lia].
      eapply (settled_transport (<[p := BinaryExpression l' r op]> h1)).
      - eapply settled_insert; [exact Hwf1 | eauto | lia].
      - intros b Hb. eapply opt_run_settled_frame; eauto. }
    assert (Hsr : settled h3 r').
    { eapply settled_insert; [exact Hwf2 | eauto | lia]. }
    subst res.
    destruct (verdict_of op (constant_at h3 l') (constant_at h3 r')) as
      [| | |[] value| |] eqn:V; simpl in Hv; inversion Hv; subst; clear Hv.
    + eapply settled_binary; eauto.
    + done.
    + done.
    + replace (h3 ++ [ConstantExpression (of_int 0); ConstantExpression value])
        with ((h3 ++ [ConstantExpression (of_int 0)]) ++ [ConstantExpression value])
        by (by rewrite <- app_assoc).
      replace (S (length h3)) with (length (h3 ++ [ConstantExpression (of_int 0)]))
        by (rewrite length_app; simpl; lia).
      apply settled_snoc.
    + apply settled_snoc.
    + replace (S (length h3))
        with (length (<[p := BinaryExpression (length h3) r' MULT]>
                        (h3 ++ [ConstantExpression (of_int (-1))])))
        by (rewrite length_insert, length_app; simpl; lia).
      apply settled_snoc.
Qed.

(** C8. In a store without cycles, [optimize] ends on every pointer [p]
    (for any fuel above the rank of [p]); and when it returns a pointer
    [q], optimizing [q] again returns [q] itself and leaves the store
    exactly as the first call left it. *)
Theorem optimize_idempotent rk p (h : store) :
  wf rk h -> p < length h ->
  exists res h',
    (forall fuel, rk p < fuel -> optimize left_first fuel p h = Some (res, h')) /\
    (forall q, res = Ret q ->
       forall fuel, rk q < fuel ->
         optimize left_first fuel q h' = Some (Ret q, h')).
Proof.
  intros Hwf Hp.
  destruct (opt_run_exists rk (S (rk p)) p h) as (res & h' & Hrun);
    [lia | done | done |].
  exists res, h'. split.
  - intros fuel Hfuel. eapply opt_run_fuel; eauto.
  - intros q -> fuel Hfuel.
    destruct (opt_run_post rk _ _ _ _ Hrun Hwf) as (Hwf' & _).
    eapply opt_run_fuel; [|exact Hwf'|exact Hfuel].
    apply settled_run. eapply opt_run_settled; eauto.
Qed.

Lemma opt_run_keeps_store p (h : store) res h' : opt_run p h res h' -> keeps h h'.
Proof.
  intros [n Hn]%opt_run_optimize.
  eapply (optimize_keeps n p). apply Hn. lia.
Qed.

(** ** The nodes [optimize] can touch *)

Lemma reach_trans (h : store) p c a : reach h p c -> reach h c a -> reach h p a.
Proof. induction 1; eauto using reach_step. Qed.

Lemma reach_child (h : store) p n c : h !! p = Some n -> child n c -> reach h p c.
Proof. eauto using reach_step, reach_refl. Qed.

Lemma keeps_length (h h' : store) : keeps h h' -> length h <= length h'.
Proof.
  intros [K _]. destruct (decide (length h <= length h')) as [|Hgt]; [done|].
  exfalso. destruct (lookup_lt_is_Some_2 h (length h')) as [n Hn]; [lia|].
  destruct (K _ _ Hn) as (n' & Hn' & _). apply lookup_lt_Some in Hn'. lia.
Qed.

Lemma keeps_new_leaf (h h' : store) y n c :
  keeps h h' -> h' !! y = Some n -> child n c -> y < length h.
Proof.
  intros [_ Knew] Hy Hc. destruct (decide (y < length h)) as [|Hge]; [done|].
  exfalso.
  destruct (Knew y n) as [v ->]; [apply lookup_ge_None; lia | done | done].
Qed.

Lemma reach_back (h h' : store) x a :
  keeps h h' -> shortcuts h h' -> reach h' x a -> a < length h -> reach h x a.
Proof.
  intros K E Hr. induction Hr as [p|p n c a Hp Hc Hr IH]; intros Ha.
  - apply reach_refl.
  - assert (c < length h).
    { destruct Hr as [c|c n' c' a Hc' Hch _]; [done|].
      eauto using keeps_new_leaf. }
    eapply reach_trans; [eapply E; eauto | auto].
Qed.

Lemma shortcuts_insert (h h1 : store) p n n1 :
  shortcuts h h1 -> h1 !! p = Some n1 ->
  (forall c, child n c -> c < length h -> reach h p c) ->
  shortcuts h (<[p := n]> h1).
Proof.
  intros E Hp Hn y m c Hy Hc Hlt. destruct (decide (p = y)) as [->|Hne].
  - rewrite list_lookup_insert_eq in Hy by eauto using lookup_lt_Some.
    inversion Hy; subst. auto.
  - rewrite list_lookup_insert_ne in Hy by done. eauto.
Qed.

Lemma shortcuts_snoc (h h1 : store) value :
  shortcuts h h1 -> shortcuts h (h1 ++ [ConstantExpression value]).
Proof.
  intros E y m c Hy Hc Hlt. destruct (decide (y < length h1)) as [Hy1|Hy1].
  - rewrite lookup_app_l in Hy by done. eauto.
  - rewrite lookup_app_r in Hy by lia.
    destruct (y - length h1) as [|k]; simpl in Hy; [|by destruct k].
    inversion Hy; subst. done.
Qed.

Lemma run_verdict_touch v p l r op (h h3 : store) res h' :
  keeps h h3 -> shortcuts h h3 ->
  h3 !! p = Some (BinaryExpression l r op) ->
  run_verdict v p l r h3 = (res, h') ->
  shortcuts h h' /\
  (forall q, res = Ret q -> q < length h -> q = p \/ q = l \/ q = r) /\
  (forall a, a <> p -> a < length h3 -> h' !! a = h3 !! a).
Proof.
  intros K E Hp Hv.
  pose proof (keeps_length _ _ K) as Hlen.
  split; [|split].
  - destruct v as [| | |[] c| |]; simpl in Hv; inversion Hv; subst; clear Hv; auto.
    + replace (h3 ++ [ConstantExpression (of_int 0); ConstantExpression c])
        with ((h3 ++ [ConstantExpression (of_int 0)]) ++ [ConstantExpression c])
        by (by rewrite <- app_assoc).
      auto using shortcuts_snoc.
    + auto using shortcuts_snoc.
    + apply shortcuts_snoc. eapply shortcuts_insert.
      * by apply shortcuts_snoc.
      * by apply lookup_snoc_lt.
      * intros c [->| ->] Hc; [lia|]. eapply E; eauto. by right.
  - intros q ->.
    destruct v as [| | |[] c| |]; simpl in Hv; inversion Hv; subst; clear Hv;
      auto; intros; lia.
  - intros a Hne Ha. eapply run_verdict_frame; eauto.
Qed.

Lemma opt_run_touch p (h : store) res h' :
  opt_run p h res h' -> touch_post p h res h'.
Proof.
  induction 1 as
    [ p h v Hp | p h v Hp
    | p h e func x h1 Hp Hrun1 IH1
    | p h e func e' h1 Hp Hrun1 IH1 Hp1
    | p h l r op x h1 Hp Hrun1 IH1
    | p h l r op l' h1 x h2 Hp Hrun1 IH1 Hp1 Hrun2 IH2
    | p h l r op l' h1 r' h2 res h' Hp Hrun1 IH1 Hp1 Hrun2 IH2 Hp2 Hl' Hr' Hv ].
  - split; [|split]; auto. 2: { intros q [= <-] _. apply reach_refl. }
    intros y n c Hy Hc _. eauto using reach_child.
  - split; [|split]; auto. 2: { intros q [= <-] _. apply reach_refl. }
    intros y n c Hy Hc _. eauto using reach_child.
  - destruct IH1 as (E1 & Q1 & F1). split; [done|split; [discriminate|]].
    intros a Ha Hn. apply F1; [done|]. intros Hr. apply Hn.
    eapply reach_step; eauto. done.
  - destruct IH1 as (E1 & Q1 & F1). split; [|split].
    + eapply shortcuts_insert; [exact E1 | exact Hp1 |].
      intros c -> Hc. eapply reach_step; [exact Hp | done | auto].
    + intros q [= <-] _. apply reach_refl.
    + intros a Ha Hn.
      rewrite list_lookup_insert_ne by (intros ->; apply Hn, reach_refl).
      apply F1; [done|]. intros Hr. apply Hn. eapply reach_step; eauto. done.
  - destruct IH1 as (E1 & Q1 & F1). split; [done|split; [discriminate|]].
    intros a Ha Hn. apply F1; [done|]. intros Hr. apply Hn.
    eapply reach_step; eauto. by left.
  - destruct IH1 as (E1 & Q1 & F1). destruct IH2 as (E2 & Q2 & F2).
    pose proof (opt_run_keeps_store _ _ _ _ Hrun1) as K0.
    pose proof (keeps_length _ _ K0) as Hlen1.
    assert (K1 : keeps h (<[p := BinaryExpression l' r op]> h1)).
    { eapply keeps_trans; [exact K0|].
      eapply keeps_insert; [exact Hp1 | constructor; auto]. }
    assert (E1' : shortcuts h (<[p := BinaryExpression l' r op]> h1)).
    { eapply shortcuts_insert; [exact E1 | exact Hp1 |].
      intros c [->| ->] Hc.
      - eapply reach_step; [exact Hp | by left | auto].
      - eapply reach_child; [exact Hp | by right]. }
    split; [|split; [discriminate|]].
    + intros y n c Hy Hc Hlt.
      eapply reach_back; [exact K1 | exact E1' | | done].
      eapply E2; eauto. rewrite length_insert. lia.
    + intros a Ha Hn.
      rewrite F2.
      * rewrite list_lookup_insert_ne by (intros ->; apply Hn, reach_refl).
        apply F1; [done|]. intros Hr. apply Hn. eapply reach_step; eauto. by left.
      * rewrite length_insert. lia.
      * intros Hr. apply Hn. eapply reach_step; [exact Hp | by right |].
        eapply reach_back; [exact K1 | exact E1' | exact Hr | done].
  - destruct IH1 as (E1 & Q1 & F1). destruct IH2 as (E2 & Q2 & F2).
    pose proof (opt_run_keeps_store _ _ _ _ Hrun1) as K0.
    pose proof (keeps_length _ _ K0) as Hlen1.
    assert (K1 : keeps h (<[p := BinaryExpression l' r op]> h1)).
    { eapply keeps_trans; [exact K0|].
      eapply keeps_insert; [exact Hp1 | constructor; auto]. }
    assert (E1' : shortcuts h (<[p := BinaryExpression l' r op]> h1)).
    { eapply shortcuts_insert; [exact E1 | exact Hp1 |].
      intros c [->| ->] Hc.
      - eapply reach_step; [exact Hp | by left | auto].
      - eapply reach_child; [exact Hp | by right]. }
    pose proof (opt_run_keeps_store _ _ _ _ Hrun2) as K2'.
    assert (K2 : keeps h h2) by (eapply keeps_trans; eauto).
    pose proof (keeps_length _ _ K2) as Hlen2.
    assert (Eh2 : shortcuts h h2).
    { intros y n c Hy Hc Hlt.
      eapply reach_back; [exact K1 | exact E1' | | done].
      eapply E2; eauto. rewrite length_insert. lia. }
    assert (Rl : l' < length h -> reach h p l').
    { intros Hc. eapply reach_step; [exact Hp | by left | auto]. }
    assert (Rr : r' < length h -> reach h p r').
    { intros Hc. eapply reach_step; [exact Hp | by right |].
      eapply reach_back; [exact K1 | exact E1' | | done].
      apply Q2; [done|]. rewrite length_insert. lia. }
    set (h3 := <[p := BinaryExpression l' r' op]> h2) in *.
    assert (K3 : keeps h h3).
    { eapply keeps_trans; [exact K2|].
      eapply keeps_insert; [exact Hp2 | constructor; auto]. }
    assert (E3 : shortcuts h h3).
    { eapply shortcuts_insert; [exact Eh2 | exact Hp2 |].
      intros c [->| ->] Hc; auto. }
    assert (Hp3 : h3 !! p = Some (BinaryExpression l' r' op))
      by (apply list_lookup_insert_eq; eauto using lookup_lt_Some).
    destruct (run_verdict_touch _ _ _ _ _ _ _ _ _ K3 E3 Hp3 Hv) as (E' & Q' & F').
    split; [done|split].
    + intros q Hq Hlt. destruct (Q' _ Hq Hlt) as [->|[->| ->]]; auto using reach_refl.
    + intros a Ha Hn.
      assert (a <> p) by (intros ->; apply Hn, reach_refl).
      rewrite F' by (try done; unfold h3; rewrite length_insert; lia).
      unfold h3. rewrite list_lookup_insert_ne by done.
      rewrite F2.
      * rewrite list_lookup_insert_ne by done.
        apply F1; [done|]. intros Hr. apply Hn. eapply reach_step; eauto. by left.
      * rewrite length_insert. lia.
      * intros Hr. apply Hn. eapply reach_step; [exact Hp | by right |].
        eapply reach_back; [exact K1 | exact E1' | exact Hr | done].
Qed.

(** X2. [optimize] leaves alone every node that is not reachable from the one
    it is called on. *)
Theorem optimize_frame rk fuel p (h : store) res h' a :
  wf rk h -> optimize left_first fuel p h = Some (res, h') ->
  a < length h -> ~ reach h p a -> h' !! a = h !! a.
Proof.
  intros Hwf H Ha Hn.
  destruct (opt_run_touch _ _ _ _ (optimize_opt_run rk _ _ _ _ _ Hwf H))
    as (_ & _ & F). auto.
Qed.

(** ** The rewrite of [0 - x]

    When the left operand of a [MINUS] is a constant equal to 0 and the
    right operand is not a constant, [optimize] turns the node into
    [(-1) * right]; but the test [left == 0] of the [MULT] block that
    follows still looks at the old left operand, so the pointer returned is
    a new constant 0 and not the node. *)
Theorem optimize_zero_minus fuel p (h : store) l r a x :
  h !! p = Some (BinaryExpression l r MINUS) ->
  h !! l = Some (ConstantExpression a) -> is_zero a = true ->
  h !! r = Some (VarExpression x) ->
  optimize left_first (S (S fuel)) p h
  = Some (Ret (S (length h)),
          <[p := BinaryExpression (length h) r MULT]>
            (h ++ [ConstantExpression (of_int (-1))])
          ++ [ConstantExpression (of_int 0)]).
Proof.
  intros Hp Hl Ha Hr.
  assert (Hid : <[p := BinaryExpression l r MINUS]> h = h)
    by (by apply list_insert_id).
  change (optimize left_first (S (S fuel)) p h) with
    (obnd (deref p) (fun n =>
       match n with
       | ConstantExpression _ => oret p
       | VarExpression _ => oret p
       | MonoExpression e _ =>
           obnd (optimize left_first (S fuel) e) (fun e' =>
           obnd (set_expr p e') (fun _ => oret p))
       | BinaryExpression l _ _ =>
           obnd (optimize left_first (S fuel) l) (fun l' =>
           obnd (set_left p l') (fun _ =>
           obnd (get_right p) (fun r =>
           obnd (optimize left_first (S fuel) r) (fun r' =>
           obnd (set_right p r') (fun _ =>
           rewrite_binary left_first p)))))
       end) h).
  erewrite obnd_ret by (eapply deref_eq; exact Hp). cbv beta iota.
  erewrite obnd_ret by (eapply optimize_leaf; eauto).
  erewrite obnd_ret by (eapply set_left_eq; exact Hp). rewrite Hid.
  erewrite obnd_ret by (eapply get_right_eq; exact Hp).
  erewrite obnd_ret by (eapply optimize_leaf; eauto).
  erewrite obnd_ret by (eapply set_right_eq; exact Hp). rewrite Hid.
  erewrite rewrite_binary_verdict by eauto using lookup_lt_Some.
  unfold constant_at. rewrite Hl, Hr. simpl. by rewrite Ha.
Qed.

End OptimizeFacts.

(** ** [optimize] on small stores *)

(** C2 fails: [optimize] returns [2 + 3] as it is, not [Constant 5]. *)
Lemma optimize_two_plus_three :
  optimize (N := double) left_to_right 2 2 two_plus_three
    = Some (Ret 2%nat, two_plus_three) /\
  load 2 two_plus_three 2
    = Some (Binary (Constant 2%float) (Constant 3%float) PLUS) /\
  Binary (Constant 2%float) (Constant 3%float) PLUS <> Constant 5%float.
Proof. repeat split. discriminate. Qed.

Lemma optimize_plus_minus_constants_witness :
  zero_plus_three !! 2%nat = Some (BinaryExpression 0 1 PLUS) /\
  (PLUS = PLUS \/ PLUS = MINUS) /\
  zero_plus_three !! 0%nat = Some (ConstantExpression 0%float) /\
  zero_plus_three !! 1%nat = Some (ConstantExpression 3%float) /\
  optimize (N := double) left_to_right 2 2 zero_plus_three
    = Some (Ret 3%nat, (zero_plus_three ++ [ConstantExpression 3%float])%list).
Proof.
  repeat (split; [reflexivity || (left; reflexivity) |]).
  exact (optimize_plus_minus_constants (N := double) left_to_right 0 2
           zero_plus_three 0 1 PLUS 0%float 3%float
           eq_refl (or_introl eq_refl) eq_refl eq_refl).
Defined.

(** C9 fails: [optimize] on [sin(x + 0)] returns the node it was given
    after storing [x] into its operand field, so the tree at address 3 has
    become [sin(x)], and with it the [cos] that shares the node, which was
    not passed to [optimize]. *)
Lemma optimize_overwrites_shared_node :
  optimize (N := double) left_to_right 3 3 sin_x_plus_zero
    = Some (Ret 3%nat, sin_x_plus_zero_after) /\
  load 3 sin_x_plus_zero 3
    = Some (Mono (Binary (Var "x") (Constant 0%float) PLUS) SIN) /\
  load 3 sin_x_plus_zero_after 3 = Some (Mono (Var "x") SIN) /\
  load 4 sin_x_plus_zero 4
    = Some (Mono (Mono (Binary (Var "x") (Constant 0%float) PLUS) SIN) COS) /\
  load 4 sin_x_plus_zero_after 4
    = Some (Mono (Mono (Var "x") SIN) COS).
Proof. repeat split. Qed.

(** * The value of an expression

    [eval] reads the table only through [operator[]], which answers [T(0)]
    for a missing key, and the only exception it throws is "Division by
    zero". So its result is a function of the expression and of the table
    read with that default, whatever the order of evaluation. *)

Section Value.
Context {T : Type} {N : Numeric T}.
Variable left_first : Operation -> bool.

Lemma value_throw rho (e : expr T) x :
  value rho e = Throw x -> x = division_by_zero.
Proof.
  revert x. induction e as [v|y|e IH func|l IHl r IHr op]; intros x H; simpl in H.
  - discriminate.
  - discriminate.
  - destruct (value rho e); simpl in H; [discriminate|]. inversion H; subst. auto.
  - destruct op.
    4: { destruct (value rho r) as [d|y]; simpl in H; [|inversion H; subst; auto].
         destruct (eqb d (of_int 0)); [by inversion H|].
         destruct (value rho l); simpl in H; [discriminate|].
         inversion H; subst; auto. }
    all: destruct (value rho l) as [a|y]; simpl in H; [|inversion H; subst; auto];
      destruct (value rho r) as [b|y]; simpl in H; [discriminate|];
      inversion H; subst; auto.
Qed.

Lemma value_ext rho rho' (e : expr T) :
  (forall x, rho x = rho' x) -> value rho e = value rho' e.
Proof.
  intros Hext. induction e as [v|y|e IH func|l IHl r IHr op]; simpl.
  - done.
  - by rewrite Hext.
  - by rewrite IH.
  - by rewrite IHl, IHr.
Qed.

Lemma read_extends P (m m' : gmap string T) x :
  extends P m m' -> read m' x = read m x.
Proof.
  intros H. unfold read. destruct (H x) as [E|(E1 & E2 & _)].
  - by rewrite E.
  - by rewrite E1, E2.
Qed.

Lemma eval_read e m res m' x :
  eval left_first e m = (res, m') -> read m' x = read m x.
Proof. intros H. eapply read_extends, eval_extends'. exact H. Qed.

Lemma subscript_value y m : (subscript y m).1 = Ret (read m y).
Proof. unfold subscript, read. by destruct (m !! y). Qed.

(** The outcome of [eval] is [value] at the table read with default. *)
Lemma eval_value (e : expr T) : forall m,
  (eval left_first e m).1 = value (read m) e.
Proof.
  induction e as [v|y|e IH func|l IHl r IHr op]; intros m; simpl.
  - done.
  - apply subscript_value.
  - unfold bind. rewrite <- IH. destruct (eval left_first e m) as [[a|x] m1]; simpl.
    + by destruct func.
    + done.
  - assert (Hl : forall m0 res m1, eval left_first r m0 = (res, m1) ->
               (eval left_first l m1).1 = value (read m0) l).
    { intros m0 res m1 H. rewrite IHl. apply value_ext. intros x.
      eapply eval_read. exact H. }
    assert (Hr : forall m0 res m1, eval left_first l m0 = (res, m1) ->
               (eval left_first r m1).1 = value (read m0) r).
    { intros m0 res m1 H. rewrite IHr. apply value_ext. intros x.
      eapply eval_read. exact H. }
    assert (Hops : forall lf m0,
      (operands lf (eval left_first l) (eval left_first r) m0).1
      = obind (value (read m0) l) (fun a =>
        obind (value (read m0) r) (fun b => Ret (a, b)))).
    { intros lf m0. unfold operands, bind. destruct lf.
      - pose proof (IHl m0) as Vl.
        destruct (eval left_first l m0) as [[a|x] m1] eqn:El; simpl in Vl;
          rewrite <- Vl; simpl; [|done].
        pose proof (Hr _ _ _ El) as Vr.
        destruct (eval left_first r m1) as [[b|x] m2]; simpl in Vr;
          rewrite <- Vr; done.
      - pose proof (IHr m0) as Vr.
        destruct (eval left_first r m0) as [[b|x] m1] eqn:Er; simpl in Vr.
        + pose proof (Hl _ _ _ Er) as Vl.
          destruct (eval left_first l m1) as [[a|y] m2]; simpl in Vl;
            rewrite <- Vl; simpl; rewrite <- ?Vr; done.
        + symmetry in Vr. pose proof (value_throw _ _ _ Vr) as ->.
          destruct (value (read m0) l) as [a|y] eqn:Vl; simpl.
          * by rewrite Vr.
          * by apply value_throw in Vl as ->. }
    assert (Hdiv :
      (bind (eval left_first r) (fun d =>
         if eqb d (of_int 0) then throw division_by_zero
         else bind (operands (left_first DIV) (eval left_first l)
                      (eval left_first r))
                (fun ab => ret (div ab.1 ab.2))) m).1
      = obind (value (read m) r) (fun d =>
          if eqb d (of_int 0) then Throw division_by_zero
          else obind (value (read m) l) (fun a => Ret (div a d)))).
    { unfold bind at 1. pose proof (IHr m) as Vr.
      destruct (eval left_first r m) as [[d|x] m1] eqn:Er; simpl in Vr;
        rewrite <- Vr; simpl; [|done].
      destruct (eqb d (of_int 0)); [done|].
      unfold bind. pose proof (Hops (left_first DIV) m1) as H.
      rewrite (value_ext (read m1) (read m) l) in H
        by (intros x; eapply eval_read; exact Er).
      rewrite (value_ext (read m1) (read m) r) in H
        by (intros x; eapply eval_read; exact Er).
      rewrite <- Vr in H.
      destruct (operands (left_first DIV) (eval left_first l)
                  (eval left_first r) m1) as [[[a b]|x] m2]; simpl in H;
        destruct (value (read m) l) as [a'|y]; simpl in *; by inversion H. }
    destruct op; try exact Hdiv.
    all: unfold bind;
      match goal with
      | |- context [operands ?lf ?a ?b ?m] =>
          pose proof (Hops lf m) as H;
          destruct (operands lf a b m) as [[[a0 b0]|x] m2]
      end; simpl in *;
      destruct (value (read m) l) as [a'|]; simpl in *; try discriminate;
      destruct (value (read m) r) as [b'|]; simpl in *; try discriminate;
      by inversion H.
Qed.

End Value.

(** * Stores and the expressions they denote *)

Section Semantics.
Context {T : Type} {N : Numeric T}.
Variable left_first : Operation -> bool.
Local Open Scope nat_scope.
Local Open Scope list_scope.

Local Abbreviation store := (list (node T)).



Lemma denotes_constant_at (h : store) p e :
  denotes h p e -> constant_at h p = is_constant e.
Proof. destruct 1 as [? ? H|? ? H|? ? ? ? H|? ? ? ? ? ? H]; unfold constant_at; by rewrite H. Qed.

Lemma denotes_insert rk (h : store) a e p n :
  wf rk h -> denotes h a e -> rk a < rk p -> denotes (<[p := n]> h) a e.
Proof.
  intros Hwf Ha.
  induction Ha as [q v Hq|q v Hq|q c func c' Hq Hc IHc|q l r op l' r' Hq Hl IHl Hr IHr];
    intros Hrk.
  - eapply denotes_constant. rewrite list_lookup_insert_ne by (intros ->; lia). done.
  - eapply denotes_var. rewrite list_lookup_insert_ne by (intros ->; lia). done.
  - destruct (proj1 Hwf _ _ c Hq) as [_ Hrc]; [done|].
    eapply denotes_mono; [|apply IHc; lia].
    rewrite list_lookup_insert_ne by (intros ->; lia). done.
  - destruct (proj1 Hwf _ _ l Hq) as [_ Hrl]; [by left|].
    destruct (proj1 Hwf _ _ r Hq) as [_ Hrr]; [by right|].
    eapply denotes_binary; [|apply IHl; lia|apply IHr; lia].
    rewrite list_lookup_insert_ne by (intros ->; lia). done.
Qed.

Lemma denotes_app (h cs : store) a e : denotes h a e -> denotes (h ++ cs) a e.
Proof.
  induction 1 as [q v Hq|q v Hq|q c func c' Hq Hc IHc|q l r op l' r' Hq Hl IHl Hr IHr].
  - eapply denotes_constant. rewrite lookup_app_l; eauto using lookup_lt_Some.
  - eapply denotes_var. rewrite lookup_app_l; eauto using lookup_lt_Some.
  - eapply denotes_mono; [|exact IHc]. rewrite lookup_app_l; eauto using lookup_lt_Some.
  - eapply denotes_binary; [|exact IHl|exact IHr].
    rewrite lookup_app_l; eauto using lookup_lt_Some.
Qed.

Lemma opt_run_keeps p (h : store) res h' : opt_run p h res h' -> keeps h h'.
Proof.
  intros [n Hn]%(opt_run_optimize left_first).
  eapply (optimize_keeps left_first n p). apply Hn. lia.
Qed.

Lemma verdict_negate op (a b : option T) :
  verdict_of op a b = Negate -> op = MINUS.
Proof.
  destruct op, a as [a|], b as [b|]; simpl; try discriminate;
    repeat match goal with
      | |- context [if ?c then _ else _] => destruct c
      end; congruence.
Qed.

Lemma denotes_mono_inv (h : store) p c func e :
  h !! p = Some (MonoExpression c func) -> denotes h p e ->
  exists c', e = Mono c' func /\ denotes h c c'.
Proof.
  intros Hp He. inversion He; subst; rewrite Hp in *;
    match goal with H : Some _ = Some _ |- _ => inversion H; subst end. eauto.
Qed.

Lemma denotes_binary_inv (h : store) p l r op e :
  h !! p = Some (BinaryExpression l r op) -> denotes h p e ->
  exists l' r', e = Binary l' r' op /\ denotes h l l' /\ denotes h r r'.
Proof.
  intros Hp He. inversion He; subst; rewrite Hp in *;
    match goal with H : Some _ = Some _ |- _ => inversion H; subst end. eauto.
Qed.

End Semantics.

(** ** [optimize] and values, on small stores *)


(** The closed stores are well formed, each node ranked by its height. *)
Lemma sin_x_plus_zero_wf : wf (rank_of [0; 0; 1; 2; 3]%nat) sin_x_plus_zero.
Proof.
  split.
  - intros [|[|[|[|[|p]]]]] n c Hn Hc; simpl in Hn; inversion Hn; subst;
      simpl in Hc; try done.
    + destruct Hc as [->| ->]; simpl; unfold rank_of; simpl; lia.
    + subst c. simpl. unfold rank_of. simpl. lia.
    + subst c. simpl. unfold rank_of. simpl. lia.
  - intros a Ha. simpl in Ha. unfold rank_of.
    do 5 (destruct a as [|a]; [lia|]). by destruct a.
Qed.

Lemma optimize_idempotent_witness :
  wf (rank_of [0; 0; 1; 2; 3]%nat) sin_x_plus_zero /\
  (3 < length sin_x_plus_zero)%nat /\
  exists res h',
    (forall fuel, (rank_of [0; 0; 1; 2; 3]%nat 3 < fuel)%nat ->
       optimize (N := double) left_to_right fuel 3 sin_x_plus_zero
       = Some (res, h')) /\
    (forall q, res = Ret q ->
       forall fuel, (rank_of [0; 0; 1; 2; 3]%nat q < fuel)%nat ->
         optimize (N := double) left_to_right fuel q h' = Some (Ret q, h')).
Proof.
  split; [exact sin_x_plus_zero_wf | split; [simpl; lia |]].
  apply (optimize_idempotent (N := double) left_to_right _ 3 sin_x_plus_zero
           sin_x_plus_zero_wf).
  simpl. lia.
Defined.

Lemma optimize_zero_minus_witness :
  zero_minus_x !! 2%nat = Some (BinaryExpression 0 1 MINUS) /\
  zero_minus_x !! 0%nat = Some (ConstantExpression 0%float) /\
  is_zero (N := double) 0%float = true /\
  zero_minus_x !! 1%nat = Some (VarExpression "x") /\
  optimize (N := double) left_to_right 2 2 zero_minus_x
  = Some (Ret 4%nat,
          [ConstantExpression 0%float; VarExpression "x";
           BinaryExpression 3 1 MULT; ConstantExpression (-1)%float;
           ConstantExpression 0%float]) /\
  (eval (N := double) left_to_right
        (Binary (Constant 0%float) (Var "x") MINUS) {[ "x" := 1%float ]}).1
    = Ret (-1)%float /\
  (eval (N := double) left_to_right (Constant 0%float) {[ "x" := 1%float ]}).1
    = Ret 0%float.
Proof.
  do 4 (split; [reflexivity|]). split; [|split; reflexivity].
  exact (optimize_zero_minus (N := double) left_to_right 0 2 zero_minus_x 0 1
           0%float "x" eq_refl eq_refl eq_refl eq_refl).
Defined.

Lemma optimize_frame_witness :
  wf (rank_of [0; 0; 1; 2; 3]%nat) sin_x_plus_zero /\
  optimize (N := double) left_to_right 3 3 sin_x_plus_zero
    = Some (Ret 3%nat, sin_x_plus_zero_after) /\
  (4 < length sin_x_plus_zero)%nat /\
  ~ reach sin_x_plus_zero 3 4 /\
  sin_x_plus_zero_after !! 4%nat = sin_x_plus_zero !! 4%nat.
Proof.
  assert (Hn : ~ reach sin_x_plus_zero 3 4).
  { intros Hr.
    repeat match goal with
      | H : reach _ _ _ |- _ =>
          let Hl := fresh "Hl" in
          let Hc := fresh "Hc" in
          let Hr' := fresh "Hr" in
          inversion H as [|? ? ? ? Hl Hc Hr']; subst; clear H;
          vm_compute in Hl; inversion Hl; subst; clear Hl; simpl in Hc;
          try done; try destruct Hc as [->| ->]; try subst
      end. }
  split; [exact sin_x_plus_zero_wf | split; [reflexivity | split; [simpl; lia |]]].
  split; [exact Hn |].
  apply (optimize_frame (N := double) left_to_right _ 3 3 sin_x_plus_zero
           (Ret 3%nat) sin_x_plus_zero_after 4 sin_x_plus_zero_wf eq_refl);
    [simpl; lia | exact Hn].
Defined.

(** Over [double] the rewrite of [x * 0] is not exact everywhere: at an
    infinite [x] the product is a NaN, and [optimize] returns the
    constant 0. *)
Lemma optimize_times_zero_at_infinity :
  optimize (N := double) left_to_right 2 2 x_times_zero
    = Some (Ret 3%nat, (x_times_zero ++ [ConstantExpression 0%float])%list) /\
  (eval (N := double) left_to_right
        (Binary (Var "x") (Constant 0%float) MULT) {[ "x" := infinity ]}).1
    = Ret nan /\
  (eval (N := double) left_to_right (Constant 0%float) {[ "x" := infinity ]}).1
    = Ret 0%float.
Proof. repeat split. Qed.

(** * More properties of [eval] *)

Section EvalMore.
Context {T : Type} {N : Numeric T}.

(** After a successful evaluation the table is the one given, with a zero
    for each variable of the expression it did not have. *)
Lemma eval_table_lookup lf (e : expr T) m v m' k :
  eval lf e m = (Ret v, m') ->
  (m' !! k = m !! k /\ (m !! k = None -> ~ occurs k e)) \/
  (m !! k = None /\ m' !! k = Some (of_int 0) /\ occurs k e).
Proof.
  intros H. destruct (eval_extends' lf _ _ _ _ H k) as [Heq|(Hn & Hz & Ho)]; [|auto].
  left. split; [done|]. intros Hn Ho.
  destruct (eval_keys lf _ _ _ _ k H Ho) as [w Hw]. congruence.
Qed.

(** X3. The order in which the operands of a binary node are evaluated,
    which C++ leaves to the compiler, cannot be observed: two orders give
    the same value or the same exception, and when a value is returned
    they leave the same table. *)
Theorem eval_order_independent (lf1 lf2 : Operation -> bool) (e : expr T) m :
  (eval lf1 e m).1 = (eval lf2 e m).1 /\
  (forall v, (eval lf1 e m).1 = Ret v -> (eval lf1 e m).2 = (eval lf2 e m).2).
Proof.
  assert (Hres : (eval lf1 e m).1 = (eval lf2 e m).1)
    by (by rewrite !eval_value).
  split; [exact Hres|]. intros v Hv.
  destruct (eval lf1 e m) as [res1 m1] eqn:E1.
  destruct (eval lf2 e m) as [res2 m2] eqn:E2.
  simpl in *. subst res1 res2.
  apply map_eq. intros k.
  destruct (eval_table_lookup _ _ _ _ _ k E1) as [[H1 N1]|(Hn1 & Hz1 & Ho1)];
    destruct (eval_table_lookup _ _ _ _ _ k E2) as [[H2 N2]|(Hn2 & Hz2 & Ho2)].
  - congruence.
  - exfalso. by apply N1.
  - exfalso. by apply N2.
  - congruence.
Qed.

(** X6. Evaluation leaves alone a table that binds every variable of the
    expression, whether it returns a value or throws. *)
Theorem eval_bound_keeps_table lf (e : expr T) m :
  (forall n, occurs n e -> is_Some (m !! n)) -> (eval lf e m).2 = m.
Proof.
  intros Hb. destruct (eval lf e m) as [res m'] eqn:E. simpl.
  apply map_eq. intros k.
  destruct (eval_extends' lf _ _ _ _ E k) as [Heq|(Hn & _ & Ho)]; [done|].
  destruct (Hb _ Ho) as [w Hw]. congruence.
Qed.

(** A computation [settles] when its table only grows and, run again in
    the table it left or in a larger one, it gives the same result and
    changes nothing. *)
Lemma settles_ret {A} (a : A) (m m' : gmap string T) res :
  ret a m = (res, m') ->
  m ⊆ m' /\ forall m'', m' ⊆ m'' -> ret a m'' = (res, m'').
Proof. unfold ret. intros [= <- <-]. done. Qed.

Lemma settles_throw {A} x (m m' : gmap string T) (res : outcome A) :
  throw x m = (res, m') ->
  m ⊆ m' /\ forall m'', m' ⊆ m'' -> throw x m'' = (res, m'').
Proof. unfold throw. intros [= <- <-]. done. Qed.

Lemma settles_subscript y (m m' : gmap string T) res :
  subscript y m = (res, m') ->
  m ⊆ m' /\ forall m'', m' ⊆ m'' -> subscript y m'' = (res, m'').
Proof.
  unfold subscript. destruct (m !! y) as [v|] eqn:E; intros [= <- <-].
  - split; [done|]. intros m'' Hm.
    by rewrite (lookup_weaken _ _ _ _ E Hm).
  - split; [by apply insert_subseteq|]. intros m'' Hm.
    by rewrite (lookup_weaken _ m'' y (of_int 0) (lookup_insert_eq _ _ _) Hm).
Qed.

Lemma settles_bind {A B} (c : Eval A) (k : A -> Eval B) :
  (forall (m m' : gmap string T) res, c m = (res, m') ->
     m ⊆ m' /\ forall m'', m' ⊆ m'' -> c m'' = (res, m'')) ->
  (forall a (m m' : gmap string T) res, k a m = (res, m') ->
     m ⊆ m' /\ forall m'', m' ⊆ m'' -> k a m'' = (res, m'')) ->
  forall (m m' : gmap string T) res, bind c k m = (res, m') ->
     m ⊆ m' /\ forall m'', m' ⊆ m'' -> bind c k m'' = (res, m'').
Proof.
  intros Hc Hk m m' res. unfold bind.
  destruct (c m) as [[a|x] m1] eqn:E.
  - intros H. destruct (Hc _ _ _ E) as [S1 R1]. destruct (Hk _ _ _ _ H) as [S2 R2].
    split; [by etrans|]. intros m'' Hm.
    rewrite (R1 m'') by (by etrans). by apply R2.
  - intros [= <- <-]. destruct (Hc _ _ _ E) as [S1 R1].
    split; [done|]. intros m'' Hm. by rewrite (R1 m'' Hm).
Qed.

Lemma settles_operands lf (l r : Eval T) :
  (forall (m m' : gmap string T) res, l m = (res, m') ->
     m ⊆ m' /\ forall m'', m' ⊆ m'' -> l m'' = (res, m'')) ->
  (forall (m m' : gmap string T) res, r m = (res, m') ->
     m ⊆ m' /\ forall m'', m' ⊆ m'' -> r m'' = (res, m'')) ->
  forall (m m' : gmap string T) res, operands lf l r m = (res, m') ->
     m ⊆ m' /\ forall m'', m' ⊆ m'' -> operands lf l r m'' = (res, m'').
Proof.
  intros Hl Hr. unfold operands. destruct lf.
  - apply settles_bind; [done|]. intros a. apply settles_bind; [done|].
    intros b. apply settles_ret.
  - apply settles_bind; [done|]. intros b. apply settles_bind; [done|].
    intros a. apply settles_ret.
Qed.

Lemma eval_settles lf (e : expr T) :
  forall (m m' : gmap string T) res, eval lf e m = (res, m') ->
     m ⊆ m' /\ forall m'', m' ⊆ m'' -> eval lf e m'' = (res, m'').
Proof.
  induction e as [v|y|e IH func|l IHl r IHr op]; simpl.
  - apply settles_ret.
  - apply settles_subscript.
  - apply settles_bind; [done|]. intros a. destruct func; apply settles_ret.
  - destruct op.
    4: { apply settles_bind; [done|]. intros d.
         destruct (eqb d (of_int 0)); [apply settles_throw|].
         apply settles_bind; [by apply settles_operands|].
         intros ab. apply settles_ret. }
    all: apply settles_bind; [by apply settles_operands|];
      intros ab; apply settles_ret.
Qed.

(** X5. Evaluating again is stable: in the table a first evaluation has
    left, or in any table that extends it, the expression gives the same
    value or the same exception and the table is not changed any more. *)
Theorem eval_again lf (e : expr T) m res m' m'' :
  eval lf e m = (res, m') -> m' ⊆ m'' -> eval lf e m'' = (res, m'').
Proof. intros H Hm. by apply (eval_settles lf e m m' res H). Qed.

Lemma value_throw_has_div rho (e : expr T) x :
  value rho e = Throw x -> has_div e = true.
Proof.
  induction e as [v|y|e IH func|l IHl r IHr op]; simpl; try discriminate.
  - destruct (value rho e); simpl; [discriminate | auto].
  - destruct op; try done.
    all: destruct (value rho l); simpl;
      [ destruct (value rho r); simpl; [discriminate|];
        intros H; rewrite (IHr H); apply orb_true_r
      | intros H; by rewrite (IHl H) ].
Qed.

(** X4. The only exception [eval] throws is "Division by zero", and it
    throws it only on an expression that has a [DIV] node. *)
Theorem eval_throws_division lf (e : expr T) m x :
  (eval lf e m).1 = Throw x -> x = division_by_zero /\ has_div e = true.
Proof.
  rewrite eval_value. intros H. split.
  - by eapply value_throw.
  - by eapply value_throw_has_div.
Qed.

End EvalMore.

(** * More properties of [diff] and [to_string] *)

Section DiffMore.
Context {T : Type} {N : Numeric T}.

(** X7. [diff] fails exactly on [POW] nodes of an unordered type: for
    [std::complex<double>] it throws "Unknown operation" when the
    expression has a [POW] node anywhere and returns a tree otherwise;
    for an ordered type it always returns a tree. *)
Theorem diff_outcome str (e : expr T) :
  match ordered with
  | None =>
      if has_pow e then diff str e = Throw unknown_operation
      else exists d, diff str e = Ret d
  | Some _ => exists d, diff str e = Ret d
  end.
Proof.
  destruct ordered as [R|] eqn:HR; [by eapply diff_returns|].
  induction e as [v|y|e IH func|l IHl r IHr op]; simpl.
  - eauto.
  - destruct (String.eqb str y); eauto.
  - destruct (has_pow e).
    + by rewrite IH.
    + destruct IH as [d ->]. simpl. destruct func; eauto.
  - rewrite HR.
    assert (Hthrow : has_pow l || has_pow r = true ->
              obind (diff str l) (fun left_diff =>
              obind (diff str r) (fun right_diff =>
                match op with
                | PLUS => Ret (Binary left_diff right_diff PLUS)
                | MINUS => Ret (Binary left_diff right_diff MINUS)
                | MULT => Ret (Binary (Binary left_diff r MULT)
                                 (Binary l right_diff MULT) PLUS)
                | DIV => Ret (Binary
                                (Binary (Binary left_diff r MULT)
                                   (Binary l right_diff MULT) MINUS)
                                (Binary r (Constant (of_int 2)) POW) DIV)
                | POW => Throw unknown_operation
                end)) = Throw unknown_operation).
    { intros Hp. destruct (has_pow l).
      - by rewrite IHl.
      - destruct IHl as [dl ->]. simpl in *. rewrite Hp in IHr. by rewrite IHr. }
    destruct op.
    all: (destruct (has_pow l || has_pow r) eqn:Hp; [by apply Hthrow|];
              apply orb_false_iff in Hp as [Hl Hr]; rewrite Hl in IHl; rewrite Hr in IHr;
              destruct IHl as [dl ->]; destruct IHr as [dr ->]; simpl; eauto).
Qed.

(** X8. The derivative has no variable that the expression does not
    have. *)
Theorem diff_variables str (e : expr T) d n :
  diff str e = Ret d -> occurs n d -> occurs n e.
Proof.
  revert d. induction e as [v|y|e IH func|l IHl r IHr op]; simpl; intros d.
  - by intros [= <-].
  - destruct (String.eqb str y); by intros [= <-].
  - destruct (diff str e) as [de|]; simpl; [|discriminate].
    specialize (IH _ eq_refl).
    destruct func; intros [= <-]; simpl; intuition eauto.
  - destruct (diff str l) as [dl|]; simpl; [|discriminate].
    destruct (diff str r) as [dr|]; simpl; [|discriminate].
    specialize (IHl _ eq_refl). specialize (IHr _ eq_refl).
    destruct op.
    1-4: intros [= <-]; simpl; intuition eauto.
    destruct ordered as [R|]; [|discriminate].
    destruct (is_constant r) as [c|] eqn:Cr.
    + destruct r; try discriminate. simpl in *.
      destruct (gtb R c (of_int 1)); [intros [= <-]; simpl; intuition eauto|].
      destruct (eqb c (of_int 1)); intros [= <-]; simpl; intuition eauto.
    + destruct (is_constant l); intros [= <-]; simpl; intuition eauto.
Qed.

(** X9. [diff] of a power whose exponent is not a constant, over an ordered
    type: with a constant base [c], [c^g] gives [g' * ((c^g) * ln(c))];
    otherwise [f^g] gives [g' * ln(f) + g * (f' / f)], without the factor
    [f^g]. *)
Theorem diff_pow_exponent R str (l r : expr T) :
  ordered = Some R -> is_constant r = None ->
  exists left_diff right_diff,
    diff str l = Ret left_diff /\ diff str r = Ret right_diff /\
    diff str (Binary l r POW) =
      Ret (match is_constant l with
           | Some _ =>
               Binary right_diff
                 (Binary (Binary l r POW) (Mono l LN) MULT) MULT
           | None =>
               Binary (Binary right_diff (Mono l LN) MULT)
                 (Binary r (Binary left_diff l DIV) MULT) PLUS
           end).
Proof.
  intros HR Hr.
  destruct (diff_returns R str l HR) as [dl Hdl].
  destruct (diff_returns R str r HR) as [dr Hdr].
  exists dl, dr. split; [done|]. split; [done|].
  simpl. rewrite Hdl, Hdr. simpl. rewrite HR, Hr.
  by destruct (is_constant l).
Qed.

Lemma string_app_assoc (a b c : string) : (a ++ b) ++ c = a ++ b ++ c.
Proof.
  induction a as [|x a IH]; [done|].
  change (String x ((a ++ b) ++ c) = String x (a ++ b ++ c)). by f_equal.
Qed.

(** X10. A unary node renders as the name of its function and its
    argument in one pair of parentheses: those of the argument itself when
    it is a binary node, a pair put around it otherwise. *)
Theorem to_string_mono (e : expr T) func s :
  to_string (Mono e func) = Some s ->
  exists body,
    s = func_name func ++ "(" ++ body ++ ")" /\
    to_string e = Some (if is_binary e then "(" ++ body ++ ")" else body).
Proof.
  simpl. destruct (to_string e) as [a|] eqn:E; [|discriminate].
  destruct e as [v|y|e0 f0|l r op]; simpl; intros [= <-]; try by exists a.
  rewrite to_string_binary in E.
  destruct (to_string l) as [tl|]; [|discriminate].
  destruct (to_string r) as [tr|]; [|discriminate].
  inversion E; subst. exists (tl ++ infix op ++ tr).
  by rewrite !string_app_assoc.
Qed.

End DiffMore.

(** * More properties of [optimize] *)

Section OptimizeMore.
Context {T : Type} {N : Numeric T}.
Variable left_first : Operation -> bool.
Local Open Scope nat_scope.
Local Open Scope list_scope.

Local Abbreviation store := (list (node T)).

Lemma optimize_Some_lt fuel p (h : store) y :
  optimize left_first fuel p h = Some y -> p < length h.
Proof.
  destruct fuel as [|fuel]; [discriminate|]. simpl. unfold obnd at 1, deref.
  destruct (h !! p) as [n|] eqn:E; [|discriminate]. eauto using lookup_lt_Some.
Qed.

(** A binary node whose operands [optimize] leaves as they are is
    rewritten as [verdict_of] says. *)
Lemma optimize_fixed_children fuel p (h : store) l r op :
  h !! p = Some (BinaryExpression l r op) ->
  optimize left_first fuel l h = Some (Ret l, h) ->
  optimize left_first fuel r h = Some (Ret r, h) ->
  optimize left_first (S fuel) p h
  = Some (run_verdict (verdict_of op (constant_at h l) (constant_at h r)) p l r h).
Proof.
  intros Hp Hl Hr.
  pose proof (optimize_Some_lt _ _ _ _ Hl) as Hll.
  pose proof (optimize_Some_lt _ _ _ _ Hr) as Hrl.
  change (optimize left_first (S fuel) p h) with
    (obnd (deref p) (fun n =>
       match n with
       | ConstantExpression _ => oret p
       | VarExpression _ => oret p
       | MonoExpression e _ =>
           obnd (optimize left_first fuel e) (fun e' =>
           obnd (set_expr p e') (fun _ => oret p))
       | BinaryExpression l _ _ =>
           obnd (optimize left_first fuel l) (fun l' =>
           obnd (set_left p l') (fun _ =>
           obnd (get_right p) (fun r =>
           obnd (optimize left_first fuel r) (fun r' =>
           obnd (set_right p r') (fun _ =>
           rewrite_binary left_first p)))))
       end) h).
  erewrite obnd_ret by (apply deref_eq; exact Hp). cbv beta iota.
  erewrite obnd_ret by exact Hl.
  erewrite obnd_ret by (eapply set_left_eq; exact Hp).
  rewrite (list_insert_id _ _ _ Hp).
  erewrite obnd_ret by (eapply get_right_eq; exact Hp).
  erewrite obnd_ret by exact Hr.
  erewrite obnd_ret by (eapply set_right_eq; exact Hp).
  rewrite (list_insert_id _ _ _ Hp).
  by apply rewrite_binary_verdict.
Qed.

Lemma optimize_constant fuel p (h : store) c :
  h !! p = Some (ConstantExpression c) ->
  optimize left_first (S fuel) p h = Some (Ret p, h).
Proof. intros Hp. eapply optimize_leaf; eauto. Qed.

Lemma constant_at_None (h : store) v :
  (forall c, h !! v <> Some (ConstantExpression c)) -> constant_at h v = None.
Proof.
  intros Hv. unfold constant_at. destruct (h !! v) as [[c| | |]|] eqn:E; try done.
  by destruct (Hv c).
Qed.

Ltac decide_op :=
  repeat match goal with
    | |- context [decide ?P] =>
        first [ rewrite (decide_True (P := P)) by (clear; intuition congruence)
              | rewrite (decide_False (P := P)) by (clear; intuition congruence) ]
    | |- context [bool_decide ?P] =>
        first [ rewrite (bool_decide_eq_true_2 P) by (clear; intuition congruence)
              | rewrite (bool_decide_eq_false_2 P) by (clear; intuition congruence) ]
    end.

(** X11. Two constants under [MULT] are folded only when one of them is 0
    or 1: a zero gives a new constant 0 (made twice when the other
    constant is 1), a one gives the product as a new constant, and
    otherwise the node is returned as it is. *)
Theorem optimize_mult_constants fuel p (h : store) l r a b :
  h !! p = Some (BinaryExpression l r MULT) ->
  h !! l = Some (ConstantExpression a) ->
  h !! r = Some (ConstantExpression b) ->
  optimize left_first (S (S fuel)) p h =
    if is_zero a || is_zero b then
      if is_one a || is_one b
      then Some (Ret (S (length h)),
                 h ++ [ConstantExpression (of_int 0); ConstantExpression (of_int 0)])
      else Some (Ret (length h), h ++ [ConstantExpression (of_int 0)])
    else if is_one a || is_one b
         then Some (Ret (length h), h ++ [ConstantExpression (mul a b)])
         else Some (Ret p, h).
Proof.
  intros Hp Hl Hr.
  rewrite (optimize_fixed_children _ _ _ _ _ _ Hp
             (optimize_constant _ _ _ _ Hl) (optimize_constant _ _ _ _ Hr)).
  unfold constant_at. rewrite Hl, Hr. unfold verdict_of. decide_op.
  destruct (is_zero a || is_zero b); simpl;
    destruct (is_one a || is_one b); reflexivity.
Qed.

(** X12. Two constants under [DIV]: a divisor equal to 0 makes
    [optimize] throw "Division by zero"; otherwise a dividend equal to 0
    gives a new constant 0, a 1 on either side gives the quotient as a new
    constant, and any other pair is returned as it is. *)
Theorem optimize_div_constants fuel p (h : store) l r a b :
  h !! p = Some (BinaryExpression l r DIV) ->
  h !! l = Some (ConstantExpression a) ->
  h !! r = Some (ConstantExpression b) ->
  optimize left_first (S (S fuel)) p h =
    if is_zero b then Some (Throw division_by_zero, h)
    else if is_zero a then
      if is_one a || is_one b
      then Some (Ret (S (length h)),
                 h ++ [ConstantExpression (of_int 0); ConstantExpression (of_int 0)])
      else Some (Ret (length h), h ++ [ConstantExpression (of_int 0)])
    else if is_one a || is_one b
         then Some (Ret (length h), h ++ [ConstantExpression (div a b)])
         else Some (Ret p, h).
Proof.
  intros Hp Hl Hr.
  rewrite (optimize_fixed_children _ _ _ _ _ _ Hp
             (optimize_constant _ _ _ _ Hl) (optimize_constant _ _ _ _ Hr)).
  unfold constant_at. rewrite Hl, Hr. unfold verdict_of. decide_op.
  destruct (is_zero a), (is_zero b); simpl;
    destruct (is_one a || is_one b); reflexivity.
Qed.

(** X13. A constant operand that is neutral is dropped: with [x] a node
    that is not a constant and that [optimize] leaves as it is, [x + 0],
    [x - 0], [x * 1], [x / 1], [0 + x] and [1 * x] are rewritten to the
    node [x] itself, and nothing is allocated. *)
Theorem optimize_neutral fuel p (h : store) l r op v k c :
  h !! p = Some (BinaryExpression l r op) ->
  (forall c', h !! v <> Some (ConstantExpression c')) ->
  optimize left_first fuel v h = Some (Ret v, h) ->
  h !! k = Some (ConstantExpression c) ->
  (l = v /\ r = k /\
   (((op = PLUS \/ op = MINUS) /\ is_zero c = true) \/
    ((op = MULT \/ op = DIV) /\ is_one c = true /\ is_zero c = false))) \/
  (l = k /\ r = v /\
   ((op = PLUS /\ is_zero c = true) \/
    (op = MULT /\ is_one c = true /\ is_zero c = false))) ->
  optimize left_first (S fuel) p h = Some (Ret v, h).
Proof.
  intros Hp Hv Hov Hk Hcase.
  assert (Hok : optimize left_first fuel k h = Some (Ret k, h)).
  { destruct fuel as [|fuel]; [discriminate|]. by eapply optimize_constant. }
  pose proof (constant_at_None _ _ Hv) as Cv.
  assert (Ck : constant_at h k = Some c) by (unfold constant_at; by rewrite Hk).
  destruct Hcase as [(-> & -> & Hc)|(-> & -> & Hc)];
    rewrite (optimize_fixed_children _ _ _ _ _ _ Hp) by done;
    rewrite Cv, Ck.
  - destruct Hc as [[[->| ->] Hz]|[[->| ->] [Ho Hz]]];
      unfold verdict_of; decide_op; rewrite ?Hz, ?Ho; reflexivity.
  - destruct Hc as [[-> Hz]|[-> [Ho Hz]]];
      unfold verdict_of; decide_op; rewrite ?Hz, ?Ho; simpl; decide_op; reflexivity.
Qed.

(** X14. A zero constant absorbs under [MULT] and [DIV]: with [x] a node
    that is not a constant and that [optimize] leaves as it is, [x * 0],
    [0 * x], [0 / x] and also [x / 0] are rewritten to a new constant 0;
    no exception is thrown for the division by the constant 0. *)
Theorem optimize_absorbing fuel p (h : store) l r op v k c :
  h !! p = Some (BinaryExpression l r op) ->
  (forall c', h !! v <> Some (ConstantExpression c')) ->
  optimize left_first fuel v h = Some (Ret v, h) ->
  h !! k = Some (ConstantExpression c) ->
  is_zero c = true ->
  op = MULT \/ op = DIV ->
  (l = v /\ r = k) \/ (l = k /\ r = v) ->
  optimize left_first (S fuel) p h
  = Some (Ret (length h), h ++ [ConstantExpression (of_int 0)]).
Proof.
  intros Hp Hv Hov Hk Hz Hop Hcase.
  assert (Hok : optimize left_first fuel k h = Some (Ret k, h)).
  { destruct fuel as [|fuel]; [discriminate|]. by eapply optimize_constant. }
  pose proof (constant_at_None _ _ Hv) as Cv.
  assert (Ck : constant_at h k = Some c) by (unfold constant_at; by rewrite Hk).
  destruct Hcase as [[-> ->]|[-> ->]];
    rewrite (optimize_fixed_children _ _ _ _ _ _ Hp) by done;
    rewrite Cv, Ck; destruct Hop as [->| ->];
    unfold verdict_of; rewrite Hz; reflexivity.
Qed.

End OptimizeMore.

Section OptimizeGraph.
Context {T : Type} {N : Numeric T}.
Variable left_first : Operation -> bool.
Local Open Scope nat_scope.
Local Open Scope list_scope.

Local Abbreviation store := (list (node T)).

(** X15. [optimize] keeps a store acyclic: the store it leaves is acyclic
    if the one it was given is, and the pointer returned is one of its
    addresses. *)
Theorem optimize_keeps_acyclic fuel p (h : store) res h' :
  acyclic h -> optimize left_first fuel p h = Some (res, h') ->
  acyclic h' /\ (forall q, res = Ret q -> q < length h').
Proof.
  intros [rk Hwf] H.
  destruct (opt_run_post rk _ _ _ _ (optimize_opt_run _ rk _ _ _ _ _ Hwf H) Hwf)
    as (Hwf' & _ & _ & Hq).
  split; [by exists rk|]. intros q Hr. by destruct (Hq q Hr).
Qed.

Lemma keeps_div_back (h h' : store) a l' r' :
  keeps h h' -> h' !! a = Some (BinaryExpression l' r' DIV) ->
  exists l r, h !! a = Some (BinaryExpression l r DIV).
Proof.
  intros [K Knew] Ha. destruct (h !! a) as [n|] eqn:E.
  - destruct (K _ _ E) as (n' & Hn' & Kn). rewrite Ha in Hn'.
    inversion Hn'; subst n'. inversion Kn as [| | |l r op ? ? ? Hop]; subst.
    destruct Hop as [->|[_ ?]]; [eauto | discriminate].
  - destruct (Knew _ _ E Ha) as [c Hc]. discriminate.
Qed.

Lemma verdict_raise op (a b : option T) :
  verdict_of op a b = Raise -> op = DIV.
Proof.
  destruct op, a as [a|], b as [b|]; simpl; try done;
    repeat case_bool_decide; try done;
    repeat match goal with
      | |- context [if ?c then _ else _] => destruct c
      end; simpl; congruence.
Qed.

Lemma opt_run_throws p (h : store) res h' :
  opt_run p h res h' -> forall x, res = Throw x ->
  x = division_by_zero /\
  exists a l r, h !! a = Some (BinaryExpression l r DIV).
Proof.
  induction 1 as
    [ p h c Hp | p h c Hp
    | p h e func x h1 Hp Hrun1 IH1
    | p h e func e' h1 Hp Hrun1 IH1 Hp1
    | p h l r op x h1 Hp Hrun1 IH1
    | p h l r op l' h1 x h2 Hp Hrun1 IH1 Hp1 Hrun2 IH2
    | p h l r op l' h1 r' h2 res h' Hp Hrun1 IH1 Hp1 Hrun2 IH2 Hp2 Hl' Hr' Hv ];
    intros y Hy; try discriminate.
  - eauto.
  - eauto.
  - destruct (IH2 _ Hy) as [-> (a & l0 & r0 & Ha)]. split; [done|].
    exists a. eapply keeps_div_back; [|exact Ha].
    eapply keeps_trans; [exact (opt_run_keeps left_first _ _ _ _ Hrun1)|].
    eapply keeps_insert; [exact Hp1 | constructor; auto].
  - subst res.
    destruct (verdict_of op _ _) as [| | |[] c| |] eqn:V; simpl in Hv;
      inversion Hv; subst.
    apply verdict_raise in V as ->. eauto.
Qed.

(** X16. On an acyclic store the only exception [optimize] throws is
    "Division by zero", and it throws it only when the store has a [DIV]
    node. *)
Theorem optimize_throws_division fuel p (h : store) x h' :
  acyclic h -> optimize left_first fuel p h = Some (Throw x, h') ->
  x = division_by_zero /\
  exists a l r, h !! a = Some (BinaryExpression l r DIV).
Proof.
  intros [rk Hwf] H.
  by eapply opt_run_throws; [eapply optimize_opt_run|].
Qed.

Lemma verdict_keep_normal (l r : expr T) op :
  verdict_of op (is_constant l) (is_constant r) = Keep ->
  match op with
  | PLUS | MINUS => zero_constant l = false /\ zero_constant r = false
  | MULT =>
      zero_constant l = false /\ zero_constant r = false /\
      one_constant l = false /\ one_constant r = false
  | DIV =>
      zero_constant l = false /\ zero_constant r = false /\
      one_constant r = false /\
      (one_constant l = true -> is_constant r = None)
  | POW => True
  end.
Proof.
  destruct l as [a| | |], r as [b| | |]; simpl; destruct op; simpl;
    repeat case_bool_decide; try done;
    repeat match goal with
      | |- context [is_zero ?c] => destruct (is_zero c)
      | |- context [is_one ?c] => destruct (is_one c)
      end; simpl; try done; repeat case_decide; try done; intuition congruence.
Qed.

Lemma settled_normal (h : store) q :
  settled h q -> forall e, denotes h q e -> normal e.
Proof.
  induction 1 as [p v Hp|p v Hp|p c func Hp Hc IHc|p l r op Hp Hl IHl Hr IHr Hv];
    intros e He.
  - inversion He; subst; rewrite Hp in *; by simplify_eq.
  - inversion He; subst; rewrite Hp in *; by simplify_eq.
  - destruct (denotes_mono_inv _ _ _ _ _ Hp He) as (c' & -> & Hc'). simpl. auto.
  - destruct (denotes_binary_inv _ _ _ _ _ _ Hp He) as (el & er & -> & Hel & Her).
    simpl. split; [auto|]. split; [auto|].
    rewrite (denotes_constant_at _ _ _ Hel), (denotes_constant_at _ _ _ Her) in Hv.
    by apply verdict_keep_normal.
Qed.

(** X17. What [optimize] returns is in normal form: on an acyclic store,
    the expression the returned pointer denotes has no binary node with an
    operand that [optimize] would remove. *)
Theorem optimize_normal rk fuel p (h : store) q h' e' :
  wf rk h -> optimize left_first fuel p h = Some (Ret q, h') ->
  denotes h' q e' -> normal e'.
Proof.
  intros Hwf H He. eapply settled_normal; [|exact He].
  eapply (opt_run_settled left_first rk); [|exact Hwf|reflexivity].
  by eapply optimize_opt_run.
Qed.

End OptimizeGraph.

Section OptimizeRelated.
Context {T : Type} {N : Numeric T}.
Variable left_first : Operation -> bool.
Local Open Scope nat_scope.
Local Open Scope list_scope.

Local Abbreviation store := (list (node T)).

Lemma verdict_negate_left op (a b : option T) :
  verdict_of op a b = Negate -> op = MINUS /\ exists c, a = Some c.
Proof.
  destruct op, a as [a|], b as [b|]; simpl; try discriminate;
    repeat match goal with
      | |- context [if ?c then _ else _] => destruct c
      end; try discriminate; eauto.
Qed.

(** ** Relations that every rewrite respects

    Let [R] be a preorder on expressions that is kept by the two node
    constructors and that relates a binary node to each of its operands,
    to any constant, and [c - r] to [(-1) * r]. Then [optimize] moves
    every pointer of an acyclic store along [R]. *)
Section Related.
Variable R : expr T -> expr T -> Prop.
Hypothesis R_refl : forall e, R e e.
Hypothesis R_trans : forall e1 e2 e3, R e1 e2 -> R e2 e3 -> R e1 e3.
Hypothesis R_mono : forall e e' func, R e e' -> R (Mono e func) (Mono e' func).
Hypothesis R_binary : forall l l' r r' op,
  R l l' -> R r r' -> R (Binary l r op) (Binary l' r' op).
Hypothesis R_left : forall l r op, R (Binary l r op) l.
Hypothesis R_right : forall l r op, R (Binary l r op) r.
Hypothesis R_fold : forall l r op c, R (Binary l r op) (Constant c).
Hypothesis R_negate : forall c r,
  R (Binary (Constant c) r MINUS) (Binary (Constant (of_int (-1))) r MULT).

Lemma refines_by_refl (h : store) : refines_by R h h.
Proof. intros a e Ha. eauto. Qed.

Lemma refines_by_trans (h1 h2 h3 : store) :
  refines_by R h1 h2 -> refines_by R h2 h3 -> refines_by R h1 h3.
Proof.
  intros H12 H23 a e Ha. destruct (H12 _ _ Ha) as (e2 & Ha2 & C2).
  destruct (H23 _ _ Ha2) as (e3 & Ha3 & C3). eauto.
Qed.

Lemma pointer_by_refl (h : store) c : pointer_by R h c c.
Proof. intros e He. eauto. Qed.

Lemma refines_by_app (h cs : store) : refines_by R h (h ++ cs).
Proof. intros a e Ha. eauto using denotes_app. Qed.

(** Storing a node at [p] moves every pointer along [R] if it moves [p]
    along [R]. *)
Lemma refines_by_insert (h : store) p n' :
  (forall e, denotes h p e -> exists e', denotes (<[p := n']> h) p e' /\ R e e') ->
  refines_by R h (<[p := n']> h).
Proof.
  intros Hnode a e Ha.
  induction Ha as [q v Hq|q v Hq|q d func d' Hq Hd IHd|q l r op l' r' Hq Hl IHl Hr IHr].
  - destruct (decide (q = p)) as [->|Hne]; [apply Hnode; by eapply denotes_constant|].
    exists (Constant v). split; [|done]. eapply denotes_constant.
    by rewrite list_lookup_insert_ne.
  - destruct (decide (q = p)) as [->|Hne]; [apply Hnode; by eapply denotes_var|].
    exists (Var v). split; [|done]. eapply denotes_var.
    by rewrite list_lookup_insert_ne.
  - destruct (decide (q = p)) as [->|Hne]; [apply Hnode; by eapply denotes_mono|].
    destruct IHd as (e1 & He1 & C1). exists (Mono e1 func). split; [|auto].
    eapply denotes_mono; [|exact He1]. by rewrite list_lookup_insert_ne.
  - destruct (decide (q = p)) as [->|Hne]; [apply Hnode; by eapply denotes_binary|].
    destruct IHl as (e1 & He1 & C1). destruct IHr as (e2 & He2 & C2).
    exists (Binary e1 e2 op). split; [|auto].
    eapply denotes_binary; [|exact He1|exact He2]. by rewrite list_lookup_insert_ne.
Qed.

Lemma refines_by_set_expr rk (h : store) p c func c' :
  wf rk h -> h !! p = Some (MonoExpression c func) ->
  pointer_by R h c c' -> rk c' < rk p ->
  refines_by R h (<[p := MonoExpression c' func]> h).
Proof.
  intros Hwf Hp Hcov Hrk. apply refines_by_insert. intros e He.
  destruct (denotes_mono_inv _ _ _ _ _ Hp He) as (d & -> & Hd).
  destruct (Hcov _ Hd) as (d' & Hd' & C).
  exists (Mono d' func). split; [|auto].
  eapply denotes_mono;
    [apply list_lookup_insert_eq; eauto using lookup_lt_Some|].
  eapply denotes_insert; eauto.
Qed.

Lemma refines_by_set_children rk (h : store) p l r op l1 r1 :
  wf rk h -> h !! p = Some (BinaryExpression l r op) ->
  pointer_by R h l l1 -> pointer_by R h r r1 ->
  rk l1 < rk p -> rk r1 < rk p ->
  refines_by R h (<[p := BinaryExpression l1 r1 op]> h).
Proof.
  intros Hwf Hp Hcl Hcr Hrl Hrr. apply refines_by_insert. intros e He.
  destruct (denotes_binary_inv _ _ _ _ _ _ Hp He) as (el & er & -> & Hel & Her).
  destruct (Hcl _ Hel) as (e1 & He1 & C1). destruct (Hcr _ Her) as (e2 & He2 & C2).
  exists (Binary e1 e2 op). split; [|auto].
  eapply denotes_binary;
    [apply list_lookup_insert_eq; eauto using lookup_lt_Some| |];
    eapply denotes_insert; eauto.
Qed.

Lemma opt_run_related rk p (h : store) res h' :
  opt_run p h res h' -> wf rk h ->
  forall q, res = Ret q -> refines_by R h h' /\ pointer_by R h' p q.
Proof.
  induction 1 as
    [ p h c Hp | p h c Hp
    | p h e func x h1 Hp Hrun1 IH1
    | p h e func e' h1 Hp Hrun1 IH1 Hp1
    | p h l r op x h1 Hp Hrun1 IH1
    | p h l r op l' h1 x h2 Hp Hrun1 IH1 Hp1 Hrun2 IH2
    | p h l r op l' h1 r' h2 res h' Hp Hrun1 IH1 Hp1 Hrun2 IH2 Hp2 Hl' Hr' Hv ];
    intros Hwf q Hq; try discriminate.
  - inversion Hq; subst q. split; [apply refines_by_refl | apply pointer_by_refl].
  - inversion Hq; subst q. split; [apply refines_by_refl | apply pointer_by_refl].
  - inversion Hq; subst q.
    destruct (proj1 Hwf _ _ e Hp) as [He Hre]; [done|].
    destruct (opt_run_post rk _ _ _ _ Hrun1 Hwf) as (Hwf1 & Hlen1 & Hfr1 & Hq1).
    destruct (Hq1 _ eq_refl) as [He' Hre'].
    destruct (IH1 Hwf _ eq_refl) as [Href Hpc].
    split; [|apply pointer_by_refl].
    eapply refines_by_trans; [exact Href|].
    eapply refines_by_set_expr; eauto. lia.
  - subst res.
    destruct (proj1 Hwf _ _ l Hp) as [Hl Hrl]; [by left|].
    destruct (proj1 Hwf _ _ r Hp) as [Hr Hrr]; [by right|].
    destruct (opt_run_post rk _ _ _ _ Hrun1 Hwf) as (Hwf1 & Hlen1 & Hfr1 & Hq1).
    destruct (Hq1 _ eq_refl) as [Hl1 Hrl'].
    assert (Hwf1' : wf rk (<[p := BinaryExpression l' r op]> h1)).
    { eapply wf_insert; [done | exact Hp1 |]. intros c [->| ->]; split; lia. }
    destruct (opt_run_post rk _ _ _ _ Hrun2 Hwf1') as (Hwf2 & Hlen2 & Hfr2 & Hq2).
    destruct (Hq2 _ eq_refl) as [_ Hrr'].
    set (h3 := <[p := BinaryExpression l' r' op]> h2) in *.
    assert (Hp3 : h3 !! p = Some (BinaryExpression l' r' op))
      by (apply list_lookup_insert_eq; eauto using lookup_lt_Some).
    assert (Hlen3 : length h3 = length h2) by apply length_insert.
    assert (Hwf3 : wf rk h3).
    { eapply wf_insert; [done | exact Hp2 |].
      intros c [->| ->]; split; lia. }
    destruct (IH1 Hwf _ eq_refl) as [Href1 Hpc1].
    destruct (IH2 Hwf1' _ eq_refl) as [Href2 Hpc2].
    assert (Href3 : refines_by R h h3).
    { eapply refines_by_trans; [exact Href1|].
      eapply refines_by_trans;
        [eapply refines_by_set_children; eauto using pointer_by_refl; lia|].
      eapply refines_by_trans; [exact Href2|].
      eapply refines_by_set_children; eauto using pointer_by_refl; lia. }
    pose proof (lookup_lt_Some _ _ _ Hp3) as Hlt3.
    destruct (verdict_of op (constant_at h3 l') (constant_at h3 r')) as
      [| | |g c| |] eqn:V.
    + simpl in Hv. injection Hv as <- <-.
      split; [exact Href3 | apply pointer_by_refl].
    + simpl in Hv. injection Hv as <- <-.
      split; [exact Href3|]. intros ex Hex.
      destruct (denotes_binary_inv _ _ _ _ _ _ Hp3 Hex) as (el & er & -> & Hel & Her).
      eauto.
    + simpl in Hv. injection Hv as <- <-.
      split; [exact Href3|]. intros ex Hex.
      destruct (denotes_binary_inv _ _ _ _ _ _ Hp3 Hex) as (el & er & -> & Hel & Her).
      eauto.
    + assert (Hfold : exists cs : store,
                 h' = h3 ++ cs /\ h' !! q = Some (ConstantExpression c)).
      { destruct g; simpl in Hv; injection Hv as <- <-.
        - exists [ConstantExpression (of_int 0); ConstantExpression c].
          split; [done|]. rewrite lookup_app_r by lia.
          by replace (S (length h3) - length h3) with 1 by lia.
        - exists [ConstantExpression c]. split; [done|]. apply lookup_snoc. }
      destruct Hfold as (cs & -> & Hq0). split.
      * eapply refines_by_trans; [exact Href3 | apply refines_by_app].
      * intros ex Hex.
        assert (Hp' : (h3 ++ cs) !! p = Some (BinaryExpression l' r' op))
          by (by rewrite lookup_app_l).
        destruct (denotes_binary_inv _ _ _ _ _ _ Hp' Hex) as (el & er & -> & Hel & Her).
        exists (Constant c). split; [by eapply denotes_constant | done].
    + apply verdict_negate_left in V as [-> [c Hc]].
      apply constant_at_Some in Hc.
      simpl in Hv. injection Hv as <- <-.
      set (h4 := h3 ++ [ConstantExpression (of_int (-1))]) in *.
      set (h5 := <[p := BinaryExpression (length h3) r' MULT]> h4) in *.
      assert (Hlen4 : length h4 = S (length h3))
        by (unfold h4; rewrite length_app; simpl; lia).
      assert (Hwf4 : wf rk h4) by (by apply wf_snoc).
      assert (Hp4 : h4 !! p = Some (BinaryExpression l' r' MINUS))
        by (unfold h4; by rewrite lookup_app_l).
      assert (Hp5 : h5 !! p = Some (BinaryExpression (length h3) r' MULT))
        by (apply list_lookup_insert_eq; lia).
      assert (Href5 : refines_by R h4 h5).
      { apply refines_by_insert. intros ex Hex.
        destruct (denotes_binary_inv _ _ _ _ _ _ Hp4 Hex) as (el & er & -> & Hel & Her).
        assert (el = Constant c) as ->.
        { inversion Hel; subst;
            match goal with
            | H : h4 !! l' = Some _ |- _ =>
                unfold h4 in H; rewrite lookup_app_l in H by lia;
                rewrite Hc in H; by inversion H
            end. }
        exists (Binary (Constant (of_int (-1))) er MULT). split; [|apply R_negate].
        eapply denotes_binary; [exact Hp5| |].
        - eapply denotes_constant. unfold h5.
          rewrite list_lookup_insert_ne by lia. apply lookup_snoc.
        - eapply denotes_insert; [exact Hwf4 | exact Her | lia]. }
      split.
      * eapply refines_by_trans; [exact Href3|].
        eapply refines_by_trans; [apply refines_by_app|].
        eapply refines_by_trans; [exact Href5 | apply refines_by_app].
      * intros ex Hex.
        assert (Hp' : (h5 ++ [ConstantExpression (of_int 0)]) !! p
                      = Some (BinaryExpression (length h3) r' MULT)).
        { rewrite lookup_app_l by (unfold h5; rewrite length_insert; lia). done. }
        destruct (denotes_binary_inv _ _ _ _ _ _ Hp' Hex) as (el & er & -> & Hel & Her).
        exists (Constant (of_int 0)). split; [|done].
        eapply denotes_constant.
        replace (S (length h3)) with (length h5)
          by (unfold h5; rewrite length_insert; lia).
        apply lookup_snoc.
    + simpl in Hv. discriminate.
Qed.

Lemma optimize_related rk fuel p (h : store) q h' e :
  wf rk h -> denotes h p e ->
  optimize left_first fuel p h = Some (Ret q, h') ->
  exists e', denotes h' q e' /\ R e e'.
Proof.
  intros Hwf He H.
  destruct (opt_run_related rk _ _ _ _
              (optimize_opt_run left_first rk _ _ _ _ _ Hwf H) Hwf q eq_refl)
    as [Href Hpc].
  destruct (Href _ _ He) as (e1 & He1 & C1).
  destruct (Hpc _ He1) as (e2 & He2 & C2). eauto.
Qed.

End Related.

(** X18. [optimize] never returns a larger expression: on an acyclic
    store, the pointer returned denotes an expression with at most as many
    nodes as the expression the argument denoted. *)
Theorem optimize_no_larger rk fuel p (h : store) q h' e :
  wf rk h -> denotes h p e ->
  optimize left_first fuel p h = Some (Ret q, h') ->
  exists e', denotes h' q e' /\ size e' <= size e.
Proof.
  apply (optimize_related (fun e e' => size e' <= size e)); simpl; intros; lia.
Qed.

(** X19. [optimize] brings in no variable: on an acyclic store, every
    variable of the expression the returned pointer denotes is a variable
    of the expression the argument denoted. *)
Theorem optimize_variables rk fuel p (h : store) q h' e :
  wf rk h -> denotes h p e ->
  optimize left_first fuel p h = Some (Ret q, h') ->
  exists e', denotes h' q e' /\ forall n, occurs n e' -> occurs n e.
Proof.
  apply (optimize_related (fun e e' => forall n, occurs n e' -> occurs n e));
    simpl; intros; intuition eauto.
Qed.

End OptimizeRelated.

(** * Integer constants over [double] *)

Section IntegerConstants.
Local Open Scope Z_scope.

Lemma digits2_pos_le (p : positive) : forall k,
  0 <= k -> Zpos p < 2 ^ k -> Zpos (digits2_pos p) <= k.
Proof.
  induction p as [p IH|p IH|]; intros k Hk Hp; simpl.
  - destruct (Z.eq_dec k 0) as [->|Hne]; [simpl in Hp; lia|].
    rewrite Pos2Z.inj_succ. specialize (IH (k - 1)).
    replace (2 ^ k) with (2 * 2 ^ (k - 1)) in Hp
      by (rewrite <- Z.pow_succ_r by lia; f_equal; lia).
    lia.
  - destruct (Z.eq_dec k 0) as [->|Hne]; [simpl in Hp; lia|].
    rewrite Pos2Z.inj_succ. specialize (IH (k - 1)).
    replace (2 ^ k) with (2 * 2 ^ (k - 1)) in Hp
      by (rewrite <- Z.pow_succ_r by lia; f_equal; lia).
    lia.
  - destruct (Z.eq_dec k 0) as [->|Hne]; [simpl in Hp; lia|]. lia.
Qed.

Lemma iter_xO_shiftl (p k : positive) :
  Zpos (Pos.iter xO p k) = Z.shiftl (Zpos p) (Zpos k).
Proof. simpl. by rewrite (Pos.iter_swap_gen _ _ Zpos xO (Z.mul 2)). Qed.

Lemma digits2_pos_iter_xO (p k : positive) :
  Zpos (digits2_pos (Pos.iter xO p k)) = Zpos (digits2_pos p) + Zpos k.
Proof.
  induction k as [|k IH] using Pos.peano_ind.
  - simpl. lia.
  - rewrite Pos.iter_succ. simpl. rewrite Pos2Z.inj_succ, IH. lia.
Qed.

(** The double an integer below 2^53 converts to: the integer itself, with
    its mantissa shifted to 53 bits. *)
Lemma Prim2SF_of_pos (s : bool) (p : positive) :
  Zpos p < 2 ^ 53 ->
  exists m e,
    binary_round prec emax s p 0 = S754_finite s m e /\
    e <= 0 /\ Zpos m = Z.shiftl (Zpos p) (- e).
Proof.
  intros Hp. pose proof (digits2_pos_le p 53 ltac:(lia) Hp) as Hd.
  unfold binary_round, shl_align, fexp, emin, prec, emax.
  set (d := Zpos (digits2_pos p)) in *.
  assert (Hd0 : 0 < d) by (unfold d; lia).
  replace (Z.max (d + 0 - 53) (3 - 1024 - 53)) with (d - 53) by lia.
  destruct (d - 53 - 0) as [|k|k] eqn:Ek; try lia.
  - exists p, 0. split; [|split; [lia | done]].
    unfold binary_round_aux, shr_fexp, fexp, emin. simpl Zdigits2. fold d.
    replace (Z.max (d + 0 - 53) (3 - 1024 - 53) - 0) with 0 by lia. simpl.
    fold d. replace (Z.max (d + 0 - 53) (3 - 1024 - 53) - 0) with 0 by lia.
    simpl. done.
  - exists (Pos.iter xO p k), (d - 53).
    assert (Hk : d - 53 = - Zpos k) by lia.
    split; [|split; [lia|]].
    + unfold binary_round_aux, shr_fexp, fexp, emin. simpl Zdigits2.
      rewrite digits2_pos_iter_xO. fold d.
      replace (Z.max (d + Z.pos k + (d - 53) - 53) (3 - 1024 - 53) - (d - 53))
        with 0 by lia.
      simpl. rewrite digits2_pos_iter_xO. fold d.
      replace (Z.max (d + Z.pos k + (d - 53) - 53) (3 - 1024 - 53) - (d - 53))
        with 0 by lia.
      simpl. by rewrite (proj2 (Z.leb_le (d - 53) (1024 - 53))) by lia.
    + rewrite Hk, Z.opp_involutive. apply iter_xO_shiftl.
Qed.

Lemma to_string_optimized_finite s m e (a : float) (p : positive) :
  Prim2SF a = S754_finite s m e -> e <= 0 ->
  Zpos m = Z.shiftl (Zpos p) (- e) -> Zpos p < 2 ^ 53 ->
  Double.to_string_optimized a
  = Some (Double.string_of_long (if s then Zneg p else Zpos p)).
Proof.
  intros Ha He Hm Hp. unfold Double.to_string_optimized. rewrite Ha.
  assert (Hn : Z.shiftl (Zpos m) e = Zpos p).
  { rewrite Hm. rewrite <- (Z.opp_involutive e) at 2.
    rewrite <- Z.shiftr_opp_r, Z.opp_involutive.
    rewrite Z.shiftr_shiftl_l by lia. by rewrite Z.sub_diag. }
  cbv zeta. rewrite Hn, <- Hm, Z.eqb_refl.
  assert (2 ^ 53 < 2 ^ 63) by (apply Z.pow_lt_mono_r; lia).
  destruct s.
  - change (- Zpos p) with (Zneg p).
    rewrite (proj2 (Z.leb_le (- 2 ^ 63) (Zneg p))) by lia.
    by rewrite (proj2 (Z.ltb_lt (Zneg p) (2 ^ 63))) by lia.
  - rewrite (proj2 (Z.leb_le (- 2 ^ 63) (Zpos p))) by lia.
    by rewrite (proj2 (Z.ltb_lt (Zpos p) (2 ^ 63))) by lia.
Qed.

Lemma Prim2SF_of_uint63_pos (p : positive) :
  Zpos p < 2 ^ 53 ->
  Prim2SF (of_uint63 (Uint63.of_Z (Zpos p))) = binary_round prec emax false p 0.
Proof.
  intros Hp. rewrite FloatAxioms.of_uint63_spec, Uint63.of_Z_spec.
  assert (2 ^ 53 < wB) by (by vm_compute).
  rewrite Z.mod_small by lia. done.
Qed.

(** X20. A [double] constant made from an integer of less than 54 bits
    renders as the decimal numeral of the integer, in parentheses when it
    is negative: no decimal point and no fraction. *)
Theorem constant_of_int_to_string (m : Double.libm) (n : Z) :
  - 2 ^ 53 < n < 2 ^ 53 ->
  to_string (N := Double.numeric m) (Constant (Double.of_Z n))
  = Some (if n <? 0 then "(" ++ Double.string_of_long n ++ ")"
          else Double.string_of_long n).
Proof.
  intros Hn. change (to_string (N := Double.numeric m) (Constant (Double.of_Z n)))
    with (Double.to_string (Double.of_Z n)).
  destruct n as [|p|p].
  - reflexivity.
  - assert (Hp : Zpos p < 2 ^ 53) by lia.
    destruct (Prim2SF_of_pos false p Hp) as (mx & e & Hb & He & Hm).
    unfold Double.to_string, Double.of_Z.
    rewrite (to_string_optimized_finite false mx e _ p); try done.
    + rewrite FloatAxioms.ltb_spec, Prim2SF_of_uint63_pos, Hb by done. reflexivity.
    + by rewrite Prim2SF_of_uint63_pos.
  - assert (Hp : Zpos p < 2 ^ 53) by lia.
    destruct (Prim2SF_of_pos false p Hp) as (mx & e & Hb & He & Hm).
    unfold Double.to_string, Double.of_Z.
    rewrite (to_string_optimized_finite true mx e _ p); try done.
    + rewrite FloatAxioms.ltb_spec, FloatAxioms.opp_spec, Prim2SF_of_uint63_pos, Hb by done. reflexivity.
    + by rewrite FloatAxioms.opp_spec, Prim2SF_of_uint63_pos, Hb.
Qed.

(** X21. A [std::complex<double>] constant made from an integer of less
    than 54 bits renders as the decimal numeral of the integer and is never
    put in parentheses, unlike a negative [double] constant. *)
Theorem complex_constant_of_int_to_string (m : Complex.cmath) (n : Z) :
  - 2 ^ 53 < n < 2 ^ 53 ->
  to_string (N := Complex.numeric m) (Constant (Double.of_Z n, 0%float))
  = Some (Double.string_of_long n).
Proof.
  intros Hn.
  change (to_string (N := Complex.numeric m) (Constant (Double.of_Z n, 0%float)))
    with (Complex.to_string (Double.of_Z n, 0%float)).
  unfold Complex.to_string, Complex.nonzero. cbn [fst snd].
  change (PrimFloat.eqb 0 0) with true. rewrite andb_false_r, andb_true_r.
  destruct n as [|p|p].
  - reflexivity.
  - assert (Hp : Zpos p < 2 ^ 53) by lia.
    destruct (Prim2SF_of_pos false p Hp) as (mx & e & Hb & He & Hm).
    unfold Double.of_Z.
    rewrite FloatAxioms.eqb_spec, Prim2SF_of_uint63_pos, Hb by done.
    change (SFeqb (S754_finite false mx e) (Prim2SF 0)) with false. cbv iota.
    rewrite (to_string_optimized_finite false mx e _ p); try done.
    by rewrite Prim2SF_of_uint63_pos.
  - assert (Hp : Zpos p < 2 ^ 53) by lia.
    destruct (Prim2SF_of_pos false p Hp) as (mx & e & Hb & He & Hm).
    unfold Double.of_Z.
    rewrite FloatAxioms.eqb_spec, FloatAxioms.opp_spec, Prim2SF_of_uint63_pos, Hb by done.
    change (SFeqb (SFopp (S754_finite false mx e)) (Prim2SF 0)) with false. cbv iota.
    rewrite (to_string_optimized_finite true mx e _ p); try done.
    by rewrite FloatAxioms.opp_spec, Prim2SF_of_uint63_pos, Hb.
Qed.
End IntegerConstants.

(** * [optimize] and the value of an expression *)

Section SimplifyFacts.
Context {T : Type} {N : Numeric T}.
Variable left_first : Operation -> bool.
Local Open Scope nat_scope.
Local Open Scope list_scope.

Local Abbreviation store := (list (node T)).




















End SimplifyFacts.

(** * What [optimize] writes *)

Section OptimizeWrites.
Context {T : Type} {N : Numeric T}.
Variable left_first : Operation -> bool.
Local Open Scope nat_scope.
Local Open Scope list_scope.

Local Abbreviation store := (list (node T)).

Lemma verdict_negate_iff op (a b : option T) :
  verdict_of op a b = Negate <->
  op = MINUS /\ (exists c, a = Some c /\ is_zero c = true) /\ b = None.
Proof.
  split.
  - intros H. pose proof (verdict_negate _ _ _ H) as ->. split; [done|].
    destruct a as [a|], b as [b|]; simpl in H;
      repeat match type of H with
        | context [if ?c then _ else _] => destruct c eqn:?
        end; try discriminate.
    split; [eauto | done].
  - intros (-> & (c & -> & Hc) & ->). simpl. by rewrite Hc.
Qed.

Lemma constant_at_None_iff (h : store) v :
  constant_at h v = None <-> forall c, h !! v <> Some (ConstantExpression c).
Proof.
  unfold constant_at. split.
  - intros H c E. by rewrite E in H.
  - intros H. destruct (h !! v) as [[c| | |]|] eqn:E; try done. by destruct (H c).
Qed.

(** The fields of the node [optimize] is called on, after the call, in a
    store without cycles. *)
Lemma optimize_writes rk fuel p (h : store) q h' :
  wf rk h -> optimize left_first fuel p h = Some (Ret q, h') ->
  (forall e func, h !! p = Some (MonoExpression e func) ->
     q = p /\
     exists e' h1,
       (forall f, rk e < f -> optimize left_first f e h = Some (Ret e', h1)) /\
       h' = <[p := MonoExpression e' func]> h1) /\
  (forall l r op, h !! p = Some (BinaryExpression l r op) ->
     exists l' h1 r' h2,
       (forall f, rk l < f -> optimize left_first f l h = Some (Ret l', h1)) /\
       (forall f, rk r < f ->
          optimize left_first f r (<[p := BinaryExpression l' r op]> h1)
          = Some (Ret r', h2)) /\
       ((op = MINUS /\
         (exists c, h2 !! l' = Some (ConstantExpression c) /\ is_zero c = true) /\
         (forall c, h2 !! r' <> Some (ConstantExpression c)) ->
         h' !! p = Some (BinaryExpression (length h2) r' MULT) /\
         h' !! length h2 = Some (ConstantExpression (of_int (-1)))) /\
        (~ (op = MINUS /\
            (exists c, h2 !! l' = Some (ConstantExpression c) /\ is_zero c = true) /\
            (forall c, h2 !! r' <> Some (ConstantExpression c))) ->
         h' !! p = Some (BinaryExpression l' r' op)))).
Proof.
  intros Hwf H. pose proof (optimize_opt_run left_first rk _ _ _ _ _ Hwf H) as Hrun.
  split.
  - intros e0 func0 Hp0.
    inversion Hrun as
      [ ? ? c Hp | ? ? c Hp
      | ? ? e func x h1 Hp Hrun1
      | ? ? e func e' h1 Hp Hrun1 Hp1
      | ? ? l r op x h1 Hp Hrun1
      | ? ? l r op l' h1 x h2 Hp Hrun1 Hp1 Hrun2
      | ? ? l r op l' h1 r' h2 ? ? Hp Hrun1 Hp1 Hrun2 Hp2 Hl' Hr' Hv ];
      subst; rewrite Hp0 in Hp; try discriminate.
    inversion Hp; subst e func. split; [done|].
    exists e', h1. split; [|done].
    intros f Hf. eapply opt_run_fuel; eauto.
  - intros l0 r0 op0 Hp0.
    inversion Hrun as
      [ ? ? c Hp | ? ? c Hp
      | ? ? e func x h1 Hp Hrun1
      | ? ? e func e' h1 Hp Hrun1 Hp1
      | ? ? l r op x h1 Hp Hrun1
      | ? ? l r op l' h1 x h2 Hp Hrun1 Hp1 Hrun2
      | ? ? l r op l' h1 r' h2 ? ? Hp Hrun1 Hp1 Hrun2 Hp2 Hl' Hr' Hv ];
      subst; rewrite Hp0 in Hp; try discriminate.
    inversion Hp; subst l r op. clear Hp.
    destruct (proj1 Hwf _ _ l0 Hp0) as [Hl Hrl]; [by left|].
    destruct (proj1 Hwf _ _ r0 Hp0) as [Hr Hrr]; [by right|].
    destruct (opt_run_post rk _ _ _ _ Hrun1 Hwf) as (Hwf1 & Hlen1 & Hfr1 & Hq1).
    destruct (Hq1 _ eq_refl) as [Hl1 Hrl'].
    assert (Hwf1' : wf rk (<[p := BinaryExpression l' r0 op0]> h1)).
    { eapply wf_insert; [done | exact Hp1 |]. intros c [->| ->]; split; lia. }
    destruct (opt_run_post rk _ _ _ _ Hrun2 Hwf1') as (Hwf2 & Hlen2 & Hfr2 & Hq2).
    destruct (Hq2 _ eq_refl) as [_ Hrr'].
    exists l', h1, r', h2.
    split; [intros f Hf; eapply opt_run_fuel; eauto|].
    split; [intros f Hf; eapply opt_run_fuel; eauto|].
    set (h3 := <[p := BinaryExpression l' r' op0]> h2) in *.
    assert (Hp3 : h3 !! p = Some (BinaryExpression l' r' op0))
      by (apply list_lookup_insert_eq; eauto using lookup_lt_Some).
    assert (Hlen3 : length h3 = length h2) by apply length_insert.
    pose proof (lookup_lt_Some _ _ _ Hp3) as Hlt3.
    assert (Hl3 : h3 !! l' = h2 !! l')
      by (apply list_lookup_insert_ne; intros ->; lia).
    assert (Hr3 : h3 !! r' = h2 !! r')
      by (apply list_lookup_insert_ne; intros ->; lia).
    assert (Hneg : verdict_of op0 (constant_at h3 l') (constant_at h3 r') = Negate <->
              op0 = MINUS /\
              (exists c, h2 !! l' = Some (ConstantExpression c) /\ is_zero c = true) /\
              (forall c, h2 !! r' <> Some (ConstantExpression c))).
    { rewrite verdict_negate_iff, constant_at_None_iff, Hr3.
      split; intros (Hop & (c & Hc & Hz) & Hn); (split; [done|]); (split; [|done]);
        exists c; (split; [|done]).
      - apply constant_at_Some in Hc. by rewrite <- Hl3.
      - apply constant_at_Some. by rewrite Hl3. }
    split.
    + intros Hc. apply Hneg in Hc. rewrite Hc in Hv. simpl in Hv.
      injection Hv as _ <-. rewrite <- Hlen3. split.
      * rewrite lookup_app_l by (rewrite length_insert, length_app; simpl; lia).
        apply list_lookup_insert_eq. rewrite length_app. simpl. lia.
      * rewrite lookup_app_l by (rewrite length_insert, length_app; simpl; lia).
        rewrite list_lookup_insert_ne by lia. apply lookup_snoc.
    + intros Hc. rewrite <- Hneg in Hc.
      destruct (verdict_of op0 (constant_at h3 l') (constant_at h3 r')) as
        [| | |[] c| |]; simpl in Hv; try done; injection Hv as _ <-;
        rewrite ?lookup_app_l by lia; done.
Qed.

(** C9, as the code has it. [optimize] assigns to the nodes it is given.
    What a call keeps, whether it returns or throws: a constant or a
    variable is as before, no node changes class, a unary node keeps its
    function, a binary node keeps its operation unless a [MINUS] has
    become a [MULT], and the only nodes allocated are constants. What a
    call that returns has written, in a store without cycles: called on a
    unary node, it returns that node, with the pointer that [optimize]
    returned for the operand stored into its operand field; called on a
    binary node, it has stored into [left] the pointer that [optimize]
    returned for the left operand, then into [right] the pointer that
    [optimize] returned for the right operand; and where the operation is
    [MINUS], the new left operand is a constant equal to 0 and the new
    right operand is no constant, the node has become a [MULT] with a new
    constant -1 on the left. *)
Theorem optimize_assigns_in_place fuel expr (h : store) res h' :
  optimize left_first fuel expr h = Some (res, h') ->
  (forall a value, h !! a = Some (ConstantExpression value) ->
                   h' !! a = Some (ConstantExpression value)) /\
  (forall a value, h !! a = Some (VarExpression value) ->
                   h' !! a = Some (VarExpression value)) /\
  (forall a e func, h !! a = Some (MonoExpression e func) ->
                    exists e', h' !! a = Some (MonoExpression e' func)) /\
  (forall a l r op, h !! a = Some (BinaryExpression l r op) ->
                    exists l' r' op',
                      h' !! a = Some (BinaryExpression l' r' op') /\
                      (op' = op \/ (op = MINUS /\ op' = MULT))) /\
  (forall a n, h !! a = None -> h' !! a = Some n ->
               exists value, n = ConstantExpression value) /\
  (forall rk q, wf rk h -> res = Ret q ->
     (forall e func, h !! expr = Some (MonoExpression e func) ->
        q = expr /\
        exists e' h1,
          (forall f, rk e < f ->
             optimize left_first f e h = Some (Ret e', h1)) /\
          h' = <[expr := MonoExpression e' func]> h1) /\
     (forall l r op, h !! expr = Some (BinaryExpression l r op) ->
        exists l' h1 r' h2,
          (forall f, rk l < f ->
             optimize left_first f l h = Some (Ret l', h1)) /\
          (forall f, rk r < f ->
             optimize left_first f r (<[expr := BinaryExpression l' r op]> h1)
             = Some (Ret r', h2)) /\
          ((op = MINUS /\
            (exists c, h2 !! l' = Some (ConstantExpression c) /\
                       is_zero c = true) /\
            (forall c, h2 !! r' <> Some (ConstantExpression c)) ->
            h' !! expr = Some (BinaryExpression (length h2) r' MULT) /\
            h' !! length h2 = Some (ConstantExpression (of_int (-1)))) /\
           (~ (op = MINUS /\
               (exists c, h2 !! l' = Some (ConstantExpression c) /\
                          is_zero c = true) /\
               (forall c, h2 !! r' <> Some (ConstantExpression c))) ->
            h' !! expr = Some (BinaryExpression l' r' op))))).
Proof.
  intros H. destruct (optimize_keeps left_first _ _ _ _ _ H) as [K Knew].
  repeat apply conj.
  - intros a value Ha. destruct (K _ _ Ha) as (n' & Hn' & Kn). by inversion Kn; subst.
  - intros a value Ha. destruct (K _ _ Ha) as (n' & Hn' & Kn). by inversion Kn; subst.
  - intros a e func Ha. destruct (K _ _ Ha) as (n' & Hn' & Kn).
    inversion Kn; subst. eauto.
  - intros a l r op Ha. destruct (K _ _ Ha) as (n' & Hn' & Kn).
    inversion Kn; subst. eauto 6.
  - exact Knew.
  - intros rk q Hwf ->. exact (optimize_writes rk fuel expr h q h' Hwf H).
Qed.

End OptimizeWrites.

(** * Further properties, on closed inputs *)

Lemma eval_throws_division_witness :
  (eval (N := double) left_to_right
        (Binary (Var "x") (Constant 0%float) DIV) {[ "x" := 1%float ]}).1
    = Throw division_by_zero /\
  division_by_zero = division_by_zero /\
  has_div (Binary (Var "x") (Constant 0%float) DIV) = true.
Proof.
  split; [reflexivity|].
  exact (eval_throws_division (N := double) left_to_right
           (Binary (Var "x") (Constant 0%float) DIV) {[ "x" := 1%float ]}
           division_by_zero eq_refl).
Defined.

Lemma eval_again_witness :
  eval (N := double) left_to_right (Var "y") {[ "x" := 1%float ]}
    = (Ret 0%float, <[ "y" := 0%float ]> {[ "x" := 1%float ]}) /\
  (<[ "y" := 0%float ]> {[ "x" := 1%float ]} : gmap string float)
    ⊆ <[ "y" := 0%float ]> {[ "x" := 1%float ]} /\
  eval (N := double) left_to_right (Var "y")
       (<[ "y" := 0%float ]> {[ "x" := 1%float ]})
    = (Ret 0%float, <[ "y" := 0%float ]> {[ "x" := 1%float ]}).
Proof.
  split; [reflexivity|]. split; [reflexivity|].
  exact (eval_again (N := double) left_to_right (Var "y") {[ "x" := 1%float ]}
           (Ret 0%float) _ _ eq_refl (reflexivity _)).
Defined.

Lemma eval_bound_keeps_table_witness :
  (forall n, occurs n (Binary (Var "x") (Constant 2%float) PLUS) ->
             is_Some (({[ "x" := 1%float ]} : gmap string float) !! n)) /\
  (eval (N := double) left_to_right
        (Binary (Var "x") (Constant 2%float) PLUS) {[ "x" := 1%float ]}).2
    = {[ "x" := 1%float ]}.
Proof.
  assert (H : forall n, occurs n (Binary (Var "x") (Constant 2%float) PLUS) ->
                is_Some (({[ "x" := 1%float ]} : gmap string float) !! n)).
  { intros n [<-|[]]. by eexists. }
  split; [exact H|].
  exact (eval_bound_keeps_table (N := double) left_to_right _ _ H).
Defined.

Lemma diff_variables_witness :
  diff (N := double) "x" (Binary (Var "x") (Var "y") MULT)
    = Ret (Binary (Binary (Constant 1%float) (Var "y") MULT)
                  (Binary (Var "x") (Constant 0%float) MULT) PLUS) /\
  occurs "y" (Binary (Binary (Constant 1%float) (Var "y") MULT)
                     (Binary (Var "x") (Constant 0%float) MULT) PLUS) /\
  occurs (T := float) "y" (Binary (Var "x") (Var "y") MULT).
Proof.
  split; [reflexivity|].
  assert (H : occurs (T := float) "y" (Binary (Binary (Constant 1%float) (Var "y") MULT)
                            (Binary (Var "x") (Constant 0%float) MULT) PLUS))
    by (simpl; auto).
  split; [exact H|].
  exact (diff_variables (N := double) "x" (Binary (Var "x") (Var "y") MULT)
           (Binary (Binary (Constant 1%float) (Var "y") MULT)
                   (Binary (Var "x") (Constant 0%float) MULT) PLUS)
           "y" eq_refl H).
Defined.

Lemma diff_pow_exponent_witness :
  ordered (Numeric := double) = Some Double.order /\
  is_constant (Var (T := float) "x") = None /\
  exists left_diff right_diff,
    diff (N := double) "x" (Constant 2%float) = Ret left_diff /\
    diff (N := double) "x" (Var "x") = Ret right_diff /\
    diff (N := double) "x" (Binary (Constant 2%float) (Var "x") POW)
    = Ret (Binary right_diff
             (Binary (Binary (Constant 2%float) (Var "x") POW)
                     (Mono (Constant 2%float) LN) MULT) MULT).
Proof.
  split; [reflexivity|]. split; [reflexivity|].
  exact (diff_pow_exponent (N := double) Double.order "x" (Constant 2%float)
           (Var "x") eq_refl eq_refl).
Defined.

Lemma to_string_mono_witness :
  to_string (N := double) (Mono (Binary (Var "x") (Constant 2%float) PLUS) SIN)
    = Some "sin(x + 2)" /\
  exists body,
    "sin(x + 2)" = func_name SIN ++ "(" ++ body ++ ")" /\
    to_string (N := double) (Binary (Var "x") (Constant 2%float) PLUS)
    = Some ("(" ++ body ++ ")").
Proof.
  split; [reflexivity|].
  exact (to_string_mono (N := double)
           (Binary (Var "x") (Constant 2%float) PLUS) SIN "sin(x + 2)" eq_refl).
Defined.

Lemma optimize_mult_constants_witness :
  two_times_one !! 2%nat = Some (BinaryExpression 0 1 MULT) /\
  two_times_one !! 0%nat = Some (ConstantExpression 2%float) /\
  two_times_one !! 1%nat = Some (ConstantExpression 1%float) /\
  optimize (N := double) left_to_right 2 2 two_times_one
    = Some (Ret 3%nat, (two_times_one ++ [ConstantExpression 2%float])%list).
Proof.
  do 3 (split; [reflexivity|]).
  exact (optimize_mult_constants (N := double) left_to_right 0 2 two_times_one
           0 1 2%float 1%float eq_refl eq_refl eq_refl).
Defined.

Lemma optimize_div_constants_witness :
  one_over_zero !! 2%nat = Some (BinaryExpression 0 1 DIV) /\
  one_over_zero !! 0%nat = Some (ConstantExpression 1%float) /\
  one_over_zero !! 1%nat = Some (ConstantExpression 0%float) /\
  optimize (N := double) left_to_right 2 2 one_over_zero
    = Some (Throw division_by_zero, one_over_zero).
Proof.
  do 3 (split; [reflexivity|]).
  exact (optimize_div_constants (N := double) left_to_right 0 2 one_over_zero
           0 1 1%float 0%float eq_refl eq_refl eq_refl).
Defined.

Lemma optimize_neutral_witness :
  sin_x_plus_zero !! 2%nat = Some (BinaryExpression 0 1 PLUS) /\
  (forall c', sin_x_plus_zero !! 0%nat <> Some (ConstantExpression c')) /\
  optimize (N := double) left_to_right 1 0 sin_x_plus_zero
    = Some (Ret 0%nat, sin_x_plus_zero) /\
  sin_x_plus_zero !! 1%nat = Some (ConstantExpression 0%float) /\
  is_zero (N := double) 0%float = true /\
  optimize (N := double) left_to_right 2 2 sin_x_plus_zero
    = Some (Ret 0%nat, sin_x_plus_zero).
Proof.
  assert (H : forall c', sin_x_plus_zero !! 0%nat <> Some (ConstantExpression c'))
    by (intros c' E; discriminate E).
  split; [reflexivity|]. split; [exact H|]. do 3 (split; [reflexivity|]).
  exact (optimize_neutral (N := double) left_to_right 1 2 sin_x_plus_zero
           0 1 PLUS 0 1 0%float eq_refl H eq_refl eq_refl
           (or_introl (conj eq_refl (conj eq_refl
              (or_introl (conj (or_introl eq_refl) eq_refl)))))).
Defined.

Lemma optimize_absorbing_witness :
  x_times_zero !! 2%nat = Some (BinaryExpression 0 1 MULT) /\
  (forall c', x_times_zero !! 0%nat <> Some (ConstantExpression c')) /\
  optimize (N := double) left_to_right 1 0 x_times_zero
    = Some (Ret 0%nat, x_times_zero) /\
  x_times_zero !! 1%nat = Some (ConstantExpression 0%float) /\
  is_zero (N := double) 0%float = true /\
  optimize (N := double) left_to_right 2 2 x_times_zero
    = Some (Ret 3%nat, (x_times_zero ++ [ConstantExpression 0%float])%list).
Proof.
  assert (H : forall c', x_times_zero !! 0%nat <> Some (ConstantExpression c'))
    by (intros c' E; discriminate E).
  split; [reflexivity|]. split; [exact H|]. do 3 (split; [reflexivity|]).
  exact (optimize_absorbing (N := double) left_to_right 1 2 x_times_zero
           0 1 MULT 0 1 0%float eq_refl H eq_refl eq_refl eq_refl
           (or_introl eq_refl) (or_introl (conj eq_refl eq_refl))).
Defined.

Lemma one_over_zero_wf : wf (rank_of [0; 0; 1]%nat) one_over_zero.
Proof.
  split.
  - intros [|[|[|p]]] n c Hn Hc; simpl in Hn; inversion Hn; subst; simpl in Hc;
      try done.
    destruct Hc as [->| ->]; simpl; unfold rank_of; simpl; lia.
  - intros a Ha. simpl in Ha. unfold rank_of.
    do 3 (destruct a as [|a]; [lia|]). by destruct a.
Qed.

Lemma x_plus_zero_times_two_wf :
  wf (rank_of [0; 0; 1; 0; 2]%nat) x_plus_zero_times_two.
Proof.
  split.
  - intros [|[|[|[|[|p]]]]] n c Hn Hc; simpl in Hn; inversion Hn; subst;
      simpl in Hc; try done;
      destruct Hc as [->| ->]; simpl; unfold rank_of; simpl; lia.
  - intros a Ha. simpl in Ha. unfold rank_of.
    do 5 (destruct a as [|a]; [lia|]). by destruct a.
Qed.

Lemma x_plus_zero_times_two_denotes :
  denotes x_plus_zero_times_two 4
    (Binary (Binary (Var "x") (Constant 0%float) PLUS) (Constant 2%float) MULT).
Proof.
  eapply denotes_binary; [reflexivity| |].
  - eapply denotes_binary; [reflexivity| |].
    + by eapply denotes_var.
    + by eapply denotes_constant.
  - by eapply denotes_constant.
Qed.

Lemma x_times_two_denotes :
  denotes x_times_two 4 (Binary (Var "x") (Constant 2%float) MULT).
Proof.
  eapply denotes_binary; [reflexivity| |].
  - by eapply denotes_var.
  - by eapply denotes_constant.
Qed.

Lemma optimize_keeps_acyclic_witness :
  acyclic x_plus_zero_times_two /\
  optimize (N := double) left_to_right 3 4 x_plus_zero_times_two
    = Some (Ret 4%nat, x_times_two) /\
  acyclic x_times_two /\
  (forall q, Ret 4%nat = Ret q -> (q < length x_times_two)%nat).
Proof.
  assert (A : acyclic x_plus_zero_times_two)
    by (exists (rank_of [0; 0; 1; 0; 2]%nat); exact x_plus_zero_times_two_wf).
  split; [exact A|]. split; [reflexivity|].
  exact (optimize_keeps_acyclic (N := double) left_to_right 3 4
           x_plus_zero_times_two (Ret 4%nat) x_times_two A eq_refl).
Defined.

Lemma optimize_throws_division_witness :
  acyclic one_over_zero /\
  optimize (N := double) left_to_right 2 2 one_over_zero
    = Some (Throw division_by_zero, one_over_zero) /\
  division_by_zero = division_by_zero /\
  exists a l r, one_over_zero !! a = Some (BinaryExpression l r DIV).
Proof.
  assert (A : acyclic one_over_zero)
    by (exists (rank_of [0; 0; 1]%nat); exact one_over_zero_wf).
  split; [exact A|]. split; [reflexivity|].
  exact (optimize_throws_division (N := double) left_to_right 2 2 one_over_zero
           division_by_zero one_over_zero A eq_refl).
Defined.

Lemma optimize_normal_witness :
  wf (rank_of [0; 0; 1; 0; 2]%nat) x_plus_zero_times_two /\
  optimize (N := double) left_to_right 3 4 x_plus_zero_times_two
    = Some (Ret 4%nat, x_times_two) /\
  denotes x_times_two 4 (Binary (Var "x") (Constant 2%float) MULT) /\
  normal (N := double) (Binary (Var "x") (Constant 2%float) MULT).
Proof.
  split; [exact x_plus_zero_times_two_wf|]. split; [reflexivity|].
  split; [exact x_times_two_denotes|].
  exact (optimize_normal (N := double) left_to_right _ 3 4 x_plus_zero_times_two
           4 x_times_two _ x_plus_zero_times_two_wf eq_refl x_times_two_denotes).
Defined.

Lemma optimize_no_larger_witness :
  wf (rank_of [0; 0; 1; 0; 2]%nat) x_plus_zero_times_two /\
  denotes x_plus_zero_times_two 4
    (Binary (Binary (Var "x") (Constant 0%float) PLUS) (Constant 2%float) MULT) /\
  optimize (N := double) left_to_right 3 4 x_plus_zero_times_two
    = Some (Ret 4%nat, x_times_two) /\
  exists e', denotes x_times_two 4 e' /\
    (size e' <=
     size (Binary (Binary (Var "x") (Constant 0%float) PLUS)
                  (Constant 2%float) MULT))%nat.
Proof.
  split; [exact x_plus_zero_times_two_wf|].
  split; [exact x_plus_zero_times_two_denotes|]. split; [reflexivity|].
  exact (optimize_no_larger (N := double) left_to_right _ 3 4
           x_plus_zero_times_two 4 x_times_two _ x_plus_zero_times_two_wf
           x_plus_zero_times_two_denotes eq_refl).
Defined.

Lemma optimize_variables_witness :
  wf (rank_of [0; 0; 1; 0; 2]%nat) x_plus_zero_times_two /\
  denotes x_plus_zero_times_two 4
    (Binary (Binary (Var "x") (Constant 0%float) PLUS) (Constant 2%float) MULT) /\
  optimize (N := double) left_to_right 3 4 x_plus_zero_times_two
    = Some (Ret 4%nat, x_times_two) /\
  exists e', denotes x_times_two 4 e' /\
    forall n, occurs n e' ->
      occurs n (Binary (Binary (Var "x") (Constant 0%float) PLUS)
                       (Constant 2%float) MULT).
Proof.
  split; [exact x_plus_zero_times_two_wf|].
  split; [exact x_plus_zero_times_two_denotes|]. split; [reflexivity|].
  exact (optimize_variables (N := double) left_to_right _ 3 4
           x_plus_zero_times_two 4 x_times_two _ x_plus_zero_times_two_wf
           x_plus_zero_times_two_denotes eq_refl).
Defined.

Lemma constant_of_int_to_string_witness :
  (- 2 ^ 53 < -3 < 2 ^ 53) /\
  to_string (N := double) (Constant (Double.of_Z (-3))) = Some "(-3)".
Proof.
  split; [split; reflexivity|].
  exact (constant_of_int_to_string nan_libm (-3) (conj eq_refl eq_refl)).
Defined.

Lemma complex_constant_of_int_to_string_witness :
  (- 2 ^ 53 < -3 < 2 ^ 53) /\
  to_string (N := complex_double) (Constant (Double.of_Z (-3), 0%float))
    = Some "-3".
Proof.
  split; [split; reflexivity|].
  exact (complex_constant_of_int_to_string nan_cmath (-3) (conj eq_refl eq_refl)).
Defined.




Lemma optimize_assigns_in_place_witness :
  optimize (N := double) left_to_right 3 3 sin_x_plus_zero
    = Some (Ret 3%nat, sin_x_plus_zero_after) /\
  sin_x_plus_zero_after !! 0%nat = Some (VarExpression "x") /\
  sin_x_plus_zero_after !! 1%nat = Some (ConstantExpression 0%float) /\
  (exists e', sin_x_plus_zero_after !! 3%nat = Some (MonoExpression e' SIN)) /\
  (exists l' r' op',
     sin_x_plus_zero_after !! 2%nat = Some (BinaryExpression l' r' op') /\
     (op' = PLUS \/ (PLUS = MINUS /\ op' = MULT))) /\
  3%nat = 3%nat /\
  (exists e' h1,
     (forall f, (rank_of [0; 0; 1; 2; 3]%nat 2 < f)%nat ->
        optimize (N := double) left_to_right f 2 sin_x_plus_zero
        = Some (Ret e', h1)) /\
     sin_x_plus_zero_after = <[3%nat := MonoExpression e' SIN]> h1).
Proof.
  assert (E : optimize (N := double) left_to_right 3 3 sin_x_plus_zero
              = Some (Ret 3%nat, sin_x_plus_zero_after)) by reflexivity.
  destruct (optimize_assigns_in_place (N := double) left_to_right _ _ _ _ _ E)
    as (Hc & Hv & Hm & Hb & _ & Hw).
  split; [exact E | split; [|split; [|split; [|split]]]].
  - apply Hv. reflexivity.
  - apply Hc. reflexivity.
  - apply (Hm 3%nat 2%nat). reflexivity.
  - apply (Hb 2%nat 0%nat 1%nat). reflexivity.
  - exact (proj1 (Hw _ 3%nat sin_x_plus_zero_wf eq_refl) 2%nat SIN eq_refl).
Defined.
